(** * The gosql lexer: a shallow embedding and its properties

    The Go package [gosql] turns SQL source text into a flat list of tokens.
    This file embeds the lexer ([lex], the five scanners and [longestMatch])
    and proves properties of the embedded program.

    Modelling conventions.
    - A Go [string] or [[]byte] is a [list ascii] (one [ascii] per byte).
    - Go's [uint] is a [Z] kept in [0, 2^64): every arithmetic operation on a
      [uint] is followed by [uint], which reduces modulo [2^64].  [len] has
      Go type [int]; the conversion [uint(len(source))] is written out.
    - A Go run-time panic (index or slice out of range) is the outcome
      [Panic].  Loops are run with fuel; running out of fuel is the outcome
      [Timeout].  Both are shown not to happen.
    - A pointer to a [Token] that may be [nil] is an [option Token].
    - [fmt.Errorf] is not rendered: the error value keeps the three
      arguments that are formatted into the message. *)

From Stdlib Require Import ZArith Ascii String List Bool Lia Permutation.
Import ListNotations.
Local Open Scope Z_scope.

(** ** Outcomes, sequencing and loops *)

Inductive outcome (A : Type) : Type :=
| Val (a : A)
| Panic
| Timeout.
Arguments Val {A} a.
Arguments Panic {A}.
Arguments Timeout {A}.

Definition bind {A B : Type} (m : outcome A) (k : A -> outcome B) : outcome B :=
  match m with
  | Val a => k a
  | Panic => Panic
  | Timeout => Timeout
  end.

Notation "x <- m ;; k" := (bind m (fun x => k))
  (at level 61, m at next level, right associativity).

(** What one iteration of a Go [for] loop does next: go on with the post
    statement ([continue], or the end of the body), leave the loop
    ([break]), or leave the function ([return]). *)
Inductive ctl (St R : Type) : Type :=
| Next (s : St)
| Break (s : St)
| Return (r : R).
Arguments Next {St R} s.
Arguments Break {St R} s.
Arguments Return {St R} r.

(** [for ; cond; post { body }].  The result is the state at loop exit, or
    the value returned from inside the loop. *)
Fixpoint for_loop {St R : Type} (cond : St -> bool) (post : St -> St)
    (body : St -> outcome (ctl St R)) (fuel : nat) (s : St) : outcome (St + R) :=
  match fuel with
  | O => Timeout
  | S fuel' =>
      if cond s then
        c <- body s ;;
        match c with
        | Next s' => for_loop cond post body fuel' (post s')
        | Break s' => Val (inl s')
        | Return r => Val (inr r)
        end
      else Val (inl s)
  end.

(** ** Bytes, strings and unsigned integers *)

Definition bytes := list ascii.

(** A string literal as its bytes. *)
Definition B (s : string) : bytes := list_ascii_of_string s.

Definition len {A : Type} (s : list A) : Z := Z.of_nat (length s).

Definition uint (z : Z) : Z := z mod 2 ^ 64.

(** [s[i]] *)
Definition index (s : bytes) (i : Z) : outcome ascii :=
  if (0 <=? i) && (i <? len s) then
    match nth_error s (Z.to_nat i) with
    | Some c => Val c
    | None => Panic
    end
  else Panic.

(** The bytes of [s] from offset [lo] up to, not including, offset [hi]. *)
Definition sub (s : bytes) (lo hi : Z) : bytes :=
  firstn (Z.to_nat (hi - lo)) (skipn (Z.to_nat lo) s).

(** [s[lo:hi]] *)
Definition slice (s : bytes) (lo hi : Z) : outcome bytes :=
  if (0 <=? lo) && (lo <=? hi) && (hi <=? len s) then Val (sub s lo hi)
  else Panic.

Definition byte_eqb (a b : ascii) : bool := Ascii.eqb a b.

Definition byte_leb (a b : ascii) : bool := (N_of_ascii a <=? N_of_ascii b)%N.

Fixpoint bytes_eqb (a b : bytes) : bool :=
  match a, b with
  | [], [] => true
  | x :: a', y :: b' => byte_eqb x y && bytes_eqb a' b'
  | _, _ => false
  end.

(** *** [strings.ToLower]

    The lexer lowers two kinds of argument only: a byte string made of ASCII
    letters, digits, [$] and [_] (in [lexIdentifier]) and the one-character
    string [string(b)] of a byte [b] (in [longestMatch]).  On ASCII input
    [strings.ToLower] maps [A-Z] to [a-z] byte by byte.  [string(b)] for
    [b >= 0x80] is the two-byte UTF-8 encoding of the code point [b], and its
    lower case is the encoding of [unicode.ToLower(b)], which within Latin-1
    moves U+00C0..U+00DE (but not U+00D7) up by 32. *)

Definition lower_byte (c : ascii) : ascii :=
  if byte_leb "A" c && byte_leb c "Z"
  then ascii_of_N (N_of_ascii c + 32)
  else c.

Definition ToLower (s : bytes) : bytes := map lower_byte s.

Definition utf8_two (r : N) : bytes :=
  [ascii_of_N (192 + r / 64); ascii_of_N (128 + r mod 64)].

Definition latin1_lower (r : N) : N :=
  if ((192 <=? r) && (r <=? 222) && negb (r =? 215))%N then (r + 32)%N else r.

(** [strings.ToLower(string(b))] *)
Definition ToLower_byte (b : ascii) : bytes :=
  if (N_of_ascii b <? 128)%N then [lower_byte b]
  else utf8_two (latin1_lower (N_of_ascii b)).

(** ** Data model *)

Record Location : Type := { Line : Z; Col : Z }.

Inductive TokenKind : Type :=
| KeywordKind
| SymbolKind
| IdentifierKind
| StringKind
| NumericKind
| BoolKind.

Record Token : Type := { Value : bytes; Kind : TokenKind; Loc : Location }.

Record cursor : Type := { pointer : Z; loc : Location }.

(** The zero value [cursor{}]. *)
Definition cursor0 : cursor :=
  {| pointer := 0; loc := {| Line := 0; Col := 0 |} |}.

(** [cur.pointer = p] *)
Definition set_pointer (cur : cursor) (p : Z) : cursor :=
  {| pointer := p; loc := loc cur |}.

(** [cur.loc.Col = c] *)
Definition set_Col (cur : cursor) (c : Z) : cursor :=
  {| pointer := pointer cur; loc := {| Line := Line (loc cur); Col := c |} |}.

(** [cur.loc.Line = l] *)
Definition set_Line (cur : cursor) (l : Z) : cursor :=
  {| pointer := pointer cur; loc := {| Line := l; Col := Col (loc cur) |} |}.

(** [cur.pointer++] *)
Definition incr_pointer (cur : cursor) : cursor :=
  set_pointer cur (uint (pointer cur + 1)).

(** [cur.loc.Col++] *)
Definition incr_Col (cur : cursor) : cursor :=
  set_Col cur (uint (Col (loc cur) + 1)).

(** [cur.loc.Line++] *)
Definition incr_Line (cur : cursor) : cursor :=
  set_Line cur (uint (Line (loc cur) + 1)).

Definition Keyword := bytes.
Definition SelectKeyword : Keyword := B "select".
Definition FromKeyword : Keyword := B "from".
Definition AsKeyword : Keyword := B "as".
Definition TableKeyword : Keyword := B "table".
Definition CreateKeyword : Keyword := B "create".
Definition InsertKeyword : Keyword := B "insert".
Definition IntoKeyword : Keyword := B "into".
Definition ValuesKeyword : Keyword := B "values".
Definition IntKeyword : Keyword := B "int".
Definition TextKeyword : Keyword := B "text".
Definition WhereKeyword : Keyword := B "where".

Definition Symbol := bytes.
Definition SemicolonSymbol : Symbol := B ";".
Definition AsteriskSymbol : Symbol := B "*".
Definition CommaSymbol : Symbol := B ",".
Definition LeftParenSymbol : Symbol := B "(".
Definition RightParenSymbol : Symbol := B ")".
Definition ConcatSymbol : Symbol := B "||".

(** The three results of a scanner: the token (or nil), the cursor and
    whether it matched. *)
Definition lexed : Type := option Token * cursor * bool.

Definition no_match (ic : cursor) : lexed := (None, ic, false).

Definition lexer : Type := bytes -> cursor -> outcome lexed.

(** [t.Kind == other.Kind] *)
Definition TokenKind_eqb (a b : TokenKind) : bool :=
  match a, b with
  | KeywordKind, KeywordKind
  | SymbolKind, SymbolKind
  | IdentifierKind, IdentifierKind
  | StringKind, StringKind
  | NumericKind, NumericKind
  | BoolKind, BoolKind => true
  | _, _ => false
  end.

(** [func (t *Token) equals(other *Token) bool] *)
Definition equals (t other : Token) : bool :=
  bytes_eqb (Value t) (Value other) && TokenKind_eqb (Kind t) (Kind other).

(** ** [lexNumeric] *)

Record numeric_state : Type :=
  { n_cur : cursor; periodFound : bool; expMarkerFound : bool }.

Definition isDigit (c : ascii) : bool := byte_leb "0" c && byte_leb c "9".

Definition lexNumeric_body (source : bytes) (ic : cursor) (st : numeric_state)
  : outcome (ctl numeric_state lexed) :=
  let cur := n_cur st in
  c <- index source (pointer cur) ;;
  let cur := incr_Col cur in
  let isPeriod := byte_eqb c "." in
  let isExpMarker := byte_eqb c "e" in
  if pointer cur =? pointer ic then
    if negb (isDigit c) && negb isPeriod then Val (Return (no_match ic))
    else Val (Next {| n_cur := cur; periodFound := isPeriod;
                      expMarkerFound := expMarkerFound st |})
  else if isPeriod then
    if periodFound st then Val (Return (no_match ic))
    else Val (Next {| n_cur := cur; periodFound := true;
                      expMarkerFound := expMarkerFound st |})
  else if isExpMarker then
    if expMarkerFound st then Val (Return (no_match ic))
    else if pointer cur =? uint (len source - 1) then Val (Return (no_match ic))
    else
      cNext <- index source (uint (pointer cur + 1)) ;;
      let cur := if byte_eqb cNext "-" || byte_eqb cNext "+"
                 then incr_Col (incr_pointer cur) else cur in
      Val (Next {| n_cur := cur; periodFound := true; expMarkerFound := true |})
  else if negb (isDigit c) then
    Val (Break {| n_cur := cur; periodFound := periodFound st;
                  expMarkerFound := expMarkerFound st |})
  else
    Val (Next {| n_cur := cur; periodFound := periodFound st;
                 expMarkerFound := expMarkerFound st |}).

Definition numeric_post (st : numeric_state) : numeric_state :=
  {| n_cur := incr_pointer (n_cur st); periodFound := periodFound st;
     expMarkerFound := expMarkerFound st |}.

Definition lexNumeric : lexer := fun source ic =>
  r <- for_loop (fun st => pointer (n_cur st) <? uint (len source))
                numeric_post (lexNumeric_body source ic) (S (length source))
                {| n_cur := ic; periodFound := false; expMarkerFound := false |} ;;
  match r with
  | inr res => Val res
  | inl st =>
      let cur := n_cur st in
      if pointer cur =? pointer ic then Val (no_match ic)
      else
        v <- slice source (pointer ic) (pointer cur) ;;
        Val (Some {| Value := v; Kind := NumericKind; Loc := loc ic |}, cur, true)
  end.

(** ** [lexCharacterDelimited] and [lexString] *)

Record delimited_state : Type := { d_cur : cursor; d_value : bytes }.

Definition lexCharacterDelimited_body (source : bytes) (ic : cursor)
    (delimiter : ascii) (st : delimited_state)
  : outcome (ctl delimited_state lexed) :=
  let cur := d_cur st in
  let value := d_value st in
  c <- index source (pointer cur) ;;
  if byte_eqb c delimiter then
    closing <-
      (if uint (pointer cur + 1) >=? uint (len source) then Val true
       else
         cNext <- index source (uint (pointer cur + 1)) ;;
         Val (negb (byte_eqb cNext delimiter))) ;;
    if closing : bool then
      Val (Return (Some {| Value := value; Kind := StringKind; Loc := loc ic |},
                   cur, true))
    else
      let value := value ++ [delimiter] in
      let cur := incr_Col (incr_pointer cur) in
      Val (Next {| d_cur := incr_Col cur; d_value := value ++ [c] |})
  else
    Val (Next {| d_cur := incr_Col cur; d_value := value ++ [c] |}).

Definition delimited_post (st : delimited_state) : delimited_state :=
  {| d_cur := incr_pointer (d_cur st); d_value := d_value st |}.

Definition lexCharacterDelimited (source : bytes) (ic : cursor)
    (delimiter : ascii) : outcome lexed :=
  let cur := ic in
  rest <- slice source (pointer cur) (len source) ;;
  if len rest =? 0 then Val (no_match ic)
  else
    c <- index source (pointer cur) ;;
    if negb (byte_eqb c delimiter) then Val (no_match ic)
    else
      let cur := incr_pointer (incr_Col cur) in
      r <- for_loop (fun st => pointer (d_cur st) <? uint (len source))
                    delimited_post
                    (lexCharacterDelimited_body source ic delimiter)
                    (S (length source))
                    {| d_cur := cur; d_value := [] |} ;;
      match r with
      | inr res => Val res
      | inl _ => Val (no_match ic)
      end.

(** The single quote and the double quote. *)
Definition squote : ascii := "039".
Definition dquote : ascii := "034".

Definition lexString : lexer := fun source ic =>
  lexCharacterDelimited source ic squote.

(** ** [longestMatch] *)

(** The loop over [options], from index [i] on: [value] is the lowered text
    read so far and [k] is [cur.pointer-ic.pointer]. *)
Fixpoint range_options (value : bytes) (k : Z) (i : Z) (options : list bytes)
    (skipList : list Z) (mtch : bytes) : outcome (list Z * bytes) :=
  match options with
  | [] => Val (skipList, mtch)
  | option :: rest =>
      if existsb (Z.eqb i) skipList then
        range_options value k (i + 1) rest skipList mtch
      else if bytes_eqb option value then
        let skipList := skipList ++ [i] in
        let mtch := if len option >? len mtch then option else mtch in
        range_options value k (i + 1) rest skipList mtch
      else
        prefix <- slice option 0 k ;;
        let sharesPrefix := bytes_eqb value prefix in
        let tooLong := len value >? len option in
        let skipList :=
          if tooLong || negb sharesPrefix then skipList ++ [i] else skipList in
        range_options value k (i + 1) rest skipList mtch
  end.

Record match_state : Type :=
  { m_value : bytes; m_skipList : list Z; m_match : bytes; m_cur : cursor }.

Definition longestMatch_body (source : bytes) (ic : cursor)
    (options : list bytes) (st : match_state)
  : outcome (ctl match_state Empty_set) :=
  c <- index source (pointer (m_cur st)) ;;
  let value := m_value st ++ ToLower_byte c in
  let cur := incr_pointer (m_cur st) in
  r <- range_options value (uint (pointer cur - pointer ic)) 0 options
         (m_skipList st) (m_match st) ;;
  let st' := {| m_value := value; m_skipList := fst r; m_match := snd r;
                m_cur := cur |} in
  if len (m_skipList st') =? len options then Val (Break st')
  else Val (Next st').

Definition longestMatch (source : bytes) (ic : cursor) (options : list bytes)
  : outcome bytes :=
  r <- for_loop (fun st => pointer (m_cur st) <? uint (len source))
                (fun st => st)
                (longestMatch_body source ic options)
                (S (length source))
                {| m_value := []; m_skipList := []; m_match := [];
                   m_cur := ic |} ;;
  match r with
  | inl st => Val (m_match st)
  | inr e => match e with end
  end.

(** ** [lexSymbol] and [lexKeyword] *)

Definition symbols : list Symbol :=
  [CommaSymbol; LeftParenSymbol; RightParenSymbol; SemicolonSymbol;
   AsteriskSymbol].

Definition keywords : list Keyword :=
  [SelectKeyword; InsertKeyword; ValuesKeyword; TableKeyword; CreateKeyword;
   WhereKeyword; FromKeyword; IntoKeyword; TextKeyword].

(** The tail shared by [lexSymbol] and [lexKeyword]: from the result of
    [longestMatch] to the token and the cursor behind it. *)
Definition matched (kind : TokenKind) (ic cur : cursor) (mtch : bytes) : lexed :=
  if bytes_eqb mtch [] then no_match ic
  else
    let cur := set_pointer cur (uint (pointer ic + uint (len mtch))) in
    let cur := set_Col cur (uint (Col (loc ic) + uint (len mtch))) in
    (Some {| Value := mtch; Kind := kind; Loc := loc ic |}, cur, true).

Definition lexSymbol : lexer := fun source ic =>
  c <- index source (pointer ic) ;;
  let cur := ic in
  let cur := incr_pointer cur in
  let cur := incr_Col cur in
  if byte_eqb c "010" then
    Val (None, set_Col (incr_Line cur) 0, true)
  else if byte_eqb c "009" then Val (None, cur, true)
  else if byte_eqb c " " then Val (None, cur, true)
  else
    let options := symbols in
    mtch <- longestMatch source ic options ;;
    Val (matched SymbolKind ic cur mtch).

Definition lexKeyword : lexer := fun source ic =>
  let cur := ic in
  let options := keywords in
  mtch <- longestMatch source ic options ;;
  Val (matched KeywordKind ic cur mtch).

(** ** [lexIdentifier] *)

Record ident_state : Type := { i_cur : cursor; i_value : bytes }.

Definition isAlphabetical (c : ascii) : bool :=
  (byte_leb "A" c && byte_leb c "Z") || (byte_leb "a" c && byte_leb c "z").

Definition lexIdentifier_body (source : bytes) (st : ident_state)
  : outcome (ctl ident_state Empty_set) :=
  c <- index source (pointer (i_cur st)) ;;
  let isNumeric := byte_leb "0" c && byte_leb c "9" in
  if isAlphabetical c || isNumeric || byte_eqb c "$" || byte_eqb c "_" then
    Val (Next {| i_cur := incr_Col (i_cur st); i_value := i_value st ++ [c] |})
  else Val (Break st).

Definition ident_post (st : ident_state) : ident_state :=
  {| i_cur := incr_pointer (i_cur st); i_value := i_value st |}.

Definition lexIdentifier : lexer := fun source ic =>
  r <- lexCharacterDelimited source ic dquote ;;
  match r with
  | (token, newCursor, true) => Val (token, newCursor, true)
  | (_, _, false) =>
      let cur := ic in
      c <- index source (pointer cur) ;;
      if negb (isAlphabetical c) then Val (no_match ic)
      else
        let cur := incr_pointer cur in
        let cur := incr_Col cur in
        r <- for_loop (fun st => pointer (i_cur st) <? uint (len source))
                      ident_post (lexIdentifier_body source)
                      (S (length source))
                      {| i_cur := cur; i_value := [c] |} ;;
        match r with
        | inl st =>
            if len (i_value st) =? 0 then Val (no_match ic)
            else
              Val (Some {| Value := ToLower (i_value st);
                           Kind := IdentifierKind; Loc := loc ic |},
                   i_cur st, true)
        | inr e => match e with end
        end
  end.

(** ** [lex] *)

(** The error of [lex]: the hint, the line and the column that [fmt.Errorf]
    formats into the message. *)
Record LexError : Type := { err_hint : bytes; err_line : Z; err_col : Z }.

(** The two results of [lex]: the tokens and a nil error, or nil and an
    error. *)
Inductive lex_result : Type :=
| Tokens (tokens : list Token)
| Failed (err : LexError).

Definition lexers : list lexer :=
  [lexKeyword; lexSymbol; lexString; lexNumeric; lexIdentifier].

(** The loop over [lexers]: the token and cursor of the first scanner that
    matches, if any. *)
Fixpoint range_lexers (ls : list lexer) (source : bytes) (cur : cursor)
  : outcome (option (option Token * cursor)) :=
  match ls with
  | [] => Val None
  | l :: rest =>
      r <- l source cur ;;
      match r with
      | (token, newCursor, true) => Val (Some (token, newCursor))
      | (_, _, false) => range_lexers rest source cur
      end
  end.

Fixpoint last_token (tokens : list Token) : option Token :=
  match tokens with
  | [] => None
  | [t] => Some t
  | _ :: rest => last_token rest
  end.

Record lex_state : Type := { l_tokens : list Token; l_cur : cursor }.

Definition lex_hint (tokens : list Token) : bytes :=
  match last_token tokens with
  | Some t => B " after " ++ Value t
  | None => []
  end.

(** [if token != nil { tokens = append(tokens, token) }] *)
Definition push_token (token : option Token) (tokens : list Token)
  : list Token :=
  match token with
  | Some t => tokens ++ [t]
  | None => tokens
  end.

Definition lex_body (source : bytes) (st : lex_state)
  : outcome (ctl lex_state lex_result) :=
  let cur := l_cur st in
  let tokens := l_tokens st in
  r <- range_lexers lexers source cur ;;
  match r with
  | Some (token, newCursor) =>
      Val (Next {| l_tokens := push_token token tokens; l_cur := newCursor |})
  | None =>
      Val (Return (Failed {| err_hint := lex_hint tokens;
                             err_line := Line (loc cur);
                             err_col := Col (loc cur) |}))
  end.

(** [lex], with the driver loop allowed [fuel] iterations. *)
Definition lex_fuel (fuel : nat) (source : bytes) : outcome lex_result :=
  r <- for_loop (fun st => pointer (l_cur st) <? uint (len source))
                (fun st => st) (lex_body source) fuel
                {| l_tokens := []; l_cur := cursor0 |} ;;
  match r with
  | inl st => Val (Tokens (l_tokens st))
  | inr res => Val res
  end.

Definition lex (source : bytes) : outcome lex_result :=
  lex_fuel (S (length source)) source.

(** ** Vocabulary of the properties *)

(** Offset [i] of [s] holds the byte [c]. *)
Definition byte_at (s : bytes) (i : Z) (c : ascii) : Prop :=
  0 <= i /\ nth_error s (Z.to_nat i) = Some c.

(** All 256 bytes. *)
Definition all_bytes : list ascii := map ascii_of_nat (seq 0 256).

(** The bytes [lexNumeric] consumes. *)
Definition numeric_byte (c : ascii) : bool :=
  isDigit c || byte_eqb c "." || byte_eqb c "e" || byte_eqb c "-"
  || byte_eqb c "+".

(** The bytes [lexIdentifier] consumes after the first one. *)
Definition ident_byte (c : ascii) : bool :=
  isAlphabetical c || (byte_leb "0" c && byte_leb c "9") || byte_eqb c "$"
  || byte_eqb c "_".

Definition is_sign (c : ascii) : bool := byte_eqb c "-" || byte_eqb c "+".

Definition is_newline (c : ascii) : bool := byte_eqb c "010".

(** The bytes that [lexSymbol] throws away. *)
Definition is_space (c : ascii) : bool :=
  byte_eqb c "010" || byte_eqb c "009" || byte_eqb c " ".

Definition is_quote (c : ascii) : bool := byte_eqb c squote || byte_eqb c dquote.

Definition ascii7 (c : ascii) : bool := (N_of_ascii c <? 128)%N.

(** The text [longestMatch] builds from a run of source bytes. *)
Definition lower_text (l : bytes) : bytes := flat_map ToLower_byte l.

(** A token given by its text, its kind and its line and column. *)
Definition tok (value : string) (kind : TokenKind) (line col : Z) : Token :=
  {| Value := B value; Kind := kind; Loc := {| Line := line; Col := col |} |}.

(** *** What the matches of the scanners look like

    In what follows [source] is the text that is lexed and [ic] is the
    cursor a scanner is given. *)

(** Every sign between the cursors [ic] and [cur] comes right after
    an [e]. *)
Definition signs_follow_e (source : bytes) (ic cur : cursor) : Prop :=
  forall i c, pointer ic <= i < pointer cur -> byte_at source i c ->
              is_sign c = true ->
              pointer ic < i /\ byte_at source (i - 1) "e".

(** A match of [lexNumeric]: the value is the text the cursor has moved
    over, which is made of digits, periods, [e] and signs. *)
Definition numeric_match (source : bytes) (ic : cursor) (r : lexed) : Prop :=
  exists cur,
    pointer ic < pointer cur <= len source
    /\ Line (loc cur) = Line (loc ic)
    /\ Forall (fun c => numeric_byte c = true)
              (sub source (pointer ic) (pointer cur))
    /\ signs_follow_e source ic cur
    /\ r = (Some {| Value := sub source (pointer ic) (pointer cur);
                    Kind := NumericKind; Loc := loc ic |}, cur, true).

(** A match of [lexCharacterDelimited]: the cursor has moved from the
    opening delimiter to a later delimiter, on which it stays, and the value
    is the text strictly between the two. *)
Definition delimited_match (source : bytes) (ic : cursor) (delimiter : ascii)
    (r : lexed) : Prop :=
  exists cur,
    pointer ic < pointer cur < len source
    /\ byte_at source (pointer ic) delimiter
    /\ byte_at source (pointer cur) delimiter
    /\ Line (loc cur) = Line (loc ic)
    /\ r = (Some {| Value := sub source (pointer ic + 1) (pointer cur);
                    Kind := StringKind; Loc := loc ic |}, cur, true).

(** A match of [lexIdentifier] on a bare identifier. *)
Definition bare_match (source : bytes) (ic : cursor) (r : lexed) : Prop :=
  exists cur,
    pointer ic < pointer cur <= len source
    /\ Line (loc cur) = Line (loc ic)
    /\ Forall (fun c => ident_byte c = true)
              (sub source (pointer ic) (pointer cur))
    /\ r = (Some {| Value := ToLower (sub source (pointer ic) (pointer cur));
                    Kind := IdentifierKind; Loc := loc ic |}, cur, true).

(** A match of [lexSymbol] on white space. *)
Definition space_match (source : bytes) (ic : cursor) (r : lexed) : Prop :=
  exists c,
    byte_at source (pointer ic) c /\ is_space c = true
    /\ r = (None,
            {| pointer := pointer ic + 1;
               loc := if is_newline c
                      then {| Line := uint (Line (loc ic) + 1); Col := 0 |}
                      else {| Line := Line (loc ic);
                              Col := uint (Col (loc ic) + 1) |} |},
            true).

(** [o] is the text at the cursor with its ASCII capital letters lowered:
    [o] itself is taken as it is written. *)
Definition text_at (source : bytes) (ic : cursor) (o : bytes) : Prop :=
  pointer ic + len o <= len source
  /\ ToLower (sub source (pointer ic) (pointer ic + len o)) = o.

(** A match of [lexKeyword], or of [lexSymbol] on a symbol: the token is
    the longest option that is the text at the cursor, and the cursor has
    moved behind that text. *)
Definition literal_match (source : bytes) (ic : cursor) (options : list bytes)
    (kind : TokenKind) (r : lexed) : Prop :=
  exists m,
    In m options /\ 1 <= len m /\ text_at source ic m
    /\ (forall o, In o options -> text_at source ic o -> len o <= len m)
    /\ r = (Some {| Value := m; Kind := kind; Loc := loc ic |},
            {| pointer := pointer ic + len m;
               loc := {| Line := Line (loc ic);
                         Col := uint (Col (loc ic) + len m) |} |},
            true).

(** No match of [lexKeyword], or of [lexSymbol] off white space: no option
    is the text at the cursor. *)
Definition literal_miss (source : bytes) (ic : cursor) (options : list bytes)
    (r : lexed) : Prop :=
  r = no_match ic /\ forall o, In o options -> ~ text_at source ic o.

(** A match of one of the five scanners. *)
Definition scanner_match (source : bytes) (cur : cursor) (r : lexed) : Prop :=
  literal_match source cur keywords KeywordKind r
  \/ space_match source cur r
  \/ literal_match source cur symbols SymbolKind r
  \/ delimited_match source cur squote r
  \/ numeric_match source cur r
  \/ delimited_match source cur dquote r
  \/ bare_match source cur r.

(** *** The scan of [longestMatch] *)

(** The lowered text of the [k] bytes at the cursor. *)
Definition lowered (source : bytes) (ic : cursor) (k : Z) : bytes :=
  lower_text (sub source (pointer ic) (pointer ic + k)).

(** [o] is the option of index [j]. *)
Definition option_at (options : list bytes) (j : Z) (o : bytes) : Prop :=
  0 <= j /\ nth_error options (Z.to_nat j) = Some o.

(** [o] is the lowered text at the cursor. *)
Definition matches_here (source : bytes) (ic : cursor) (o : bytes) : Prop :=
  pointer ic + len o <= len source /\ lowered source ic (len o) = o.

(** The state of the scan after [k] bytes, while the options before index
    [i] have been looked at for the [k]-th byte and the others have not: the
    skip list holds valid indices, each once; an option that is not in it
    has the text read so far as a proper prefix; an option that is in it and
    is the text at the cursor is no longer than the recorded match; and the
    recorded match, if any, is an option that was equal to the text read at
    some step. *)
Definition scan_inv (source : bytes) (ic : cursor) (options : list bytes)
    (k i : Z) (skipList : list Z) (mtch : bytes) : Prop :=
  (forall j, In j skipList -> 0 <= j < len options)
  /\ NoDup skipList
  /\ (forall j o, option_at options j o -> ~ In j skipList ->
        (j < i -> k < len o /\ lowered source ic k = sub o 0 k)
        /\ (i <= j -> k - 1 < len o
                      /\ lowered source ic (k - 1) = sub o 0 (k - 1)))
  /\ (forall j o, option_at options j o -> In j skipList ->
                  matches_here source ic o -> len o <= len mtch)
  /\ (mtch = [] \/
      (In mtch options
       /\ exists k', 1 <= k' <= k /\ mtch = lowered source ic k')).

(** The states of the scan loop of [longestMatch]: the first one, and the
    one that an iteration which goes on leaves behind. *)
Inductive scan_reaches (source : bytes) (ic : cursor) (options : list bytes)
  : match_state -> Prop :=
| scan_start :
    scan_reaches source ic options
      {| m_value := []; m_skipList := []; m_match := []; m_cur := ic |}
| scan_step (st st' : match_state) :
    scan_reaches source ic options st ->
    (pointer (m_cur st) <? uint (len source)) = true ->
    longestMatch_body source ic options st = Val (Next st') ->
    scan_reaches source ic options st'.

(** *** The driver *)

(** The states of the driver loop of [lex]: the first one, and the one that
    a match of a scanner leaves behind. *)
Inductive lex_reaches (source : bytes) : lex_state -> Prop :=
| lex_reaches_start :
    lex_reaches source {| l_tokens := []; l_cur := cursor0 |}
| lex_reaches_step (st : lex_state) (token : option Token)
    (newCursor : cursor) :
    lex_reaches source st ->
    (pointer (l_cur st) <? uint (len source)) = true ->
    range_lexers lexers source (l_cur st) = Val (Some (token, newCursor)) ->
    lex_reaches source {| l_tokens := push_token token (l_tokens st);
                          l_cur := newCursor |}.

(** The driver stands, in state [st], at a cursor inside the source where
    every scanner reports no match, and [e] is the error it returns. *)
Definition lex_stuck (source : bytes) (st : lex_state) (e : LexError) : Prop :=
  0 <= pointer (l_cur st) < len source
  /\ (forall l, In l lexers -> l source (l_cur st) = Val (no_match (l_cur st)))
  /\ e = {| err_hint := lex_hint (l_tokens st);
            err_line := Line (loc (l_cur st));
            err_col := Col (loc (l_cur st)) |}.

(** [text] is the values of [tokens], in their order, with white space
    before, between and after them. *)
Inductive rebuilds : bytes -> list Token -> Prop :=
| rebuilds_nil : rebuilds [] []
| rebuilds_space (c : ascii) (text : bytes) (tokens : list Token) :
    is_space c = true -> rebuilds text tokens -> rebuilds (c :: text) tokens
| rebuilds_token (t : Token) (text : bytes) (tokens : list Token) :
    rebuilds text tokens -> rebuilds (Value t ++ text) (t :: tokens).

(** The driver stands on a quote that a delimited scan has left unread. *)
Definition doomed (source : bytes) (st : lex_state) : Prop :=
  exists d, is_quote d = true /\ byte_at source (pointer (l_cur st)) d.

(** A value that holds no white space: it is not empty and none of its
    bytes is a newline, a tab or a space. *)
Definition spaceless (value : bytes) : Prop :=
  value <> [] /\ Forall (fun c => is_space c = false) value.

(** Unless the driver stands on such a quote, the tokens rebuild the
    lowered text read so far, and none of them holds white space. *)
Definition rebuilt (source : bytes) (st : lex_state) : Prop :=
  doomed source st
  \/ (rebuilds (ToLower (sub source 0 (pointer (l_cur st)))) (l_tokens st)
      /\ Forall (fun t => spaceless (Value t)) (l_tokens st)).

(** The number of newline bytes in a text, and in the values of tokens. *)
Definition newlines (text : bytes) : Z :=
  len (filter (fun c => byte_eqb c "010") text).

Definition newlines_in (tokens : list Token) : Z :=
  newlines (flat_map Value tokens).

(** The line of the cursor counts the newline bytes read so far that are
    not in the value of a token. *)
Definition line_counted (source : bytes) (st : lex_state) : Prop :=
  0 <= Line (loc (l_cur st))
  /\ Line (loc (l_cur st)) + newlines_in (l_tokens st)
     = newlines (sub source 0 (pointer (l_cur st))).

(** *** The shape of the tokens *)

Definition digit_or_period (c : ascii) : bool := isDigit c || byte_eqb c ".".

(** The number of periods in a text. *)
Definition periods (text : bytes) : Z :=
  len (filter (fun c => byte_eqb c ".") text).

(** The exponent of a numeric literal: nothing, or [e], at most one sign,
    and digits. *)
Definition exponent_text (x : bytes) : Prop :=
  x = [] \/
  exists sign digits,
    x = "e"%char :: sign ++ digits
    /\ (sign = [] \/ sign = ["-"%char] \/ sign = ["+"%char])
    /\ Forall (fun c => isDigit c = true) digits.

(** The texts of numeric literals: a mantissa of digits with at most one
    period, which is not empty, and an exponent. *)
Definition numeric_text (v : bytes) : Prop :=
  exists mantissa exponent,
    v = mantissa ++ exponent
    /\ mantissa <> []
    /\ Forall (fun c => digit_or_period c = true) mantissa
    /\ periods mantissa <= 1
    /\ exponent_text exponent.

(** What [lexNumeric] has read when its flags are [pf] and [ef]: a
    mantissa, without a period if [pf] is off, or with [ef] on a mantissa
    and an exponent. *)
Definition numeric_scan (pf ef : bool) (text : bytes) : Prop :=
  if ef then
    pf = true
    /\ exists mantissa exponent,
         text = mantissa ++ exponent /\ mantissa <> []
         /\ Forall (fun c => digit_or_period c = true) mantissa
         /\ periods mantissa <= 1
         /\ exponent <> [] /\ exponent_text exponent
  else
    Forall (fun c => digit_or_period c = true) text
    /\ periods text <= 1
    /\ (pf = false -> periods text = 0).

(** The source ends at offset [q], or the byte at [q] fails the test
    [more]: the scan could not have gone on. *)
Definition stops_at (source : bytes) (q : Z) (more : ascii -> bool) : Prop :=
  q = len source \/ exists c, byte_at source q c /\ more c = false.

(** The bytes that carry a numeric literal on: digits, the period and
    [e]. *)
Definition numeric_more (c : ascii) : bool :=
  isDigit c || byte_eqb c "." || byte_eqb c "e".

(** The column behind a text: the number of bytes after its last
    newline. *)
Definition column_after (text : bytes) : Z :=
  fold_left (fun col c => if is_newline c then 0 else col + 1) text 0.

(** No numeric literal among [tokens] starts on line [line]. *)
Definition no_numeric_on (line : Z) (tokens : list Token) : Prop :=
  Forall (fun t => Kind t = NumericKind -> Line (Loc t) <> line) tokens.

(** The column of the cursor is the number of bytes read since the last
    newline, as long as no token holds a newline and no numeric literal
    starts on the line of the cursor; no token starts on a later line. *)
Definition column_counted (source : bytes) (st : lex_state) : Prop :=
  Forall (fun t => Line (Loc t) <= Line (loc (l_cur st))) (l_tokens st)
  /\ (newlines_in (l_tokens st) = 0 ->
      no_numeric_on (Line (loc (l_cur st))) (l_tokens st) ->
      Col (loc (l_cur st))
      = column_after (sub source 0 (pointer (l_cur st)))).

Definition lower_letter (c : ascii) : bool := byte_leb "a" c && byte_leb c "z".

(** The bytes of the value of a bare identifier: small letters, digits,
    [$] and [_]. *)
Definition lower_ident_byte (c : ascii) : bool :=
  lower_letter c || (byte_leb "0" c && byte_leb c "9") || byte_eqb c "$"
  || byte_eqb c "_".

(** The tokens that [lex] returns: a keyword or a symbol of the lists, an
    identifier that starts with a small letter, goes on with small letters,
    digits, [$] and [_], and does not start with a keyword, or a numeric
    literal; no string and no boolean. *)
Definition token_shape (t : Token) : Prop :=
  match Kind t with
  | KeywordKind => In (Value t) keywords
  | SymbolKind => In (Value t) symbols
  | IdentifierKind =>
      (exists c rest, Value t = c :: rest /\ lower_letter c = true)
      /\ Forall (fun c => lower_ident_byte c = true) (Value t)
      /\ forall k, In k keywords -> firstn (length k) (Value t) <> k
  | NumericKind => numeric_text (Value t)
  | StringKind => False
  | BoolKind => False
  end.

(** *** Runs that differ in lines and columns only *)

(** Two runs end alike: with values that [R] relates, or both with a panic,
    or both out of fuel. *)
Definition same_outcome {A : Type} (R : A -> A -> Prop) (o o' : outcome A)
  : Prop :=
  match o, o' with
  | Val a, Val a' => R a a'
  | Panic, Panic => True
  | Timeout, Timeout => True
  | _, _ => False
  end.

(** Two iterations of a loop go on, break or return alike. *)
Definition same_ctl {St R : Type} (RS : St -> St -> Prop)
    (RR : R -> R -> Prop) (c c' : ctl St R) : Prop :=
  match c, c' with
  | Next s, Next s' => RS s s'
  | Break s, Break s' => RS s s'
  | Return r, Return r' => RR r r'
  | _, _ => False
  end.

(** Two loops leave alike. *)
Definition same_exit {St R : Type} (RS : St -> St -> Prop)
    (RR : R -> R -> Prop) (x x' : St + R) : Prop :=
  match x, x' with
  | inl s, inl s' => RS s s'
  | inr r, inr r' => RR r r'
  | _, _ => False
  end.

(** Two tokens, or two nils, that [equals] does not tell apart. *)
Definition same_token (a b : option Token) : Prop :=
  match a, b with
  | Some t, Some other => equals t other = true
  | None, None => True
  | _, _ => False
  end.

(** Two results of a scanner with the same verdict, the same pointer and
    tokens that [equals] does not tell apart. *)
Definition same_lexed (r r' : lexed) : Prop :=
  same_token (fst (fst r)) (fst (fst r'))
  /\ pointer (snd (fst r)) = pointer (snd (fst r'))
  /\ snd r = snd r'.

(** Two states of a scanner's loop that differ in line and column only. *)
Definition same_numeric (st st' : numeric_state) : Prop :=
  pointer (n_cur st) = pointer (n_cur st')
  /\ periodFound st = periodFound st'
  /\ expMarkerFound st = expMarkerFound st'.

Definition same_delimited (st st' : delimited_state) : Prop :=
  pointer (d_cur st) = pointer (d_cur st') /\ d_value st = d_value st'.

Definition same_match (st st' : match_state) : Prop :=
  m_value st = m_value st' /\ m_skipList st = m_skipList st'
  /\ m_match st = m_match st' /\ pointer (m_cur st) = pointer (m_cur st').

Definition same_ident (st st' : ident_state) : Prop :=
  pointer (i_cur st) = pointer (i_cur st') /\ i_value st = i_value st'.

(** *** Sample inputs *)

(** A source of two lines: [a], a newline, [?]. *)
Definition two_lines : bytes := B "a" ++ ["010"%char] ++ B "?".

(** The identifier [Foo] between double quotes. *)
Definition quoted_Foo : bytes := [dquote] ++ B "Foo" ++ [dquote].

(** A string of two lines: a quote, [a], a newline, [b], a quote. *)
Definition quoted_two_lines : bytes :=
  [squote] ++ B "a" ++ ["010"%char] ++ B "b" ++ [squote].

(** * Properties *)

(** ** The loop rule *)

Section ForLoop.
Context {St R : Type}.
Variable cond : St -> bool.
Variable post : St -> St.
Variable body : St -> outcome (ctl St R).
Variable Inv : St -> Prop.
Variable measure : St -> nat.
Variable Post : St + R -> Prop.

Hypothesis body_ok : forall s, Inv s -> cond s = true ->
  exists c, body s = Val c /\
    match c with
    | Next s' => Inv (post s') /\ (measure (post s') < measure s)%nat
    | Break s' => Post (inl s')
    | Return r => Post (inr r)
    end.
Hypothesis exit_ok : forall s, Inv s -> cond s = false -> Post (inl s).

(** A loop whose body keeps the invariant and lowers the measure ends, with
    a value, in a state that satisfies the postcondition. *)
Lemma for_loop_total : forall fuel s,
  Inv s -> (measure s < fuel)%nat ->
  exists r, for_loop cond post body fuel s = Val r /\ Post r.
Proof.
  induction fuel as [|fuel IH]; intros s HI Hm; [lia|].
  simpl. destruct (cond s) eqn:Hc.
  - destruct (body_ok s HI Hc) as (c & Hb & Hcase).
    rewrite Hb; simpl. destruct c as [s'|s'|r].
    + destruct Hcase as [HI' Hm']. apply IH; [assumption|lia].
    + eauto.
    + eauto.
  - eauto.
Qed.
End ForLoop.

(** A loop that has returned a value returns the same value when it is
    allowed more iterations. *)
Lemma for_loop_more_fuel {St R : Type} (cond : St -> bool) (post : St -> St)
    (body : St -> outcome (ctl St R)) (fuel fuel' : nat) (s : St)
    (r : St + R) :
  (fuel <= fuel')%nat ->
  for_loop cond post body fuel s = Val r ->
  for_loop cond post body fuel' s = Val r.
Proof.
  revert fuel' s. induction fuel as [|fuel IH]; intros fuel' s Hle H;
    [discriminate H|].
  destruct fuel' as [|fuel']; [lia|]. simpl in *.
  destruct (cond s); [|exact H].
  destruct (body s) as [c| |]; simpl in *; try discriminate H.
  destruct c as [s'|s'|r']; try exact H.
  apply IH; [lia|exact H].
Qed.

Arguments for_loop : simpl never.

(** ** Unsigned integers, lengths and slices *)

Lemma uint_small (z : Z) : 0 <= z < 2 ^ 64 -> uint z = z.
Proof. intros H. unfold uint. apply Z.mod_small. exact H. Qed.

Lemma uint_range (z : Z) : 0 <= uint z < 2 ^ 64.
Proof. unfold uint. apply Z.mod_pos_bound. reflexivity. Qed.

Lemma len_nonneg {A : Type} (s : list A) : 0 <= len s.
Proof. unfold len. lia. Qed.

Lemma len_nil {A : Type} : len (@nil A) = 0.
Proof. reflexivity. Qed.

Lemma len_cons {A : Type} (a : A) (s : list A) : len (a :: s) = len s + 1.
Proof. unfold len. simpl length. lia. Qed.

Lemma len_app {A : Type} (s t : list A) : len (s ++ t) = len s + len t.
Proof. unfold len. rewrite length_app. lia. Qed.

Lemma len_zero_nil {A : Type} (s : list A) : len s = 0 -> s = [].
Proof. destruct s; [reflexivity|]. rewrite len_cons. pose proof (len_nonneg s). lia. Qed.

Lemma byte_eqb_eq (a b : ascii) : byte_eqb a b = true <-> a = b.
Proof. apply Ascii.eqb_eq. Qed.

Lemma byte_eqb_neq (a b : ascii) : byte_eqb a b = false <-> a <> b.
Proof. apply Ascii.eqb_neq. Qed.

Lemma bytes_eqb_eq (a b : bytes) : bytes_eqb a b = true <-> a = b.
Proof.
  revert b. induction a as [|x a IH]; intros [|y b]; simpl; split; intros H;
    try reflexivity; try discriminate.
  - apply andb_true_iff in H. destruct H as [H1 H2].
    apply byte_eqb_eq in H1. apply IH in H2. congruence.
  - injection H as -> ->. apply andb_true_iff. split.
    + apply byte_eqb_eq. reflexivity.
    + apply IH. reflexivity.
Qed.

Lemma bytes_eqb_neq (a b : bytes) : bytes_eqb a b = false <-> a <> b.
Proof.
  split; intros H.
  - intros E. apply bytes_eqb_eq in E. congruence.
  - destruct (bytes_eqb a b) eqn:E; [|reflexivity].
    apply bytes_eqb_eq in E. contradiction.
Qed.

Lemma byte_at_lt (s : bytes) (i : Z) (c : ascii) : byte_at s i c -> i < len s.
Proof.
  intros [H0 H]. assert (Hn : nth_error s (Z.to_nat i) <> None) by congruence.
  apply nth_error_Some in Hn. unfold len. lia.
Qed.

Lemma byte_at_fun (s : bytes) (i : Z) (c d : ascii) :
  byte_at s i c -> byte_at s i d -> c = d.
Proof. intros [_ H1] [_ H2]. congruence. Qed.

Lemma byte_at_exists (s : bytes) (i : Z) :
  0 <= i < len s -> exists c, byte_at s i c.
Proof.
  intros H. destruct (nth_error s (Z.to_nat i)) eqn:E.
  - exists a. split; [lia|exact E].
  - apply nth_error_None in E. unfold len in H. lia.
Qed.

Lemma index_at (s : bytes) (i : Z) (c : ascii) :
  byte_at s i c -> index s i = Val c.
Proof.
  intros H. pose proof (byte_at_lt _ _ _ H) as Hlt. destruct H as [H0 H].
  unfold index.
  replace (0 <=? i) with true by (symmetry; apply Z.leb_le; lia).
  replace (i <? len s) with true by (symmetry; apply Z.ltb_lt; lia).
  simpl. rewrite H. reflexivity.
Qed.

Lemma index_inv (s : bytes) (i : Z) (c : ascii) :
  index s i = Val c -> byte_at s i c.
Proof.
  unfold index. destruct (0 <=? i) eqn:H0; simpl; [|discriminate].
  destruct (i <? len s); [|discriminate].
  destruct (nth_error s (Z.to_nat i)) eqn:E; [|discriminate].
  intros H. injection H as ->. split; [apply Z.leb_le; exact H0|exact E].
Qed.

Lemma slice_sub (s : bytes) (lo hi : Z) :
  0 <= lo <= hi -> hi <= len s -> slice s lo hi = Val (sub s lo hi).
Proof.
  intros [H1 H2] H3. unfold slice.
  replace (0 <=? lo) with true by (symmetry; apply Z.leb_le; lia).
  replace (lo <=? hi) with true by (symmetry; apply Z.leb_le; lia).
  replace (hi <=? len s) with true by (symmetry; apply Z.leb_le; lia).
  reflexivity.
Qed.

Lemma sub_nil (s : bytes) (lo : Z) : sub s lo lo = [].
Proof. unfold sub. rewrite Z.sub_diag. reflexivity. Qed.

Lemma len_sub (s : bytes) (lo hi : Z) :
  0 <= lo <= hi -> hi <= len s -> len (sub s lo hi) = hi - lo.
Proof.
  intros H1 H2. unfold sub, len in *.
  rewrite length_firstn, length_skipn. lia.
Qed.

Lemma sub_all (s : bytes) : sub s 0 (len s) = s.
Proof.
  unfold sub, len. simpl. rewrite Z.sub_0_r, Nat2Z.id. apply firstn_all.
Qed.

Lemma firstn_snoc {A : Type} (l : list A) (n : nat) (x : A) :
  nth_error l n = Some x -> firstn (S n) l = firstn n l ++ [x].
Proof.
  revert n. induction l as [|a l IH]; intros [|n] H; simpl in *;
    try discriminate.
  - injection H as ->. reflexivity.
  - rewrite (IH _ H). reflexivity.
Qed.

Lemma sub_snoc (s : bytes) (lo hi : Z) (c : ascii) :
  0 <= lo <= hi -> byte_at s hi c -> sub s lo (hi + 1) = sub s lo hi ++ [c].
Proof.
  intros H [_ Hc]. unfold sub.
  replace (Z.to_nat (hi + 1 - lo)) with (S (Z.to_nat (hi - lo))) by lia.
  apply firstn_snoc. rewrite nth_error_skipn.
  replace (Z.to_nat lo + Z.to_nat (hi - lo))%nat with (Z.to_nat hi) by lia.
  exact Hc.
Qed.

Lemma firstn_plus {A : Type} (n m : nat) (l : list A) :
  firstn (n + m) l = firstn n l ++ firstn m (skipn n l).
Proof.
  revert l. induction n as [|n IH]; intros [|a l]; simpl;
    try reflexivity.
  - rewrite firstn_nil. reflexivity.
  - rewrite IH. reflexivity.
Qed.

Lemma sub_app (s : bytes) (a b c : Z) :
  0 <= a <= b -> b <= c -> sub s a c = sub s a b ++ sub s b c.
Proof.
  intros H1 H2. unfold sub.
  replace (Z.to_nat (c - a)) with (Z.to_nat (b - a) + Z.to_nat (c - b))%nat by lia.
  rewrite firstn_plus. f_equal. rewrite skipn_skipn.
  replace (Z.to_nat (b - a) + Z.to_nat a)%nat with (Z.to_nat b) by lia.
  reflexivity.
Qed.

Lemma sub_one (s : bytes) (i : Z) (c : ascii) :
  byte_at s i c -> sub s i (i + 1) = [c].
Proof.
  intros H. rewrite (sub_snoc s i i c); [|destruct H; lia|exact H].
  rewrite sub_nil. reflexivity.
Qed.

(** ** Facts about single bytes, by enumeration *)

Lemma all_bytes_complete (c : ascii) : In c all_bytes.
Proof.
  unfold all_bytes. rewrite <- (ascii_nat_embedding c).
  apply in_map. apply in_seq. pose proof (nat_ascii_bounded c). lia.
Qed.

Lemma forall_byte (P : ascii -> bool) :
  forallb P all_bytes = true -> forall c, P c = true.
Proof.
  intros H c. rewrite forallb_forall in H. apply H. apply all_bytes_complete.
Qed.

Lemma not_sign (c : ascii) :
  isDigit c || byte_eqb c "." || byte_eqb c "e" = true -> is_sign c = false.
Proof.
  assert (Hall : forall c,
             implb (isDigit c || byte_eqb c "." || byte_eqb c "e")
                   (negb (is_sign c)) = true).
  { apply forall_byte. vm_compute. reflexivity. }
  intros H. specialize (Hall c). rewrite H in Hall. simpl in Hall.
  apply negb_true_iff. exact Hall.
Qed.

Lemma lower_text_app (a b : bytes) :
  lower_text (a ++ b) = lower_text a ++ lower_text b.
Proof. apply flat_map_app. Qed.

Lemma ToLower_byte_len (c : ascii) : 1 <= len (ToLower_byte c).
Proof.
  unfold ToLower_byte. destruct (N_of_ascii c <? 128)%N; unfold len; simpl; lia.
Qed.

Lemma lower_text_len (l : bytes) : len l <= len (lower_text l).
Proof.
  induction l as [|c l IH]; simpl; [reflexivity|].
  rewrite len_cons, len_app. pose proof (ToLower_byte_len c). lia.
Qed.

Lemma sub_prefix_app (a b : bytes) : sub (a ++ b) 0 (len a) = a.
Proof.
  unfold sub, len. simpl. rewrite Z.sub_0_r, Nat2Z.id.
  rewrite firstn_app, firstn_all, Nat.sub_diag. simpl. apply app_nil_r.
Qed.

Lemma existsb_Zeqb (i : Z) (l : list Z) :
  existsb (Z.eqb i) l = true <-> In i l.
Proof.
  rewrite existsb_exists. split.
  - intros (x & Hx & E). apply Z.eqb_eq in E. subst. exact Hx.
  - intros H. exists i. split; [exact H|apply Z.eqb_refl].
Qed.

(** A list of [n] distinct indices below [n] holds every index below [n]. *)
Lemma all_skipped (skipList : list Z) (n : Z) :
  NoDup skipList -> (forall j, In j skipList -> 0 <= j < n) ->
  len skipList = n -> forall j, 0 <= j < n -> In j skipList.
Proof.
  intros Hnd Hvalid Hlen j Hj.
  set (l := map Z.of_nat (seq 0 (Z.to_nat n))).
  assert (Hincl : incl skipList l).
  { intros x Hx. specialize (Hvalid x Hx). unfold l.
    apply in_map_iff. exists (Z.to_nat x). split; [lia|].
    apply in_seq. lia. }
  assert (Hl : (length l <= length skipList)%nat).
  { unfold l. rewrite length_map, length_seq. unfold len in Hlen. lia. }
  apply (NoDup_length_incl Hnd Hl Hincl).
  unfold l. apply in_map_iff. exists (Z.to_nat j). split; [lia|].
  apply in_seq. lia.
Qed.

Lemma ToLower_byte_ascii7 (a : ascii) :
  ascii7 a = true -> ToLower_byte a = [lower_byte a].
Proof. unfold ToLower_byte, ascii7. intros ->. reflexivity. Qed.

Lemma ToLower_byte_high (a : ascii) :
  ascii7 a = false ->
  exists x rest, ToLower_byte a = x :: rest /\ ascii7 x = false.
Proof.
  intros H.
  assert (Hall : forall c,
             (ascii7 c
              || match ToLower_byte c with
                 | x :: _ => negb (ascii7 x)
                 | [] => false
                 end) = true).
  { apply forall_byte. vm_compute. reflexivity. }
  specialize (Hall a). rewrite H in Hall. simpl in Hall.
  destruct (ToLower_byte a) as [|x rest]; [discriminate|].
  exists x, rest. split; [reflexivity|]. apply negb_true_iff. exact Hall.
Qed.

Lemma lower_byte_ascii7 (a : ascii) : ascii7 (lower_byte a) = ascii7 a.
Proof.
  assert (Hall : forall c,
             Bool.eqb (ascii7 (lower_byte c)) (ascii7 c) = true).
  { apply forall_byte. vm_compute. reflexivity. }
  apply eqb_prop. apply Hall.
Qed.

(** On text whose lowering is ASCII, [longestMatch] lowers as [ToLower]
    does. *)
Lemma lower_text_ascii (l m : bytes) :
  Forall (fun c => ascii7 c = true) m ->
  lower_text l = m <-> ToLower l = m.
Proof.
  revert m. induction l as [|a l IH]; intros m Hm; simpl; [reflexivity|].
  destruct (ascii7 a) eqn:Ha.
  - rewrite (ToLower_byte_ascii7 a Ha). simpl.
    destruct m as [|b m]; [split; discriminate|].
    inversion Hm as [|? ? Hb Hm']; subst.
    split; intros E; injection E as E1 E2; f_equal; try assumption;
      apply (IH m Hm'); assumption.
  - destruct (ToLower_byte_high a Ha) as (x & rest & -> & Hx).
    split; intros E.
    + destruct m as [|b m]; [discriminate|]. simpl in E.
      injection E as -> _. inversion Hm; subst. congruence.
    + destruct m as [|b m]; [discriminate|]. injection E as <- _.
      inversion Hm as [|? ? Hb ?]; subst.
      rewrite lower_byte_ascii7 in Hb. congruence.
Qed.

Lemma len_ToLower (l : bytes) : len (ToLower l) = len l.
Proof. unfold len, ToLower. rewrite length_map. reflexivity. Qed.

Section Scanners.
Variable source : bytes.
Hypothesis source_len : len source < 2 ^ 63.

Section Numeric.
Variable ic : cursor.
Hypothesis ic_range : 0 <= pointer ic <= len source.

Let Inv (st : numeric_state) : Prop :=
  pointer ic <= pointer (n_cur st) <= len source
  /\ Line (loc (n_cur st)) = Line (loc ic)
  /\ Forall (fun c => numeric_byte c = true)
            (sub source (pointer ic) (pointer (n_cur st)))
  /\ signs_follow_e source ic (n_cur st).

Let Post (r : numeric_state + lexed) : Prop :=
  match r with
  | inl st => Inv st
  | inr res => res = no_match ic
  end.

Let measure (st : numeric_state) : nat :=
  Z.to_nat (len source - pointer (n_cur st)).

Ltac numeric_cases c :=
  unfold numeric_byte;
  destruct (isDigit c), (byte_eqb c "."), (byte_eqb c "e"),
    (byte_eqb c "-"), (byte_eqb c "+"); simpl in *;
  congruence || reflexivity.

Lemma numeric_body_ok (st : numeric_state) :
  Inv st ->
  (pointer (n_cur st) <? uint (len source)) = true ->
  exists c, lexNumeric_body source ic st = Val c /\
    match c with
    | Next s' =>
        Inv (numeric_post s')
        /\ (measure (numeric_post s') < measure st)%nat
    | Break s' => Post (inl s')
    | Return r => Post (inr r)
    end.
Proof.
  intros (Hq & Hline & Hall & Hsigns) Hc.
  pose proof (len_nonneg source) as Hlen.
  rewrite uint_small in Hc by lia. apply Z.ltb_lt in Hc.
  destruct (byte_at_exists source (pointer (n_cur st))) as [c Hat]; [lia|].
  unfold lexNumeric_body. rewrite (index_at _ _ _ Hat). simpl bind.
  assert (Hone : isDigit c || byte_eqb c "." || byte_eqb c "e" = true ->
             forall cur pf ef,
             pointer cur = pointer (n_cur st) ->
             Line (loc cur) = Line (loc ic) ->
             Inv (numeric_post {| n_cur := cur; periodFound := pf;
                                  expMarkerFound := ef |})
             /\ (measure (numeric_post {| n_cur := cur; periodFound := pf;
                                          expMarkerFound := ef |})
                 < measure st)%nat).
  { intros Hn cur pf ef Hp Hl.
    unfold Inv, measure, numeric_post, signs_follow_e. simpl.
    rewrite Hp, uint_small by lia.
    split; [|lia]. split; [lia|]. split; [exact Hl|]. split.
    - rewrite (sub_snoc _ _ _ c) by (assumption || lia).
      apply Forall_app. split; [assumption|]. repeat constructor.
      unfold numeric_byte. rewrite Hn. reflexivity.
    - intros i d Hi Hd Hs. unfold signs_follow_e in Hsigns.
      destruct (Z.eq_dec i (pointer (n_cur st))) as [->|Hne].
      + rewrite (byte_at_fun _ _ _ _ Hd Hat) in Hs.
        rewrite (not_sign c Hn) in Hs. discriminate.
      + apply (Hsigns i d); try assumption. lia. }
  destruct (pointer (n_cur st) =? pointer ic) eqn:Hfirst.
  { destruct (negb (isDigit c) && negb (byte_eqb c ".")) eqn:Hstart.
    - eexists; split; [reflexivity|]. reflexivity.
    - eexists; split; [reflexivity|]. apply Hone; [|reflexivity|exact Hline].
      numeric_cases c. }
  destruct (byte_eqb c ".") eqn:Hperiod.
  { destruct (periodFound st).
    - eexists; split; [reflexivity|]. reflexivity.
    - eexists; split; [reflexivity|]. apply Hone; [|reflexivity|exact Hline].
      numeric_cases c. }
  destruct (byte_eqb c "e") eqn:Hexp.
  { destruct (expMarkerFound st).
    { eexists; split; [reflexivity|]. reflexivity. }
    destruct (pointer (n_cur st) =? uint (len source - 1)) eqn:Hlast.
    { eexists; split; [reflexivity|]. reflexivity. }
    rewrite uint_small in Hlast by lia. apply Z.eqb_neq in Hlast.
    rewrite uint_small by lia.
    destruct (byte_at_exists source (pointer (n_cur st) + 1)) as [d Hd];
      [lia|].
    rewrite (index_at _ _ _ Hd). simpl bind.
    assert (He : isDigit c || byte_eqb c "." || byte_eqb c "e" = true).
    { numeric_cases c. }
    eexists; split; [reflexivity|].
    destruct (byte_eqb d "-" || byte_eqb d "+") eqn:Hsign.
    - unfold Inv, measure, numeric_post, signs_follow_e. simpl.
      pose proof (byte_at_lt _ _ _ Hd) as Hdlt.
      rewrite (uint_small (pointer (n_cur st) + 1)) by lia.
      rewrite !uint_small by lia.
      split; [|lia]. split; [lia|]. split; [exact Hline|]. split.
      + rewrite (sub_snoc _ _ _ d) by (assumption || lia).
        rewrite (sub_snoc _ _ _ c) by (assumption || lia).
        rewrite <- app_assoc. apply Forall_app. split; [assumption|].
        repeat constructor.
        * unfold numeric_byte. rewrite He. reflexivity.
        * numeric_cases d.
      + intros i x Hi Hx Hs.
        destruct (Z.eq_dec i (pointer (n_cur st) + 1)) as [->|Hne1].
        { split; [lia|]. apply byte_eqb_eq in Hexp. subst c.
          replace (pointer (n_cur st) + 1 - 1) with (pointer (n_cur st))
            by lia.
          exact Hat. }
        destruct (Z.eq_dec i (pointer (n_cur st))) as [->|Hne].
        { rewrite (byte_at_fun _ _ _ _ Hx Hat) in Hs.
          rewrite (not_sign c He) in Hs. discriminate. }
        apply (Hsigns i x); try assumption. lia.
    - apply Hone; [|reflexivity|exact Hline]. numeric_cases c. }
  destruct (negb (isDigit c)) eqn:Hdigit.
  - eexists; split; [reflexivity|]. simpl. unfold Inv. simpl.
    split; [lia|]. split; [exact Hline|]. split; assumption.
  - eexists; split; [reflexivity|]. apply Hone; [|reflexivity|exact Hline].
    numeric_cases c.
Qed.

(** [lexNumeric] returns: either no match and the cursor it was given, or
    a match as [numeric_match] describes it. *)
Lemma lexNumeric_spec :
  exists r, lexNumeric source ic = Val r /\
    (r = no_match ic \/ numeric_match source ic r).
Proof.
  pose proof (len_nonneg source) as Hlen.
  destruct (for_loop_total
              (fun st => pointer (n_cur st) <? uint (len source))
              numeric_post (lexNumeric_body source ic) Inv measure Post)
    with (fuel := S (length source))
         (s := {| n_cur := ic; periodFound := false;
                  expMarkerFound := false |})
    as (r & Hr & HP).
  - intros s HI Hc. apply numeric_body_ok; assumption.
  - intros s HI _. exact HI.
  - unfold Inv. simpl. rewrite sub_nil. repeat split; try lia. constructor.
  - unfold measure, len in *. simpl. lia.
  - unfold lexNumeric. rewrite Hr. simpl bind.
    destruct r as [st|res].
    + destruct HP as (Hq & Hl & Hall & Hsigns).
      destruct (pointer (n_cur st) =? pointer ic) eqn:E.
      * eexists; split; [reflexivity|]. left; reflexivity.
      * apply Z.eqb_neq in E. rewrite slice_sub by lia. simpl bind.
        eexists; split; [reflexivity|]. right. exists (n_cur st).
        split; [lia|]. split; [exact Hl|]. split; [exact Hall|].
        split; [exact Hsigns|reflexivity].
    + simpl in HP. subst res. eexists; split; [reflexivity|].
      left; reflexivity.
Qed.
End Numeric.

Section Delimited.
Variable ic : cursor.
Variable delimiter : ascii.
Hypothesis ic_range : 0 <= pointer ic <= len source.

Let Inv (st : delimited_state) : Prop :=
  byte_at source (pointer ic) delimiter
  /\ pointer ic + 1 <= pointer (d_cur st) <= len source
  /\ Line (loc (d_cur st)) = Line (loc ic)
  /\ d_value st = sub source (pointer ic + 1) (pointer (d_cur st)).

Let Post (r : delimited_state + lexed) : Prop :=
  match r with
  | inl _ => True
  | inr res => delimited_match source ic delimiter res
  end.

Let measure (st : delimited_state) : nat :=
  Z.to_nat (len source - pointer (d_cur st)).

Lemma delimited_body_ok (st : delimited_state) :
  Inv st ->
  (pointer (d_cur st) <? uint (len source)) = true ->
  exists c, lexCharacterDelimited_body source ic delimiter st = Val c /\
    match c with
    | Next s' =>
        Inv (delimited_post s')
        /\ (measure (delimited_post s') < measure st)%nat
    | Break s' => Post (inl s')
    | Return r => Post (inr r)
    end.
Proof.
  intros (Hopen & Hq & Hline & Hval) Hc.
  pose proof (len_nonneg source) as Hlen.
  rewrite uint_small in Hc by lia. apply Z.ltb_lt in Hc.
  destruct (byte_at_exists source (pointer (d_cur st))) as [c Hat]; [lia|].
  unfold lexCharacterDelimited_body. rewrite (index_at _ _ _ Hat).
  simpl bind.
  assert (Hone : Inv (delimited_post
                        {| d_cur := incr_Col (d_cur st);
                           d_value := d_value st ++ [c] |})
                 /\ (measure (delimited_post
                                {| d_cur := incr_Col (d_cur st);
                                   d_value := d_value st ++ [c] |})
                     < measure st)%nat).
  { unfold Inv, measure, delimited_post. simpl.
    rewrite uint_small by lia. repeat split; try (assumption || lia).
    - destruct Hopen; assumption.
    - rewrite (sub_snoc _ _ _ c) by (assumption || lia).
      rewrite Hval. reflexivity. }
  assert (Hclose : byte_eqb c delimiter = true ->
            delimited_match source ic delimiter
              (Some {| Value := d_value st; Kind := StringKind;
                       Loc := loc ic |}, d_cur st, true)).
  { intros E. apply byte_eqb_eq in E. subst c. exists (d_cur st).
    rewrite Hval. repeat split; try (assumption || lia);
      destruct Hopen, Hat; assumption. }
  destruct (byte_eqb c delimiter) eqn:Hdelim; [|eauto].
  rewrite !uint_small by lia. rewrite Z.geb_leb.
  destruct (len source <=? pointer (d_cur st) + 1) eqn:Hend.
  { simpl bind. eexists; split; [reflexivity|]. apply Hclose. reflexivity. }
  apply Z.leb_gt in Hend.
  destruct (byte_at_exists source (pointer (d_cur st) + 1)) as [d Hd];
    [lia|].
  rewrite (index_at _ _ _ Hd). simpl bind.
  destruct (byte_eqb d delimiter) eqn:Hnext; simpl negb; cbv iota.
  - eexists; split; [reflexivity|].
    apply byte_eqb_eq in Hdelim, Hnext. subst c d.
    unfold Inv, measure, delimited_post. simpl.
    rewrite (uint_small (pointer (d_cur st) + 1)) by lia.
    rewrite !uint_small by lia. repeat split; try (assumption || lia).
    + destruct Hopen; assumption.
    + rewrite (sub_snoc _ _ _ delimiter) by (assumption || lia).
      rewrite (sub_snoc _ _ _ delimiter) by (assumption || lia).
      rewrite Hval. reflexivity.
  - eexists; split; [reflexivity|]. apply Hclose. reflexivity.
Qed.

(** [lexCharacterDelimited] returns: either no match and the cursor it
    was given, or a match as [delimited_match] describes it. *)
Lemma lexCharacterDelimited_spec :
  exists r, lexCharacterDelimited source ic delimiter = Val r /\
    (r = no_match ic \/ delimited_match source ic delimiter r).
Proof.
  pose proof (len_nonneg source) as Hlen.
  unfold lexCharacterDelimited. rewrite slice_sub by lia. simpl bind.
  rewrite len_sub by lia.
  destruct (len source - pointer ic =? 0) eqn:Hempty.
  { eexists; split; [reflexivity|]. left; reflexivity. }
  apply Z.eqb_neq in Hempty.
  destruct (byte_at_exists source (pointer ic)) as [c Hat]; [lia|].
  rewrite (index_at _ _ _ Hat). simpl bind.
  destruct (byte_eqb c delimiter) eqn:Hdelim; simpl negb; cbv iota.
  2:{ eexists; split; [reflexivity|]. left; reflexivity. }
  apply byte_eqb_eq in Hdelim. subst c.
  destruct (for_loop_total
              (fun st => pointer (d_cur st) <? uint (len source))
              delimited_post
              (lexCharacterDelimited_body source ic delimiter)
              Inv measure Post)
    with (fuel := S (length source))
         (s := {| d_cur := incr_pointer (incr_Col ic); d_value := [] |})
    as (r & Hr & HP).
  - intros s HI Hc. apply delimited_body_ok; assumption.
  - intros s _ _. exact I.
  - unfold Inv. simpl. rewrite uint_small by lia. rewrite sub_nil.
    repeat split; try lia; destruct Hat; assumption.
  - unfold measure, len in *. simpl. rewrite uint_small by lia. lia.
  - rewrite Hr. simpl bind. destruct r as [st|res].
    + eexists; split; [reflexivity|]. left; reflexivity.
    + eexists; split; [reflexivity|]. right. exact HP.
Qed.
End Delimited.

Section Identifier.
Variable ic : cursor.
Hypothesis ic_range : 0 <= pointer ic < len source.

Let Inv (st : ident_state) : Prop :=
  pointer ic + 1 <= pointer (i_cur st) <= len source
  /\ Line (loc (i_cur st)) = Line (loc ic)
  /\ i_value st = sub source (pointer ic) (pointer (i_cur st))
  /\ Forall (fun c => ident_byte c = true) (i_value st).

Let Post (r : ident_state + Empty_set) : Prop :=
  match r with
  | inl st => Inv st
  | inr e => False
  end.

Let measure (st : ident_state) : nat :=
  Z.to_nat (len source - pointer (i_cur st)).

Lemma ident_body_ok (st : ident_state) :
  Inv st ->
  (pointer (i_cur st) <? uint (len source)) = true ->
  exists c, lexIdentifier_body source st = Val c /\
    match c with
    | Next s' =>
        Inv (ident_post s') /\ (measure (ident_post s') < measure st)%nat
    | Break s' => Post (inl s')
    | Return r => Post (inr r)
    end.
Proof.
  intros (Hq & Hline & Hval & Hall) Hc.
  pose proof (len_nonneg source) as Hlen.
  rewrite uint_small in Hc by lia. apply Z.ltb_lt in Hc.
  destruct (byte_at_exists source (pointer (i_cur st))) as [c Hat]; [lia|].
  unfold lexIdentifier_body. rewrite (index_at _ _ _ Hat). simpl bind.
  change (isAlphabetical c || (byte_leb "0" c && byte_leb c "9")
          || byte_eqb c "$" || byte_eqb c "_") with (ident_byte c).
  destruct (ident_byte c) eqn:Hid.
  - eexists; split; [reflexivity|].
    unfold Inv, measure, ident_post. simpl.
    rewrite uint_small by lia. repeat split; try (assumption || lia).
    + rewrite (sub_snoc _ _ _ c) by (assumption || lia).
      rewrite Hval. reflexivity.
    + apply Forall_app. split; [assumption|]. repeat constructor. exact Hid.
  - eexists; split; [reflexivity|]. simpl. unfold Inv.
    repeat split; assumption || lia.
Qed.

(** [lexIdentifier] returns: no match and the cursor it was given, or the
    match of the delimited scan for a double quote, or a bare
    identifier. *)
Lemma lexIdentifier_spec :
  exists r, lexIdentifier source ic = Val r /\
    (r = no_match ic \/ delimited_match source ic dquote r \/ bare_match source ic r).
Proof.
  pose proof (len_nonneg source) as Hlen.
  unfold lexIdentifier.
  destruct (lexCharacterDelimited_spec ic dquote) as (r & Hr & Hcase);
    [lia|].
  rewrite Hr. simpl bind.
  destruct Hcase as [-> | Hm].
  2:{ pose proof Hm as (cur & _ & _ & _ & _ & ->).
      eexists; split; [reflexivity|]. right; left. exact Hm. }
  unfold no_match.
  destruct (byte_at_exists source (pointer ic)) as [c Hat]; [lia|].
  rewrite (index_at _ _ _ Hat). simpl bind.
  destruct (isAlphabetical c) eqn:Halpha; simpl negb; cbv iota.
  2:{ eexists; split; [reflexivity|]. left; reflexivity. }
  destruct (for_loop_total
              (fun st => pointer (i_cur st) <? uint (len source))
              ident_post (lexIdentifier_body source) Inv measure Post)
    with (fuel := S (length source))
         (s := {| i_cur := incr_Col (incr_pointer ic); i_value := [c] |})
    as (r' & Hr' & HP).
  - intros s HI Hc. apply ident_body_ok; assumption.
  - intros s HI _. exact HI.
  - unfold Inv. simpl. rewrite uint_small by lia.
    rewrite (sub_one _ _ c) by assumption.
    repeat split; try lia. repeat constructor.
    unfold ident_byte. rewrite Halpha. reflexivity.
  - unfold measure, len in *. simpl. rewrite uint_small by lia. lia.
  - rewrite Hr'. simpl bind. destruct r' as [st|[]].
    destruct HP as (Hq & Hline & Hval & Hall).
    assert (Hl : len (i_value st) = pointer (i_cur st) - pointer ic).
    { rewrite Hval. apply len_sub; lia. }
    destruct (len (i_value st) =? 0) eqn:E.
    { apply Z.eqb_eq in E. lia. }
    eexists; split; [reflexivity|]. right; right. exists (i_cur st).
    rewrite <- Hval. repeat split; assumption || lia.
Qed.
End Identifier.

Section LongestMatch.
Variable ic : cursor.
Variable options : list bytes.
Hypothesis ic_range : 0 <= pointer ic <= len source.
Hypothesis options_nonempty : Forall (fun o => o <> []) options.

Lemma lowered_0 : lowered source ic 0 = [].
Proof. unfold lowered. rewrite Z.add_0_r, sub_nil. reflexivity. Qed.

Lemma lowered_split (k k' : Z) :
  0 <= k <= k' ->
  lowered source ic k' = lowered source ic k
               ++ lower_text (sub source (pointer ic + k) (pointer ic + k')).
Proof.
  intros H. unfold lowered.
  rewrite (sub_app source (pointer ic) (pointer ic + k) (pointer ic + k'))
    by lia.
  apply lower_text_app.
Qed.

Lemma lowered_succ (k : Z) (c : ascii) :
  0 <= k -> byte_at source (pointer ic + k) c ->
  lowered source ic (k + 1) = lowered source ic k ++ ToLower_byte c.
Proof.
  intros H Hat. rewrite (lowered_split k (k + 1)) by lia.
  replace (pointer ic + (k + 1)) with (pointer ic + k + 1) by lia.
  rewrite (sub_one _ _ c) by assumption.
  simpl. rewrite app_nil_r. reflexivity.
Qed.

Lemma lowered_len (k : Z) :
  0 <= k -> pointer ic + k <= len source -> k <= len (lowered source ic k).
Proof.
  intros H1 H2. unfold lowered.
  pose proof (lower_text_len (sub source (pointer ic) (pointer ic + k))) as H.
  rewrite len_sub in H by lia. lia.
Qed.

Lemma lowered_tight (k k' : Z) :
  0 <= k <= k' -> pointer ic + k' <= len source ->
  len (lowered source ic k') = k' -> len (lowered source ic k) = k.
Proof.
  intros H1 H2 H3. rewrite (lowered_split k k') in H3 by lia.
  rewrite len_app in H3.
  pose proof (lowered_len k ltac:(lia) ltac:(lia)) as Hk.
  pose proof (lower_text_len
                (sub source (pointer ic + k) (pointer ic + k'))) as H.
  rewrite len_sub in H by lia. lia.
Qed.

Lemma lowered_prefix (k k' : Z) :
  0 <= k <= k' -> pointer ic + k' <= len source ->
  len (lowered source ic k') = k' -> lowered source ic k = sub (lowered source ic k') 0 k.
Proof.
  intros H1 H2 H3. pose proof (lowered_tight k k' H1 H2 H3) as Hk.
  rewrite (lowered_split k k') by lia.
  set (rest := lower_text (sub source (pointer ic + k) (pointer ic + k'))).
  rewrite <- (sub_prefix_app (lowered source ic k) rest) at 1.
  rewrite Hk. reflexivity.
Qed.

Lemma option_at_lt (j : Z) (o : bytes) : option_at options j o -> j < len options.
Proof.
  intros [H0 H].
  assert (Hn : nth_error options (Z.to_nat j) <> None) by congruence.
  apply nth_error_Some in Hn. unfold len. lia.
Qed.

Lemma option_at_In (j : Z) (o : bytes) : option_at options j o -> In o options.
Proof. intros [_ H]. eapply nth_error_In. exact H. Qed.

Lemma In_option_at (o : bytes) : In o options -> exists j, option_at options j o.
Proof.
  intros H. apply In_nth_error in H. destruct H as [n Hn].
  exists (Z.of_nat n). split; [lia|]. rewrite Nat2Z.id. exact Hn.
Qed.

Lemma range_options_ok (k : Z) :
  1 <= k -> pointer ic + k <= len source ->
  forall rest i skipList mtch,
    0 <= i ->
    (forall n o, nth_error rest n = Some o -> option_at options (i + Z.of_nat n) o) ->
    len options = i + len rest ->
    scan_inv source ic options k i skipList mtch ->
    exists skipList' mtch',
      range_options (lowered source ic k) k i rest skipList mtch
      = Val (skipList', mtch')
      /\ scan_inv source ic options k (len options) skipList' mtch'.
Proof.
  intros Hk1 Hk2.
  induction rest as [|o rest IH]; intros i sl m Hi Hrest Hlen Hinv.
  { simpl. rewrite len_nil in Hlen. replace (len options) with i by lia.
    eauto. }
  assert (Hoi : option_at options i o).
  { specialize (Hrest 0%nat o eq_refl). rewrite Z.add_0_r in Hrest.
    exact Hrest. }
  assert (Hrest' : forall n o', nth_error rest n = Some o' ->
                               option_at options (i + 1 + Z.of_nat n) o').
  { intros n o' Hn. specialize (Hrest (S n) o' Hn).
    replace (i + 1 + Z.of_nat n) with (i + Z.of_nat (S n)) by lia.
    exact Hrest. }
  rewrite len_cons in Hlen.
  destruct Hinv as (Hvalid & Hnodup & Hlive & Hdead & Hm).
  simpl range_options.
  destruct (existsb (Z.eqb i) sl) eqn:Hskip.
  { apply existsb_Zeqb in Hskip.
    apply IH; try (assumption || lia).
    split; [|split; [|split; [|split]]]; try assumption.
    intros j o' Hj Hn. split; intros Hji.
    - apply (Hlive j o'); try assumption.
      assert (j <> i) by congruence. lia.
    - apply (Hlive j o'); try assumption. lia. }
  assert (Hnot : ~ In i sl).
  { intros Hin. apply existsb_Zeqb in Hin. congruence. }
  destruct (Hlive i o Hoi Hnot) as [_ Hprev].
  specialize (Hprev ltac:(lia)). destruct Hprev as [Hlen_o Hprev].
  pose proof (option_at_lt _ _ Hoi) as Hilt.
  assert (Hvalid' : forall j, In j (sl ++ [i]) -> 0 <= j < len options).
  { intros j Hj. apply in_app_or in Hj. destruct Hj as [Hj|[<-|[]]].
    - apply Hvalid; assumption.
    - lia. }
  assert (Hnodup' : NoDup (sl ++ [i])).
  { apply NoDup_app; [assumption|repeat constructor; intros []|].
    intros a Ha [<-|[]]. contradiction. }
  assert (Hlive' : forall j o', option_at options j o' -> ~ In j (sl ++ [i]) ->
           (j < i + 1 -> k < len o' /\ lowered source ic k = sub o' 0 k)
           /\ (i + 1 <= j ->
               k - 1 < len o' /\ lowered source ic (k - 1) = sub o' 0 (k - 1))).
  { intros j o' Hj Hn.
    assert (Hn1 : ~ In j sl) by (intros H; apply Hn, in_or_app; auto).
    assert (Hn2 : j <> i).
    { intros ->. apply Hn, in_or_app. right. left. reflexivity. }
    split; intros Hji; apply (Hlive j o'); try assumption; lia. }
  assert (Hsame : forall j o', option_at options j o' -> j = i -> o' = o).
  { intros j o' [_ Hj] ->. destruct Hoi as [_ Hoi]. congruence. }
  destruct (bytes_eqb o (lowered source ic k)) eqn:Heq.
  { apply bytes_eqb_eq in Heq.
    apply IH; try (assumption || lia).
    split; [|split; [|split; [|split]]]; try assumption.
    - intros j o' Hj Hin Hmatch.
      apply in_app_or in Hin. destruct Hin as [Hin|[<-|[]]].
      + specialize (Hdead j o' Hj Hin Hmatch).
        destruct (len o >? len m) eqn:E; [|lia].
        apply Z.gtb_lt in E. lia.
      + rewrite (Hsame _ _ Hj eq_refl).
        destruct (len o >? len m) eqn:E; [lia|].
        rewrite Z.gtb_ltb in E. apply Z.ltb_ge in E. exact E.
    - destruct (len o >? len m).
      + right. split; [eapply option_at_In; exact Hoi|].
        exists k. split; [lia|exact Heq].
      + destruct Hm as [Hm|(Hin & k' & Hk' & Hm)]; [left; exact Hm|].
        right. split; [exact Hin|]. exists k'. split; [lia|exact Hm]. }
  apply bytes_eqb_neq in Heq.
  rewrite slice_sub by lia. simpl bind.
  destruct ((len (lowered source ic k) >? len o)
            || negb (bytes_eqb (lowered source ic k) (sub o 0 k))) eqn:Hdrop.
  - apply IH; try (assumption || lia).
    split; [|split; [|split; [|split]]]; try assumption.
    intros j o' Hj Hin Hmatch.
    apply in_app_or in Hin. destruct Hin as [Hin|[<-|[]]].
    { apply (Hdead j o'); assumption. }
    exfalso. rewrite (Hsame _ _ Hj eq_refl) in Hmatch.
    destruct Hmatch as [Hfit Hmatch].
    assert (Hne : len o <> k) by (intros E; rewrite E in Hmatch; congruence).
    assert (Htight : len (lowered source ic (len o)) = len o)
      by (rewrite Hmatch; reflexivity).
    pose proof (lowered_tight k (len o) ltac:(lia) Hfit Htight) as Hlk.
    pose proof (lowered_prefix k (len o) ltac:(lia) Hfit Htight) as Hpre.
    rewrite Hmatch in Hpre.
    apply orb_true_iff in Hdrop. destruct Hdrop as [Hlong|Hshare].
    + apply Z.gtb_lt in Hlong. lia.
    + apply negb_true_iff, bytes_eqb_neq in Hshare. contradiction.
  - apply orb_false_iff in Hdrop. destruct Hdrop as [Hlong Hshare].
    apply negb_false_iff, bytes_eqb_eq in Hshare.
    apply IH; try (assumption || lia).
    split; [|split; [|split; [|split]]]; try assumption.
    intros j o' Hj Hn. split; intros Hji.
    + destruct (Z.eq_dec j i) as [E|Hne].
      * rewrite (Hsame _ _ Hj E). split; [|exact Hshare].
        assert (len o <> k); [|lia].
        intros E'. rewrite <- E', sub_all in Hshare. congruence.
      * apply (Hlive j o'); try assumption. lia.
    + apply (Hlive j o'); try assumption. lia.
Qed.

Let Inv (st : match_state) : Prop :=
  let k := pointer (m_cur st) - pointer ic in
  0 <= k /\ pointer ic + k <= len source
  /\ m_value st = lowered source ic k
  /\ scan_inv source ic options k (len options) (m_skipList st) (m_match st).

Let Post (r : match_state + Empty_set) : Prop :=
  match r with
  | inl st =>
      Inv st /\ (pointer (m_cur st) = len source
                 \/ len (m_skipList st) = len options)
  | inr e => False
  end.

Let measure (st : match_state) : nat :=
  Z.to_nat (len source - pointer (m_cur st)).

Lemma longestMatch_body_ok (st : match_state) :
  Inv st ->
  (pointer (m_cur st) <? uint (len source)) = true ->
  exists c, longestMatch_body source ic options st = Val c /\
    match c with
    | Next s' => Inv s' /\ (measure s' < measure st)%nat
    | Break s' => Post (inl s')
    | Return r => Post (inr r)
    end.
Proof.
  unfold Inv. cbv zeta.
  set (k := pointer (m_cur st) - pointer ic).
  intros (Hk0 & Hk & Hval & Hscan) Hc.
  pose proof (len_nonneg source) as Hlen.
  rewrite uint_small in Hc by lia. apply Z.ltb_lt in Hc.
  destruct (byte_at_exists source (pointer (m_cur st))) as [c Hat]; [lia|].
  unfold longestMatch_body. rewrite (index_at _ _ _ Hat). simpl bind.
  simpl pointer.
  rewrite (uint_small (pointer (m_cur st) + 1)) by lia.
  replace (pointer (m_cur st) + 1 - pointer ic) with (k + 1) by (unfold k; lia).
  rewrite uint_small by lia.
  assert (Hval' : m_value st ++ ToLower_byte c = lowered source ic (k + 1)).
  { rewrite Hval. symmetry. apply lowered_succ; [lia|].
    replace (pointer ic + k) with (pointer (m_cur st)) by (unfold k; lia).
    exact Hat. }
  rewrite Hval'.
  destruct (range_options_ok (k + 1) ltac:(lia) ltac:(lia)
              options 0 (m_skipList st) (m_match st))
    as (sl' & m' & Hr & Hscan'); try lia.
  { intros n o Hn. split; [lia|]. simpl. rewrite Nat2Z.id. exact Hn. }
  { destruct Hscan as (Hvalid & Hnodup & Hlive & Hdead & Hm).
    split; [|split; [|split; [|split]]]; try assumption.
    - intros j o Hj Hn. split; intros Hji.
      + destruct Hj; lia.
      + replace (k + 1 - 1) with k by lia.
        apply (Hlive j o Hj Hn). apply option_at_lt in Hj. exact Hj.
    - destruct Hm as [Hm|(Hin & k' & Hk' & Hm)]; [left; exact Hm|].
      right. split; [exact Hin|]. exists k'. split; [lia|exact Hm]. }
  rewrite Hr. simpl bind. cbv zeta. simpl fst. simpl snd.
  assert (Hnew : forall cur', pointer cur' = pointer (m_cur st) + 1 ->
            0 <= pointer cur' - pointer ic
            /\ pointer ic + (pointer cur' - pointer ic) <= len source
            /\ lowered source ic (k + 1) = lowered source ic (pointer cur' - pointer ic)
            /\ scan_inv source ic options (pointer cur' - pointer ic) (len options) sl' m').
  { intros cur' ->.
    replace (pointer (m_cur st) + 1 - pointer ic) with (k + 1)
      by (unfold k; lia).
    split; [lia|split; [lia|split; [reflexivity|exact Hscan']]]. }
  simpl m_skipList.
  destruct (len sl' =? len options) eqn:Hall.
  - apply Z.eqb_eq in Hall. eexists; split; [reflexivity|].
    simpl. split; [|right; exact Hall].
    apply Hnew. simpl. apply uint_small. lia.
  - eexists; split; [reflexivity|]. split.
    + apply Hnew. simpl. apply uint_small. lia.
    + unfold measure. simpl. rewrite uint_small by lia. lia.
Qed.

Lemma scan_start_inv :
  Inv {| m_value := []; m_skipList := []; m_match := []; m_cur := ic |}.
Proof.
  pose proof (len_nonneg source) as Hlen.
  unfold Inv. simpl. rewrite Z.sub_diag, lowered_0.
  split; [lia|split; [lia|split; [reflexivity|]]].
  split; [|split; [|split; [|split]]].
  - intros j [].
  - constructor.
  - intros j o Hj _. split; intros Hji.
    + apply option_at_In in Hj.
      pose proof (proj1 (Forall_forall _ _) options_nonempty _ Hj) as Hne.
      rewrite sub_nil, lowered_0. split; [|reflexivity].
      destruct o; [congruence|]. rewrite len_cons.
      pose proof (len_nonneg o). lia.
    + apply option_at_lt in Hj. lia.
  - intros j o _ [].
  - left; reflexivity.
Qed.

(** In every state of the scan loop, an option that is not in the skip
    list is longer than the text read so far. *)
Lemma scan_reaches_live (st : match_state) :
  scan_reaches source ic options st ->
  forall j o, option_at options j o -> ~ In j (m_skipList st) ->
              pointer (m_cur st) - pointer ic < len o.
Proof.
  intros Hreach.
  assert (HI : Inv st).
  { induction Hreach as [|st st' _ IH Hc Hb]; [apply scan_start_inv|].
    destruct (longestMatch_body_ok st IH Hc) as (c & Hb' & Hcase).
    rewrite Hb in Hb'. injection Hb' as <-. apply Hcase. }
  intros j o Hj Hn.
  destruct HI as (_ & _ & _ & _ & _ & Hlive & _).
  apply (Hlive j o Hj Hn). apply (option_at_lt _ _ Hj).
Qed.

(** In every state of the scan loop, the next iteration does not panic:
    the slice of each option by the number of bytes read is in
    bounds. *)
Lemma scan_reaches_no_panic (st : match_state) :
  scan_reaches source ic options st ->
  (pointer (m_cur st) <? uint (len source)) = true ->
  longestMatch_body source ic options st <> Panic.
Proof.
  intros Hreach Hc.
  assert (HI : Inv st).
  { clear Hc. induction Hreach as [|st st' _ IH Hc Hb];
      [apply scan_start_inv|].
    destruct (longestMatch_body_ok st IH Hc) as (c & Hb' & Hcase).
    rewrite Hb in Hb'. injection Hb' as <-. apply Hcase. }
  destruct (longestMatch_body_ok st HI Hc) as (c & Hb & _).
  rewrite Hb. discriminate.
Qed.

(** [longestMatch] returns a value: the empty string or an option that
    is the lowered source ic text of some bytes at the cursor; and no option that
    is the text at the cursor is longer than what it returns. *)
Lemma longestMatch_spec :
  exists m, longestMatch source ic options = Val m
    /\ (m = [] \/
        (In m options
         /\ exists k, 1 <= k /\ pointer ic + k <= len source
                      /\ m = lowered source ic k))
    /\ (forall o, In o options -> matches_here source ic o -> len o <= len m).
Proof.
  pose proof (len_nonneg source) as Hlen.
  destruct (for_loop_total
              (fun st => pointer (m_cur st) <? uint (len source))
              (fun st => st) (longestMatch_body source ic options)
              Inv measure Post)
    with (fuel := S (length source))
         (s := {| m_value := []; m_skipList := []; m_match := [];
                  m_cur := ic |})
    as (r & Hr & HP).
  - intros s HI Hc. apply longestMatch_body_ok; assumption.
  - intros s HI Hc. split; [exact HI|]. left.
    rewrite uint_small in Hc by lia. apply Z.ltb_ge in Hc.
    destruct HI as (H1 & H2 & _). lia.
  - apply scan_start_inv.
  - unfold measure, len in *. simpl. lia.
  - unfold longestMatch. rewrite Hr. simpl bind.
    destruct r as [st|[]].
    destruct HP as [(Hk0 & Hk & Hval & Hscan) Hexit].
    destruct Hscan as (Hvalid & Hnodup & Hlive & Hdead & Hm).
    exists (m_match st). split; [reflexivity|]. split.
    + destruct Hm as [Hm|(Hin & k' & Hk' & Hm)]; [left; exact Hm|].
      right. split; [exact Hin|]. exists k'. repeat split; try lia.
      exact Hm.
    + intros o Hin Hmatch. destruct (In_option_at o Hin) as [j Hj].
      destruct (in_dec Z.eq_dec j (m_skipList st)) as [Hskip|Hlive'].
      { apply (Hdead j o); assumption. }
      exfalso.
      destruct (Hlive j o Hj Hlive') as [His _].
      specialize (His (option_at_lt _ _ Hj)). destruct His as [Hlt _].
      destruct Hexit as [Hend|Hall].
      * destruct Hmatch as [Hfit _]. lia.
      * apply Hlive'. apply (all_skipped _ (len options)); try assumption.
        split; [destruct Hj; assumption|apply (option_at_lt _ _ Hj)].
Qed.
End LongestMatch.

Section Literals.
Variable ic : cursor.
Variable options : list bytes.
Hypothesis ic_range : 0 <= pointer ic <= len source.
Hypothesis options_nonempty : Forall (fun o => o <> []) options.
Hypothesis options_ascii :
  Forall (Forall (fun c => ascii7 c = true)) options.

Lemma matches_here_text_at (o : bytes) :
  In o options -> matches_here source ic o <-> text_at source ic o.
Proof.
  intros Hin. unfold matches_here, text_at, lowered.
  rewrite lower_text_ascii; [reflexivity|].
  rewrite Forall_forall in options_ascii. apply options_ascii. exact Hin.
Qed.

Lemma longestMatch_matched (kind : TokenKind) (cur : cursor) :
  Line (loc cur) = Line (loc ic) ->
  exists r,
    (mtch <- longestMatch source ic options ;;
     Val (matched kind ic cur mtch)) = Val r
    /\ (literal_miss source ic options r \/ literal_match source ic options kind r).
Proof.
  intros Hline. pose proof (len_nonneg source) as Hlen.
  destruct (longestMatch_spec ic options ic_range options_nonempty)
    as (m & Hm & Hsound & Hlongest).
  rewrite Hm. simpl bind. unfold matched.
  destruct (bytes_eqb m []) eqn:Hempty.
  - apply bytes_eqb_eq in Hempty. subst m.
    eexists; split; [reflexivity|]. left. split; [reflexivity|].
    intros o Hin Ht. apply matches_here_text_at in Ht; [|exact Hin].
    specialize (Hlongest o Hin Ht). rewrite len_nil in Hlongest.
    pose proof (proj1 (Forall_forall _ _) options_nonempty _ Hin) as Hne.
    destruct o; [congruence|]. rewrite len_cons in Hlongest.
    pose proof (len_nonneg o). lia.
  - apply bytes_eqb_neq in Hempty.
    destruct Hsound as [->|(Hin & k & Hk1 & Hk2 & Hk)]; [congruence|].
    pose proof (proj1 (Forall_forall _ _) options_ascii _ Hin) as Hascii.
    assert (Ht : ToLower (sub source (pointer ic) (pointer ic + k)) = m).
    { apply lower_text_ascii; [exact Hascii|]. symmetry. exact Hk. }
    assert (Hkm : len m = k).
    { rewrite <- Ht, len_ToLower, len_sub by lia. lia. }
    eexists; split; [reflexivity|]. right. exists m.
    split; [exact Hin|]. split; [lia|]. split.
    { split; [lia|]. rewrite Hkm. exact Ht. }
    split.
    { intros o Ho Hto. apply Hlongest; [exact Ho|].
      apply matches_here_text_at; assumption. }
    unfold set_Col, set_pointer. simpl.
    rewrite (uint_small (len m)) by lia.
    rewrite (uint_small (pointer ic + len m)) by lia.
    rewrite Hline. reflexivity.
Qed.
End Literals.

Lemma keywords_nonempty : Forall (fun o : bytes => o <> []) keywords.
Proof. repeat constructor; discriminate. Qed.

Lemma keywords_ascii : Forall (Forall (fun c => ascii7 c = true)) keywords.
Proof. repeat constructor. Qed.

Lemma symbols_nonempty : Forall (fun o : bytes => o <> []) symbols.
Proof. repeat constructor; discriminate. Qed.

Lemma symbols_ascii : Forall (Forall (fun c => ascii7 c = true)) symbols.
Proof. repeat constructor. Qed.

Section KeywordSymbol.
Variable ic : cursor.
Hypothesis ic_range : 0 <= pointer ic < len source.

(** [lexKeyword] returns: no match, when no keyword is the text at the
    cursor, or else the longest keyword that is. *)
Lemma lexKeyword_spec :
  exists r, lexKeyword source ic = Val r /\
    (literal_miss source ic keywords r \/ literal_match source ic keywords KeywordKind r).
Proof.
  unfold lexKeyword.
  apply longestMatch_matched;
    auto using keywords_nonempty, keywords_ascii; lia.
Qed.

(** [lexSymbol] returns: a match without a token on white space, or
    else no match, when no symbol is the text at the cursor, or else
    the longest symbol that is. *)
Lemma lexSymbol_spec :
  exists r, lexSymbol source ic = Val r /\
    (space_match source ic r \/ literal_miss source ic symbols r
     \/ literal_match source ic symbols SymbolKind r).
Proof.
  pose proof (len_nonneg source) as Hlen.
  destruct (byte_at_exists source (pointer ic)) as [c Hat]; [lia|].
  unfold lexSymbol. rewrite (index_at _ _ _ Hat). simpl bind.
  assert (Hsp : forall r,
             is_space c = true ->
             r = (None,
                  {| pointer := pointer ic + 1;
                     loc := if is_newline c
                            then {| Line := uint (Line (loc ic) + 1);
                                    Col := 0 |}
                            else {| Line := Line (loc ic);
                                    Col := uint (Col (loc ic) + 1) |} |},
                  true) ->
             exists r', Val r = Val r' /\
               (space_match source ic r' \/ literal_miss source ic symbols r'
                \/ literal_match source ic symbols SymbolKind r')).
  { intros r Hs ->. eexists; split; [reflexivity|]. left.
    exists c. repeat split; try assumption; destruct Hat; assumption. }
  unfold is_space, is_newline in Hsp.
  destruct (byte_eqb c "010") eqn:Hnl.
  { apply Hsp; [reflexivity|].
    unfold set_Col, incr_Line, set_Line, incr_Col, incr_pointer,
      set_pointer. simpl. rewrite uint_small by lia. reflexivity. }
  destruct (byte_eqb c "009") eqn:Htab.
  { apply Hsp; [reflexivity|].
    unfold incr_Col, set_Col, incr_pointer, set_pointer. simpl.
    rewrite uint_small by lia. reflexivity. }
  destruct (byte_eqb c " ") eqn:Hspace.
  { apply Hsp; [reflexivity|].
    unfold incr_Col, set_Col, incr_pointer, set_pointer. simpl.
    rewrite uint_small by lia. reflexivity. }
  destruct (longestMatch_matched ic symbols ltac:(lia) symbols_nonempty
              symbols_ascii SymbolKind (incr_Col (incr_pointer ic))
              eq_refl) as (r & Hr & Hcase).
  exists r. split; [exact Hr|]. right. exact Hcase.
Qed.
End KeywordSymbol.

Section Driver.
Variable cur : cursor.
Hypothesis cur_range : 0 <= pointer cur < len source.

Lemma scanner_match_ok (r : lexed) :
  scanner_match source cur r -> exists token newCursor, r = (token, newCursor, true).
Proof.
  intros [H|[H|[H|[H|[H|[H|H]]]]]].
  - destruct H as (m & _ & _ & _ & _ & ->). eauto.
  - destruct H as (c & _ & _ & ->). eauto.
  - destruct H as (m & _ & _ & _ & _ & ->). eauto.
  - destruct H as (c & _ & _ & _ & _ & ->). eauto.
  - destruct H as (c & _ & _ & _ & _ & ->). eauto.
  - destruct H as (c & _ & _ & _ & _ & ->). eauto.
  - destruct H as (c & _ & _ & _ & ->). eauto.
Qed.

(** The scanners at a cursor inside the source: the driver gets the
    first match, in the order keyword, symbol, string, numeric,
    identifier, or every scanner reports no match. *)
Lemma range_lexers_spec :
  exists r, range_lexers lexers source cur = Val r /\
    match r with
    | Some (token, newCursor) => scanner_match source cur (token, newCursor, true)
    | None => forall l, In l lexers -> l source cur = Val (no_match cur)
    end.
Proof.
  assert (Hle : 0 <= pointer cur <= len source) by lia.
  unfold lexers. simpl range_lexers.
  destruct (lexKeyword_spec cur cur_range) as (rk & Hk & Hkc).
  rewrite Hk. simpl bind. destruct Hkc as [[-> _]|Hkm].
  2:{ destruct (scanner_match_ok rk) as (t & c & ->);
        [unfold scanner_match; tauto|].
      eexists; split; [reflexivity|]. unfold scanner_match; tauto. }
  unfold no_match at 1.
  destruct (lexSymbol_spec cur cur_range) as (rs & Hs & Hsc).
  rewrite Hs. simpl bind. destruct Hsc as [Hsm|[[-> _]|Hsm]].
  1,3: destruct (scanner_match_ok rs) as (t & c & ->);
      [unfold scanner_match; tauto|];
      eexists; (split; [reflexivity|]); unfold scanner_match; tauto.
  unfold no_match at 1.
  destruct (lexCharacterDelimited_spec cur squote Hle) as (rq & Hq & Hqc).
  unfold lexString at 1. rewrite Hq. simpl bind.
  destruct Hqc as [->|Hqm].
  2:{ destruct (scanner_match_ok rq) as (t & c & ->);
        [unfold scanner_match; tauto|].
      eexists; split; [reflexivity|]. unfold scanner_match; tauto. }
  unfold no_match at 1.
  destruct (lexNumeric_spec cur Hle) as (rn & Hn & Hnc).
  rewrite Hn. simpl bind. destruct Hnc as [->|Hnm].
  2:{ destruct (scanner_match_ok rn) as (t & c & ->);
        [unfold scanner_match; tauto|].
      eexists; split; [reflexivity|]. unfold scanner_match; tauto. }
  unfold no_match at 1.
  destruct (lexIdentifier_spec cur cur_range) as (ri & Hi & Hic).
  rewrite Hi. simpl bind. destruct Hic as [->|Him].
  2:{ destruct (scanner_match_ok ri) as (t & c & ->);
        [unfold scanner_match; tauto|].
      eexists; split; [reflexivity|]. unfold scanner_match; tauto. }
  unfold no_match at 1.
  eexists; split; [reflexivity|].
  intros l [<-|[<-|[<-|[<-|[<-|[]]]]]]; assumption.
Qed.

(** Every match moves the cursor forward and keeps it inside the
    source. *)
Lemma scanner_match_advances (token : option Token) (newCursor : cursor) :
  scanner_match source cur (token, newCursor, true) ->
  pointer cur < pointer newCursor <= len source.
Proof.
  intros [H|[H|[H|[H|[H|[H|H]]]]]].
  - destruct H as (m & _ & Hm & [Hfit _] & _ & E). injection E as _ ->.
    simpl. lia.
  - destruct H as (c & Hc & _ & E). injection E as _ ->. simpl.
    apply byte_at_lt in Hc. lia.
  - destruct H as (m & _ & Hm & [Hfit _] & _ & E). injection E as _ ->.
    simpl. lia.
  - destruct H as (c & Hc & _ & _ & _ & E). injection E as _ ->. lia.
  - destruct H as (c & Hc & _ & _ & _ & E). injection E as _ ->. lia.
  - destruct H as (c & Hc & _ & _ & _ & E). injection E as _ ->. lia.
  - destruct H as (c & Hc & _ & _ & E). injection E as _ ->. lia.
Qed.
End Driver.

(** The rule of the driver loop: a property of the driver state that holds
    at the start and is kept by every match holds when [lex] returns, and
    [lex] does return. *)
Section LexRule.
Variable I : lex_state -> Prop.
Hypothesis I_start : I {| l_tokens := []; l_cur := cursor0 |}.
Hypothesis I_step : forall st token newCursor,
  I st -> 0 <= pointer (l_cur st) < len source ->
  range_lexers lexers source (l_cur st) = Val (Some (token, newCursor)) ->
  scanner_match source (l_cur st) (token, newCursor, true) ->
  I {| l_tokens := push_token token (l_tokens st); l_cur := newCursor |}.

Let Inv (st : lex_state) : Prop :=
  I st /\ 0 <= pointer (l_cur st) <= len source.

Let Post (r : lex_state + lex_result) : Prop :=
  match r with
  | inl st => I st /\ pointer (l_cur st) = len source
  | inr res => exists st e, res = Failed e /\ I st /\ lex_stuck source st e
  end.

Let measure (st : lex_state) : nat :=
  Z.to_nat (len source - pointer (l_cur st)).

Lemma lex_fuel_rule (fuel : nat) :
  (length source < fuel)%nat ->
  exists res, lex_fuel fuel source = Val res /\
    match res with
    | Tokens tokens =>
        exists cur, pointer cur = len source
                    /\ I {| l_tokens := tokens; l_cur := cur |}
    | Failed e => exists st, I st /\ lex_stuck source st e
    end.
Proof.
  intros Hfuel. pose proof (len_nonneg source) as Hlen.
  destruct (for_loop_total
              (fun st => pointer (l_cur st) <? uint (len source))
              (fun st => st) (lex_body source) Inv measure Post)
    with (fuel := fuel)
         (s := {| l_tokens := []; l_cur := cursor0 |})
    as (r & Hr & HP).
  - intros st [HI Hp] Hc.
    rewrite uint_small in Hc by lia. apply Z.ltb_lt in Hc.
    assert (Hrange : 0 <= pointer (l_cur st) < len source) by lia.
    destruct (range_lexers_spec (l_cur st) Hrange) as (r & Hr & Hcase).
    unfold lex_body. rewrite Hr. simpl bind.
    destruct r as [[token newCursor]|].
    + eexists; split; [reflexivity|].
      pose proof (scanner_match_advances _ Hrange _ _ Hcase) as Hadv.
      split; [split|].
      * apply I_step; assumption.
      * simpl. lia.
      * unfold measure. simpl. lia.
    + eexists; split; [reflexivity|]. simpl.
      exists st. eexists. split; [reflexivity|]. split; [exact HI|].
      split; [exact Hrange|]. split; [exact Hcase|reflexivity].
  - intros st [HI Hp] Hc. rewrite uint_small in Hc by lia.
    apply Z.ltb_ge in Hc. split; [exact HI|lia].
  - split; [exact I_start|]. simpl. lia.
  - unfold measure, len in *. simpl. lia.
  - unfold lex_fuel. rewrite Hr. simpl bind. destruct r as [st|res].
    + eexists; split; [reflexivity|]. destruct HP as [HI Hp].
      exists (l_cur st). split; [exact Hp|]. destruct st; exact HI.
    + destruct HP as (st & e & -> & HI & Hstuck).
      eexists; split; [reflexivity|]. exists st. split; assumption.
Qed.

Lemma lex_rule :
  exists res, lex source = Val res /\
    match res with
    | Tokens tokens =>
        exists cur, pointer cur = len source
                    /\ I {| l_tokens := tokens; l_cur := cur |}
    | Failed e => exists st, I st /\ lex_stuck source st e
    end.
Proof. apply lex_fuel_rule. lia. Qed.
End LexRule.
End Scanners.

(** ** Rebuilding the source from the tokens *)

Lemma rebuilds_app_space (text : bytes) (tokens : list Token) (c : ascii) :
  rebuilds text tokens -> is_space c = true -> rebuilds (text ++ [c]) tokens.
Proof.
  intros H Hc. induction H as [|d text tokens Hd _ IH|t text tokens _ IH].
  - simpl. apply rebuilds_space; [exact Hc|apply rebuilds_nil].
  - simpl. apply rebuilds_space; assumption.
  - rewrite <- app_assoc. apply rebuilds_token. exact IH.
Qed.

Lemma rebuilds_app_token (text : bytes) (tokens : list Token) (t : Token) :
  rebuilds text tokens -> rebuilds (text ++ Value t) (tokens ++ [t]).
Proof.
  intros H. induction H as [|d text tokens Hd _ IH|t' text tokens _ IH].
  - simpl. rewrite <- (app_nil_r (Value t)). apply rebuilds_token.
    apply rebuilds_nil.
  - simpl. apply rebuilds_space; assumption.
  - rewrite <- app_assoc. simpl. apply rebuilds_token. exact IH.
Qed.

Lemma ToLower_app (a b : bytes) : ToLower (a ++ b) = ToLower a ++ ToLower b.
Proof. apply map_app. Qed.

Lemma sub_head (s : bytes) (lo hi : Z) (c : ascii) :
  lo < hi -> byte_at s lo c -> sub s lo hi = c :: sub s (lo + 1) hi.
Proof.
  intros H Hat. rewrite (sub_app s lo (lo + 1) hi); [|destruct Hat; lia|lia].
  rewrite (sub_one _ _ c Hat). reflexivity.
Qed.

Lemma quote_bytes (c : ascii) :
  is_quote c = true ->
  is_space c = false /\ numeric_byte c = false /\ ident_byte c = false
  /\ lower_byte c = c.
Proof.
  assert (Hall : forall c,
             implb (is_quote c)
                   (negb (is_space c) && negb (numeric_byte c)
                    && negb (ident_byte c) && byte_eqb (lower_byte c) c)
             = true).
  { apply forall_byte. vm_compute. reflexivity. }
  intros H. specialize (Hall c). rewrite H in Hall. simpl in Hall.
  repeat (apply andb_true_iff in Hall; destruct Hall as [Hall ?]).
  repeat split; try (apply negb_true_iff; assumption).
  apply byte_eqb_eq. assumption.
Qed.

Lemma space_lower (c : ascii) : is_space c = true -> lower_byte c = c.
Proof.
  assert (Hall : forall c,
             implb (is_space c) (byte_eqb (lower_byte c) c) = true).
  { apply forall_byte. vm_compute. reflexivity. }
  intros H. specialize (Hall c). rewrite H in Hall. apply byte_eqb_eq.
  exact Hall.
Qed.

Lemma numeric_lower (l : bytes) :
  Forall (fun c => numeric_byte c = true) l -> ToLower l = l.
Proof.
  assert (Hall : forall c,
             implb (numeric_byte c) (byte_eqb (lower_byte c) c) = true).
  { apply forall_byte. vm_compute. reflexivity. }
  induction 1 as [|c l Hc _ IH]; simpl; [reflexivity|].
  specialize (Hall c). rewrite Hc in Hall. apply byte_eqb_eq in Hall.
  rewrite Hall. f_equal. exact IH.
Qed.

(** A keyword or a symbol that is the text at a cursor starts with the
    lowered byte at the cursor. *)
Lemma text_at_first (source : bytes) (ic : cursor) (m : bytes) (c : ascii) :
  0 <= pointer ic -> 1 <= len m -> text_at source ic m ->
  byte_at source (pointer ic) c ->
  exists rest, m = lower_byte c :: rest.
Proof.
  intros Hp Hm [Hfit Ht] Hat.
  rewrite (sub_head _ _ _ c) in Ht by (assumption || lia).
  simpl in Ht. eexists. symmetry. exact Ht.
Qed.

Lemma quote_starts_no_literal (c : ascii) (rest : bytes) :
  is_quote c = true ->
  ~ In (c :: rest) keywords /\ ~ In (c :: rest) symbols.
Proof.
  intros Hq. split; intros Hin; simpl in Hin;
    repeat (destruct Hin as [Hin|Hin];
            [injection Hin as <- _; discriminate Hq|]);
    exact Hin.
Qed.

(** The keywords, the symbols, and the bytes of numeric literals and of
    identifiers hold no white space. *)
Lemma literals_spaceless :
  Forall spaceless keywords /\ Forall spaceless symbols.
Proof.
  split; repeat constructor; discriminate.
Qed.

Lemma numeric_spaceless (l : bytes) :
  l <> [] -> Forall (fun c => numeric_byte c = true) l -> spaceless l.
Proof.
  assert (Hall : forall c, implb (numeric_byte c) (negb (is_space c)) = true).
  { apply forall_byte. vm_compute. reflexivity. }
  intros Hne H. split; [exact Hne|].
  eapply Forall_impl; [|exact H]. intros c Hc. simpl in Hc.
  specialize (Hall c). rewrite Hc in Hall. apply negb_true_iff. exact Hall.
Qed.

Lemma ident_spaceless (l : bytes) :
  l <> [] -> Forall (fun c => ident_byte c = true) l -> spaceless (ToLower l).
Proof.
  assert (Hall : forall c,
             implb (ident_byte c) (negb (is_space (lower_byte c))) = true).
  { apply forall_byte. vm_compute. reflexivity. }
  intros Hne H. split.
  - destruct l; [congruence|discriminate].
  - unfold ToLower. apply Forall_map.
    eapply Forall_impl; [|exact H]. intros c Hc. simpl in Hc.
    specialize (Hall c). rewrite Hc in Hall. apply negb_true_iff. exact Hall.
Qed.

Lemma sub_not_nil (s : bytes) (lo hi : Z) :
  0 <= lo < hi -> hi <= len s -> sub s lo hi <> [].
Proof.
  intros Hlo Hhi E. pose proof (len_sub s lo hi ltac:(lia) Hhi) as H.
  rewrite E, len_nil in H. lia.
Qed.

Lemma rebuilt_step (source : bytes) (st : lex_state) (token : option Token)
    (newCursor : cursor) :
  rebuilt source st ->
  0 <= pointer (l_cur st) < len source ->
  scanner_match source (l_cur st) (token, newCursor, true) ->
  rebuilt source {| l_tokens := push_token token (l_tokens st);
                    l_cur := newCursor |}.
Proof.
  intros HI Hp Hm. unfold rebuilt, doomed. simpl.
  assert (Hquote : forall d cur',
             is_quote d = true -> delimited_match source (l_cur st) d
                                    (token, cur', true) ->
             exists d', is_quote d' = true /\ byte_at source (pointer cur') d').
  { intros d cur' Hd (c & _ & _ & Hc & _ & E). injection E as _ ->.
    exists d. split; assumption. }
  assert (Hliteral : forall options kind,
             literal_match source (l_cur st) options kind
               (token, newCursor, true) ->
             exists m t, In m options /\ 1 <= len m
               /\ text_at source (l_cur st) m
               /\ token = Some t /\ Value t = m
               /\ pointer newCursor = (pointer (l_cur st)) + len m).
  { intros options kind (m & Hin & Hlen & Ht & _ & E).
    injection E as -> ->. exists m. eexists.
    split; [exact Hin|]. split; [exact Hlen|]. split; [exact Ht|].
    split; [reflexivity|]. split; reflexivity. }
  destruct HI as [(d & Hd & Hat)|[Hre Hsp]].
  { (* on a quote, only a delimited scan matches *)
    left. destruct (quote_bytes d Hd) as (Hsp & Hnum & Hid & Hlow).
    destruct Hm as [H|[H|[H|[H|[H|[H|H]]]]]].
    - exfalso. destruct (Hliteral _ _ H) as (m & t & Hin & Hlen & Ht & _).
      destruct (text_at_first _ _ _ d (proj1 Hp) Hlen Ht Hat) as [rest ->].
      rewrite Hlow in Hin.
      apply (proj1 (quote_starts_no_literal d rest Hd)). exact Hin.
    - exfalso. destruct H as (c & Hc & Hs & _).
      rewrite (byte_at_fun _ _ _ _ Hc Hat) in Hs. congruence.
    - exfalso. destruct (Hliteral _ _ H) as (m & t & Hin & Hlen & Ht & _).
      destruct (text_at_first _ _ _ d (proj1 Hp) Hlen Ht Hat) as [rest ->].
      rewrite Hlow in Hin.
      apply (proj2 (quote_starts_no_literal d rest Hd)). exact Hin.
    - apply (Hquote squote); [reflexivity|exact H].
    - exfalso. destruct H as (c & Hc & _ & Hall & _).
      rewrite (sub_head _ _ _ d) in Hall by (assumption || lia).
      inversion Hall; subst. congruence.
    - apply (Hquote dquote); [reflexivity|exact H].
    - exfalso. destruct H as (c & Hc & _ & Hall & _).
      rewrite (sub_head _ _ _ d) in Hall by (assumption || lia).
      inversion Hall; subst. congruence. }
  assert (Htoken : forall t q,
             pointer (l_cur st) <= q ->
             ToLower (sub source (pointer (l_cur st)) q) = Value t ->
             spaceless (Value t) ->
             rebuilds (ToLower (sub source 0 q)) (l_tokens st ++ [t])
             /\ Forall (fun t => spaceless (Value t)) (l_tokens st ++ [t])).
  { intros t q Hq Hv Ht. split.
    - rewrite (sub_app source 0 (pointer (l_cur st)) q) by lia.
      rewrite ToLower_app, Hv. apply rebuilds_app_token. exact Hre.
    - apply Forall_app. split; [exact Hsp|].
      constructor; [exact Ht|constructor]. }
  destruct literals_spaceless as [Hkeywords Hsymbols].
  destruct Hm as [H|[H|[H|[H|[H|[H|H]]]]]].
  - right.
    destruct (Hliteral _ _ H) as (m & t & Hin & Hlen & [_ Ht] & -> & Hv & ->).
    apply Htoken; [lia|rewrite Hv; exact Ht|].
    rewrite Hv. apply (proj1 (Forall_forall _ _) Hkeywords m Hin).
  - right. destruct H as (c & Hc & Hs & E). injection E as -> ->. simpl.
    split; [|exact Hsp].
    rewrite (sub_app source 0 (pointer (l_cur st)) ((pointer (l_cur st)) + 1)) by lia.
    rewrite (sub_one _ _ c Hc), ToLower_app. simpl.
    rewrite (space_lower c Hs). apply rebuilds_app_space; assumption.
  - right.
    destruct (Hliteral _ _ H) as (m & t & Hin & Hlen & [_ Ht] & -> & Hv & ->).
    apply Htoken; [lia|rewrite Hv; exact Ht|].
    rewrite Hv. apply (proj1 (Forall_forall _ _) Hsymbols m Hin).
  - left. apply (Hquote squote); [reflexivity|exact H].
  - right. destruct H as (c & Hc & _ & Hall & _ & E). injection E as -> ->.
    apply Htoken; [lia|simpl; apply numeric_lower; exact Hall|].
    simpl. apply numeric_spaceless; [apply sub_not_nil; lia|exact Hall].
  - left. apply (Hquote dquote); [reflexivity|exact H].
  - right. destruct H as (c & Hc & _ & Hall & E). injection E as -> ->.
    apply Htoken; [lia|reflexivity|].
    simpl. apply ident_spaceless; [apply sub_not_nil; lia|exact Hall].
Qed.

(** C3, as amended: for every input that [lex] accepts, the values of the
    returned tokens, in order, with the white space of the source put back
    where it was, give the source with its ASCII capital letters lowered
    (keywords and bare identifiers are stored in lower case); white space
    gives no token: no returned token is empty or holds a newline, a tab or
    a space, so the white space that is put back is all the white space of
    the source. *)
Theorem lex_rebuilds_lowered_source (source : bytes) (tokens : list Token) :
  len source < 2 ^ 63 ->
  lex source = Val (Tokens tokens) ->
  rebuilds (ToLower source) tokens
  /\ Forall (fun t => spaceless (Value t)) tokens.
Proof.
  intros Hlen Hlex.
  destruct (lex_rule source Hlen (rebuilt source)) as (res & Hres & Hcase).
  - right. split; [apply rebuilds_nil|constructor].
  - intros st token newCursor HI Hp _ Hm. apply rebuilt_step; assumption.
  - rewrite Hlex in Hres. injection Hres as <-.
    destruct Hcase as (cur & Hend & [(d & _ & Hat)|Hre]).
    + simpl in Hat. apply byte_at_lt in Hat. lia.
    + simpl in Hre. rewrite Hend, sub_all in Hre. exact Hre.
Qed.

(** C3, as stated, fails: [lex] accepts [SELECT] and returns the keyword
    [select], and no white space put around [select] gives [SELECT]. *)
Lemma lex_rebuild_exact_fails :
  lex (B "SELECT") = Val (Tokens [tok "select" KeywordKind 0 0])
  /\ ~ rebuilds (B "SELECT") [tok "select" KeywordKind 0 0].
Proof.
  split; [vm_compute; reflexivity|].
  intros H. inversion H; subst.
  - match goal with
    | Hc : _ = true |- _ => vm_compute in Hc; discriminate Hc
    end.
  - match goal with
    | E : Value _ ++ _ = _ |- _ => vm_compute in E; discriminate E
    end.
Qed.

Lemma lex_rebuilds_lowered_source_witness :
  len (B "SELECT * FROM t1;") < 2 ^ 63
  /\ lex (B "SELECT * FROM t1;")
     = Val (Tokens [tok "select" KeywordKind 0 0; tok "*" SymbolKind 0 7;
                    tok "from" KeywordKind 0 9; tok "t1" IdentifierKind 0 14;
                    tok ";" SymbolKind 0 16])
  /\ rebuilds (ToLower (B "SELECT * FROM t1;"))
       [tok "select" KeywordKind 0 0; tok "*" SymbolKind 0 7;
        tok "from" KeywordKind 0 9; tok "t1" IdentifierKind 0 14;
        tok ";" SymbolKind 0 16]
  /\ Forall (fun t => spaceless (Value t))
       [tok "select" KeywordKind 0 0; tok "*" SymbolKind 0 7;
        tok "from" KeywordKind 0 9; tok "t1" IdentifierKind 0 14;
        tok ";" SymbolKind 0 16].
Proof.
  split; [reflexivity|]. split; [vm_compute; reflexivity|].
  apply (lex_rebuilds_lowered_source (B "SELECT * FROM t1;")).
  - reflexivity.
  - vm_compute. reflexivity.
Defined.

(** ** The position in the error *)

Lemma newlines_app (a b : bytes) : newlines (a ++ b) = newlines a + newlines b.
Proof. unfold newlines. rewrite filter_app, len_app. reflexivity. Qed.

Lemma newlines_nonneg (l : bytes) : 0 <= newlines l.
Proof. apply len_nonneg. Qed.

Lemma newlines_le_len (l : bytes) : newlines l <= len l.
Proof.
  unfold newlines, len. pose proof (filter_length_le (fun c => byte_eqb c "010") l).
  lia.
Qed.

Lemma newlines_ToLower (l : bytes) : newlines (ToLower l) = newlines l.
Proof.
  assert (Hall : forall c,
             Bool.eqb (is_newline (lower_byte c)) (is_newline c) = true).
  { apply forall_byte. vm_compute. reflexivity. }
  unfold newlines. induction l as [|c l IH]; simpl; [reflexivity|].
  specialize (Hall c). apply eqb_prop in Hall. unfold is_newline in Hall.
  rewrite Hall. destruct (byte_eqb c "010"); rewrite ?len_cons, IH; reflexivity.
Qed.

Lemma newlines_in_push (tokens : list Token) (t : Token) :
  newlines_in (tokens ++ [t]) = newlines_in tokens + newlines (Value t).
Proof.
  unfold newlines_in. rewrite flat_map_app, newlines_app. simpl.
  rewrite app_nil_r. reflexivity.
Qed.

Lemma last_token_push (tokens : list Token) (t : Token) :
  last_token (tokens ++ [t]) = Some t.
Proof.
  induction tokens as [|a tokens IH]; [reflexivity|].
  simpl. rewrite IH. destruct (tokens ++ [t]) eqn:E; [|reflexivity].
  destruct tokens; discriminate.
Qed.

Lemma line_counted_step (source : bytes) (st : lex_state)
    (token : option Token) (newCursor : cursor) :
  len source < 2 ^ 63 ->
  line_counted source st ->
  0 <= pointer (l_cur st) < len source ->
  scanner_match source (l_cur st) (token, newCursor, true) ->
  line_counted source {| l_tokens := push_token token (l_tokens st);
                         l_cur := newCursor |}.
Proof.
  intros Hlen [Hl0 Hl] Hp Hm. unfold line_counted. simpl.
  pose proof (newlines_nonneg (flat_map Value (l_tokens st))) as Htok.
  fold (newlines_in (l_tokens st)) in Htok.
  pose proof (newlines_le_len (sub source 0 (pointer (l_cur st)))) as Hle.
  rewrite len_sub in Hle by lia.
  assert (Htoken : forall t cur',
             pointer (l_cur st) <= pointer cur' ->
             Line (loc cur') = Line (loc (l_cur st)) ->
             newlines (sub source (pointer (l_cur st)) (pointer cur'))
             = newlines (Value t) ->
             0 <= Line (loc cur')
             /\ Line (loc cur') + newlines_in (l_tokens st ++ [t])
                = newlines (sub source 0 (pointer cur'))).
  { intros t cur' Hq Hline Hv. rewrite Hline. split; [exact Hl0|].
    rewrite newlines_in_push.
    rewrite (sub_app source 0 (pointer (l_cur st)) (pointer cur')) by lia.
    rewrite newlines_app. lia. }
  assert (Hdelim : forall d, is_quote d = true ->
             delimited_match source (l_cur st) d (token, newCursor, true) ->
             0 <= Line (loc newCursor)
             /\ Line (loc newCursor)
                + newlines_in (push_token token (l_tokens st))
                = newlines (sub source 0 (pointer newCursor))).
  { intros d Hd (cur' & Hq & Ho & _ & Hline & E). injection E as -> ->.
    apply Htoken; [lia|exact Hline|]. simpl.
    rewrite (sub_head _ _ _ d) by (assumption || lia).
    change (d :: sub source (pointer (l_cur st) + 1) (pointer cur'))
      with ([d] ++ sub source (pointer (l_cur st) + 1) (pointer cur')).
    rewrite newlines_app.
    assert (Hn : newlines [d] = 0).
    { unfold is_quote in Hd. apply orb_true_iff in Hd.
      destruct Hd as [Hd|Hd]; apply byte_eqb_eq in Hd; subst d; reflexivity. }
    lia. }
  assert (Hliteral : forall options kind,
             literal_match source (l_cur st) options kind
               (token, newCursor, true) ->
             0 <= Line (loc newCursor)
             /\ Line (loc newCursor)
                + newlines_in (push_token token (l_tokens st))
                = newlines (sub source 0 (pointer newCursor))).
  { intros options kind (m & _ & Hm1 & [_ Ht] & _ & E). injection E as -> ->.
    apply Htoken; simpl; [lia|reflexivity|].
    rewrite <- Ht at 2. rewrite newlines_ToLower. reflexivity. }
  destruct Hm as [H|[H|[H|[H|[H|[H|H]]]]]].
  - apply (Hliteral _ _ H).
  - destruct H as (c & Hc & Hs & E). injection E as -> ->. simpl.
    rewrite (sub_app source 0 (pointer (l_cur st))
               (pointer (l_cur st) + 1)) by lia.
    rewrite (sub_one _ _ c Hc), newlines_app.
    assert (Hc1 : newlines [c] = if is_newline c then 1 else 0).
    { unfold newlines, is_newline. simpl.
      destruct (byte_eqb c "010"); reflexivity. }
    rewrite Hc1. destruct (is_newline c); simpl.
    + rewrite uint_small by lia. lia.
    + lia.
  - apply (Hliteral _ _ H).
  - apply (Hdelim squote); [reflexivity|exact H].
  - destruct H as (cur' & Hq & Hline & _ & _ & E). injection E as -> ->.
    apply Htoken; [lia|exact Hline|reflexivity].
  - apply (Hdelim dquote); [reflexivity|exact H].
  - destruct H as (cur' & Hq & Hline & _ & E). injection E as -> ->.
    apply Htoken; [lia|exact Hline|]. simpl. rewrite newlines_ToLower.
    reflexivity.
Qed.

(** ** Progress and termination *)

Lemma lexer_match (source : bytes) (l : lexer) (cur : cursor) (r : lexed) :
  len source < 2 ^ 63 -> 0 <= pointer cur < len source ->
  In l lexers -> l source cur = Val r ->
  r = no_match cur \/ scanner_match source cur r.
Proof.
  intros Hlen Hp Hin Hl.
  assert (Hle : 0 <= pointer cur <= len source) by lia.
  unfold scanner_match.
  destruct Hin as [<-|[<-|[<-|[<-|[<-|[]]]]]].
  - destruct (lexKeyword_spec source Hlen cur Hp) as (r' & Hr & Hcase).
    rewrite Hl in Hr. injection Hr as <-.
    destruct Hcase as [[-> _]|H]; tauto.
  - destruct (lexSymbol_spec source Hlen cur Hp) as (r' & Hr & Hcase).
    rewrite Hl in Hr. injection Hr as <-.
    destruct Hcase as [H|[[-> _]|H]]; tauto.
  - destruct (lexCharacterDelimited_spec source Hlen cur squote Hle)
      as (r' & Hr & Hcase).
    unfold lexString in Hl. rewrite Hl in Hr. injection Hr as <-. tauto.
  - destruct (lexNumeric_spec source Hlen cur Hle) as (r' & Hr & Hcase).
    rewrite Hl in Hr. injection Hr as <-. tauto.
  - destruct (lexIdentifier_spec source Hlen cur Hp) as (r' & Hr & Hcase).
    rewrite Hl in Hr. injection Hr as <-. tauto.
Qed.

Lemma lex_reaches_range (source : bytes) (st : lex_state) :
  len source < 2 ^ 63 -> lex_reaches source st ->
  0 <= pointer (l_cur st) <= len source.
Proof.
  intros Hlen H. pose proof (len_nonneg source) as Hnn.
  induction H as [|st token newCursor _ IH Hc Hr]; [simpl; lia|].
  rewrite uint_small in Hc by lia. apply Z.ltb_lt in Hc.
  assert (Hp : 0 <= pointer (l_cur st) < len source) by lia.
  destruct (range_lexers_spec source Hlen (l_cur st) Hp) as (r & Hr' & Hm).
  rewrite Hr in Hr'. injection Hr' as <-.
  pose proof (scanner_match_advances source (l_cur st) Hp _ _ Hm). simpl. lia.
Qed.

(** C9: in one pass of [lex] the pointer of the driver never decreases and
    is strictly larger after every match of a scanner, the white space that
    [lexSymbol] skips included; no scanner matches without moving the
    pointer forward; and the loop of [lex] ends: [lex] returns a value, the
    same whenever the loop is allowed more iterations than the source has
    bytes. *)
Theorem lex_pointer_advances (source : bytes) :
  len source < 2 ^ 63 ->
  (forall l cur token newCursor,
      In l lexers -> 0 <= pointer cur < len source ->
      l source cur = Val (token, newCursor, true) ->
      pointer cur < pointer newCursor <= len source)
  /\ (forall st token newCursor,
        lex_reaches source st ->
        (pointer (l_cur st) <? uint (len source)) = true ->
        range_lexers lexers source (l_cur st) = Val (Some (token, newCursor)) ->
        0 <= pointer (l_cur st) < pointer newCursor
        /\ pointer newCursor <= len source)
  /\ (exists res, lex source = Val res)
  /\ (forall fuel, (length source < fuel)%nat ->
                   lex_fuel fuel source = lex source).
Proof.
  intros Hlen. pose proof (len_nonneg source) as Hnn.
  split; [|split; [|split]].
  - intros l cur token newCursor Hin Hp Hl.
    destruct (lexer_match source l cur _ Hlen Hp Hin Hl) as [E|Hm].
    + discriminate E.
    + apply (scanner_match_advances source cur Hp _ _ Hm).
  - intros st token newCursor Hreach Hc Hr.
    pose proof (lex_reaches_range source st Hlen Hreach) as Hrange.
    rewrite uint_small in Hc by lia. apply Z.ltb_lt in Hc.
    assert (Hp : 0 <= pointer (l_cur st) < len source) by lia.
    destruct (range_lexers_spec source Hlen (l_cur st) Hp) as (r & Hr' & Hm).
    rewrite Hr in Hr'. injection Hr' as <-.
    pose proof (scanner_match_advances source (l_cur st) Hp _ _ Hm). lia.
  - destruct (lex_rule source Hlen (fun _ => True) I (fun _ _ _ _ _ _ _ => I))
      as (res & Hres & _).
    exists res. exact Hres.
  - intros fuel Hfuel.
    destruct (lex_rule source Hlen (fun _ => True) I (fun _ _ _ _ _ _ _ => I))
      as (res & Hres & _).
    unfold lex, lex_fuel in *.
    destruct (for_loop (fun st => pointer (l_cur st) <? uint (len source))
                (fun st => st) (lex_body source) (S (length source))
                {| l_tokens := []; l_cur := cursor0 |}) as [r| |] eqn:Hloop;
      try discriminate Hres.
    rewrite (for_loop_more_fuel _ _ _ (S (length source)) fuel _ r);
      [reflexivity|lia|exact Hloop].
Qed.

Lemma lex_pointer_advances_witness :
  len (B "select a, b") < 2 ^ 63
  /\ (exists res, lex (B "select a, b") = Val res)
  /\ (forall fuel, (length (B "select a, b") < fuel)%nat ->
                   lex_fuel fuel (B "select a, b") = lex (B "select a, b")).
Proof.
  split; [reflexivity|].
  apply (lex_pointer_advances (B "select a, b")). reflexivity.
Defined.

(** ** Indexing and slicing stay in bounds *)

(** C10: at a cursor inside the source no scanner panics, and neither does
    [longestMatch] on options that are not empty, as the keywords and the
    symbols are: in every state of its loop an option that is not in the
    skip list is longer than the text read so far, so the next iteration
    slices it within bounds; and [lex] as a whole does not panic. *)
Theorem lex_indexing_in_bounds (source : bytes) (cur : cursor) :
  len source < 2 ^ 63 ->
  0 <= pointer cur < len source ->
  (forall l, In l lexers -> l source cur <> Panic)
  /\ (forall delimiter, lexCharacterDelimited source cur delimiter <> Panic)
  /\ (forall options,
        Forall (fun o => o <> []) options ->
        longestMatch source cur options <> Panic
        /\ forall st,
             scan_reaches source cur options st ->
             (forall j o, nth_error options j = Some o ->
                          ~ In (Z.of_nat j) (m_skipList st) ->
                          pointer (m_cur st) - pointer cur < len o)
             /\ ((pointer (m_cur st) <? uint (len source)) = true ->
                 longestMatch_body source cur options st <> Panic))
  /\ lex source <> Panic.
Proof.
  intros Hlen Hp. assert (Hle : 0 <= pointer cur <= len source) by lia.
  split; [|split; [|split]].
  - intros l [<-|[<-|[<-|[<-|[<-|[]]]]]].
    + destruct (lexKeyword_spec source Hlen cur Hp) as (r & -> & _).
      discriminate.
    + destruct (lexSymbol_spec source Hlen cur Hp) as (r & -> & _).
      discriminate.
    + destruct (lexCharacterDelimited_spec source Hlen cur squote Hle)
        as (r & Hr & _).
      unfold lexString. rewrite Hr. discriminate.
    + destruct (lexNumeric_spec source Hlen cur Hle) as (r & -> & _).
      discriminate.
    + destruct (lexIdentifier_spec source Hlen cur Hp) as (r & -> & _).
      discriminate.
  - intros delimiter.
    destruct (lexCharacterDelimited_spec source Hlen cur delimiter Hle)
      as (r & -> & _).
    discriminate.
  - intros options Hne. split.
    + destruct (longestMatch_spec source Hlen cur options Hle Hne)
        as (m & -> & _).
      discriminate.
    + intros st Hreach. split.
      * intros j o Hj Hn.
        apply (scan_reaches_live source Hlen cur options Hle Hne st Hreach
                 (Z.of_nat j) o); [|exact Hn].
        split; [lia|]. rewrite Nat2Z.id. exact Hj.
      * apply (scan_reaches_no_panic source Hlen cur options Hle Hne st Hreach).
  - destruct (lex_rule source Hlen (fun _ => True) I (fun _ _ _ _ _ _ _ => I))
      as (res & -> & _).
    discriminate.
Qed.

Lemma lex_indexing_in_bounds_witness :
  len (B "select a") < 2 ^ 63
  /\ 0 <= pointer {| pointer := 7; loc := {| Line := 0; Col := 7 |} |}
     < len (B "select a")
  /\ lex (B "select a") <> Panic.
Proof.
  split; [reflexivity|]. split; [split; [discriminate|reflexivity]|].
  apply (lex_indexing_in_bounds (B "select a")
           {| pointer := 7; loc := {| Line := 0; Col := 7 |} |}).
  - reflexivity.
  - split; [discriminate|reflexivity].
Defined.

(** ** The longest match *)

(** C4: the text [into] gives one keyword token [into]; with [int] among
    the options too, [longestMatch] still answers [into], on [int] alone it
    answers [int]; and in general [longestMatch] answers with an option at
    least as long as every option that is, case apart, the text at the
    cursor: an option equal to the text read so far is kept as the answer
    while the scan goes on to longer options. *)
Theorem longestMatch_prefers_longest :
  lex (B "into") = Val (Tokens [tok "into" KeywordKind 0 0])
  /\ longestMatch (B "into") cursor0 [IntKeyword; IntoKeyword] = Val IntoKeyword
  /\ longestMatch (B "int") cursor0 [IntKeyword; IntoKeyword] = Val IntKeyword
  /\ forall source ic options,
       len source < 2 ^ 63 ->
       0 <= pointer ic <= len source ->
       Forall (fun o => o <> []) options ->
       exists m,
         longestMatch source ic options = Val m
         /\ (m = [] \/ In m options)
         /\ forall o, In o options ->
                      pointer ic + len o <= len source ->
                      lower_text (sub source (pointer ic) (pointer ic + len o))
                      = o ->
                      len o <= len m.
Proof.
  split; [vm_compute; reflexivity|].
  split; [vm_compute; reflexivity|].
  split; [vm_compute; reflexivity|].
  intros source ic options Hlen Hp Hne.
  destruct (longestMatch_spec source Hlen ic options Hp Hne)
    as (m & Hm & Hsound & Hlongest).
  exists m. split; [exact Hm|]. split.
  - destruct Hsound as [->|[Hin _]]; [left; reflexivity|right; exact Hin].
  - intros o Hin Hfit Ho. apply Hlongest; [exact Hin|]. split; assumption.
Qed.

Lemma longestMatch_prefers_longest_witness :
  len (B "INTO t") < 2 ^ 63
  /\ 0 <= pointer cursor0 <= len (B "INTO t")
  /\ Forall (fun o : bytes => o <> []) [IntKeyword; IntoKeyword]
  /\ exists m,
       longestMatch (B "INTO t") cursor0 [IntKeyword; IntoKeyword] = Val m
       /\ (m = [] \/ In m [IntKeyword; IntoKeyword])
       /\ forall o, In o [IntKeyword; IntoKeyword] ->
                    pointer cursor0 + len o <= len (B "INTO t") ->
                    lower_text (sub (B "INTO t") (pointer cursor0)
                                    (pointer cursor0 + len o)) = o ->
                    len o <= len m.
Proof.
  assert (Hne : Forall (fun o : bytes => o <> []) [IntKeyword; IntoKeyword])
    by (repeat constructor; discriminate).
  split; [reflexivity|]. split; [split; discriminate|]. split; [exact Hne|].
  apply (proj2 (proj2 (proj2 longestMatch_prefers_longest))).
  - reflexivity.
  - split; discriminate.
  - exact Hne.
Defined.

(** ** Numeric literals *)

(** C5: [1.5e-10] gives one numeric token with that very text; [lexNumeric]
    reports no match on [1.2.3] and on [1e], and [lex] fails on both; a sign
    is taken only right after the exponent marker: in [1e5-3] the scan stops
    before the sign, and in general the value of the token is the text
    between the two cursors and every sign in it comes right after
    an [e]. *)
Theorem lexNumeric_state_machine :
  lex (B "1.5e-10") = Val (Tokens [tok "1.5e-10" NumericKind 0 0])
  /\ lexNumeric (B "1.2.3") cursor0 = Val (no_match cursor0)
  /\ lexNumeric (B "1e") cursor0 = Val (no_match cursor0)
  /\ lex (B "1.2.3")
     = Val (Failed {| err_hint := []; err_line := 0; err_col := 0 |})
  /\ lex (B "1e")
     = Val (Failed {| err_hint := []; err_line := 0; err_col := 0 |})
  /\ (exists cur,
        lexNumeric (B "1e5-3") cursor0
        = Val (Some (tok "1e5" NumericKind 0 0), cur, true)
        /\ pointer cur = 3)
  /\ forall source ic token cur,
       len source < 2 ^ 63 ->
       0 <= pointer ic <= len source ->
       lexNumeric source ic = Val (Some token, cur, true) ->
       Value token = sub source (pointer ic) (pointer cur)
       /\ Kind token = NumericKind
       /\ forall i c, pointer ic <= i < pointer cur ->
                      byte_at source i c -> is_sign c = true ->
                      pointer ic < i /\ byte_at source (i - 1) "e".
Proof.
  split; [vm_compute; reflexivity|].
  split; [vm_compute; reflexivity|].
  split; [vm_compute; reflexivity|].
  split; [vm_compute; reflexivity|].
  split; [vm_compute; reflexivity|].
  split; [eexists; split; vm_compute; reflexivity|].
  intros source ic token cur Hlen Hp Hl.
  destruct (lexNumeric_spec source Hlen ic Hp) as (r & Hr & Hcase).
  rewrite Hl in Hr. injection Hr as <-.
  destruct Hcase as [E|(cur' & _ & _ & _ & Hsigns & E)]; [discriminate E|].
  injection E as -> ->. simpl. split; [reflexivity|]. split; [reflexivity|].
  exact Hsigns.
Qed.

Lemma lexNumeric_state_machine_witness :
  len (B "2e+7,") < 2 ^ 63
  /\ 0 <= pointer cursor0 <= len (B "2e+7,")
  /\ lexNumeric (B "2e+7,") cursor0
     = Val (Some (tok "2e+7" NumericKind 0 0),
            {| pointer := 4; loc := {| Line := 0; Col := 5 |} |}, true)
  /\ Value (tok "2e+7" NumericKind 0 0) = sub (B "2e+7,") 0 4
  /\ Kind (tok "2e+7" NumericKind 0 0) = NumericKind
  /\ forall i c, 0 <= i < 4 -> byte_at (B "2e+7,") i c -> is_sign c = true ->
                 0 < i /\ byte_at (B "2e+7,") (i - 1) "e".
Proof.
  split; [reflexivity|]. split; [split; discriminate|].
  split; [vm_compute; reflexivity|].
  apply (proj2 (proj2 (proj2 (proj2 (proj2 (proj2 lexNumeric_state_machine)))))
           (B "2e+7,") cursor0 (tok "2e+7" NumericKind 0 0)
           {| pointer := 4; loc := {| Line := 0; Col := 5 |} |}).
  - reflexivity.
  - split; discriminate.
  - vm_compute. reflexivity.
Defined.

(** ** Quoted text *)

(** C6: [lex] fails on the unterminated string ['abc]: the delimited scan
    reports no match and gives back the cursor it was given, so does every
    other scanner, and the error carries the line and column of the opening
    quote; behind [select] and a space that is column 7, where the quote is,
    and not column 11, where the input ends. *)
Theorem lex_unterminated_string :
  lexString (B "'abc") cursor0 = Val (no_match cursor0)
  /\ Forall (fun l : lexer => l (B "'abc") cursor0 = Val (no_match cursor0))
            lexers
  /\ lex (B "'abc")
     = Val (Failed {| err_hint := []; err_line := Line (loc cursor0);
                      err_col := Col (loc cursor0) |})
  /\ lex (B "select 'abc")
     = Val (Failed {| err_hint := B " after select"; err_line := 0;
                      err_col := 7 |}).
Proof.
  split; [vm_compute; reflexivity|].
  split; [|split; vm_compute; reflexivity].
  repeat constructor; vm_compute; reflexivity.
Qed.

(** C1 does not hold of the code: on ['it''s'] the delimited scan appends
    the doubled quote twice, so the value is [it''s], and it stops on the
    closing quote without moving behind it, so the driver finds no scanner
    for that quote and [lex] fails. *)
Theorem lexString_doubled_quote :
  lexString (B "'it''s'") cursor0
  = Val (Some (tok "it''s" StringKind 0 0),
         {| pointer := 6; loc := {| Line := 0; Col := 6 |} |}, true)
  /\ lex (B "'it''s'")
     = Val (Failed {| err_hint := B " after it''s"; err_line := 0;
                      err_col := 6 |}).
Proof. split; vm_compute; reflexivity. Qed.

(** C2 does not hold of the code: on [Foo] between double quotes
    [lexIdentifier] hands on the token of the delimited scan as it is, of
    kind [StringKind], and the cursor stays on the closing quote, so [lex]
    fails. *)
Theorem lexIdentifier_quoted :
  lexIdentifier quoted_Foo cursor0
  = Val (Some (tok "Foo" StringKind 0 0),
         {| pointer := 4; loc := {| Line := 0; Col := 4 |} |}, true)
  /\ lex quoted_Foo
     = Val (Failed {| err_hint := B " after Foo"; err_line := 0;
                      err_col := 4 |}).
Proof. split; vm_compute; reflexivity. Qed.

(** ** Columns *)

(** C8 does not hold of the code: [lexNumeric] adds one to the column
    before it looks at a byte, also at the byte that ends the literal, so
    on [1] and a space it moves the pointer by 1 and the column by 2, where
    [lexIdentifier] on [a] and a space moves both by 1; the error of [lex]
    then names column 3 for the byte at offset 2.  And a delimited scan
    moves over a newline without a new line in the cursor. *)
Theorem lexNumeric_column_overcounts :
  lexNumeric (B "1 ") cursor0
  = Val (Some (tok "1" NumericKind 0 0),
         {| pointer := 1; loc := {| Line := 0; Col := 2 |} |}, true)
  /\ lexIdentifier (B "a ") cursor0
     = Val (Some (tok "a" IdentifierKind 0 0),
            {| pointer := 1; loc := {| Line := 0; Col := 1 |} |}, true)
  /\ lex (B "1 ?")
     = Val (Failed {| err_hint := B " after 1"; err_line := 0; err_col := 3 |})
  /\ lexString quoted_two_lines cursor0
     = Val (Some {| Value := B "a" ++ ["010"%char] ++ B "b";
                    Kind := StringKind; Loc := {| Line := 0; Col := 0 |} |},
            {| pointer := 4; loc := {| Line := 0; Col := 4 |} |}, true).
Proof. repeat split; vm_compute; reflexivity. Qed.


(** * Further properties of the scanners *)

(** ** The grammar of numeric literals *)

Lemma periods_app (a b : bytes) : periods (a ++ b) = periods a + periods b.
Proof. unfold periods. rewrite filter_app, len_app. reflexivity. Qed.

Lemma periods_nonneg (a : bytes) : 0 <= periods a.
Proof. apply len_nonneg. Qed.

Lemma digit_bytes (c : ascii) :
  isDigit c = true ->
  byte_eqb c "." = false /\ byte_eqb c "e" = false /\ is_sign c = false.
Proof.
  assert (Hall : forall c,
             implb (isDigit c)
                   (negb (byte_eqb c ".") && negb (byte_eqb c "e")
                    && negb (is_sign c)) = true).
  { apply forall_byte. vm_compute. reflexivity. }
  intros H. specialize (Hall c). rewrite H in Hall. simpl in Hall.
  repeat (apply andb_true_iff in Hall; destruct Hall as [Hall ?]).
  repeat split; apply negb_true_iff; assumption.
Qed.

Lemma periods_one (c : ascii) :
  periods [c] = if byte_eqb c "." then 1 else 0.
Proof. unfold periods. simpl. destruct (byte_eqb c "."); reflexivity. Qed.

Lemma numeric_scan_start (pf : bool) : numeric_scan pf false [].
Proof.
  unfold numeric_scan. split; [constructor|]. split; [|reflexivity].
  unfold periods, len. simpl. lia.
Qed.

Lemma numeric_scan_empty (pf ef : bool) : numeric_scan pf ef [] -> ef = false.
Proof.
  destruct ef; [|reflexivity].
  intros (_ & m & x & Ht & Hm & _). destruct m; [congruence|discriminate Ht].
Qed.

Lemma numeric_scan_first (pf : bool) (c : ascii) :
  digit_or_period c = true -> numeric_scan (byte_eqb c ".") false [c].
Proof.
  intros Hc. unfold numeric_scan. rewrite periods_one.
  split; [repeat constructor; exact Hc|].
  destruct (byte_eqb c "."); split; (lia || reflexivity || discriminate).
Qed.

Lemma numeric_scan_period (ef : bool) (text : bytes) :
  numeric_scan false ef text -> numeric_scan true ef (text ++ ["."%char]).
Proof.
  unfold numeric_scan. destruct ef.
  - intros [E _]. discriminate E.
  - intros (Hall & _ & Hzero). rewrite periods_app, (Hzero eq_refl).
    split; [|split; [reflexivity|discriminate]].
    apply Forall_app. split; [exact Hall|]. repeat constructor.
Qed.

Lemma numeric_scan_digit (pf ef : bool) (text : bytes) (c : ascii) :
  isDigit c = true ->
  numeric_scan pf ef text -> numeric_scan pf ef (text ++ [c]).
Proof.
  intros Hc. destruct (digit_bytes c Hc) as (Hp & _ & _).
  unfold numeric_scan. destruct ef.
  - intros (Hpf & m & x & Ht & Hm & Hall & Hper & Hx & Hexp).
    split; [exact Hpf|]. exists m, (x ++ [c]).
    split; [rewrite Ht, app_assoc; reflexivity|]. split; [exact Hm|].
    split; [exact Hall|]. split; [exact Hper|].
    split; [destruct x; discriminate|].
    destruct Hexp as [->|(sg & ds & -> & Hsg & Hds)]; [congruence|].
    right. exists sg, (ds ++ [c]). split; [|split; [exact Hsg|]].
    + simpl. rewrite <- app_assoc. reflexivity.
    + apply Forall_app. split; [exact Hds|]. repeat constructor. exact Hc.
  - intros (Hall & Hper & Hzero). rewrite periods_app, periods_one, Hp.
    split; [|split].
    + apply Forall_app. split; [exact Hall|]. repeat constructor.
      unfold digit_or_period. rewrite Hc. reflexivity.
    + lia.
    + intros H. rewrite (Hzero H). reflexivity.
Qed.

Lemma numeric_scan_exponent (pf : bool) (text sign : bytes) :
  text <> [] ->
  sign = [] \/ sign = ["-"%char] \/ sign = ["+"%char] ->
  numeric_scan pf false text ->
  numeric_scan true true (text ++ "e"%char :: sign).
Proof.
  intros Hne Hsign (Hall & Hper & _). unfold numeric_scan.
  split; [reflexivity|]. exists text, ("e"%char :: sign).
  split; [reflexivity|]. split; [exact Hne|]. split; [exact Hall|].
  split; [exact Hper|]. split; [discriminate|].
  right. exists sign, []. rewrite app_nil_r.
  split; [reflexivity|]. split; [exact Hsign|constructor].
Qed.

Lemma numeric_scan_text (pf ef : bool) (text : bytes) :
  text <> [] -> numeric_scan pf ef text -> numeric_text text.
Proof.
  intros Hne. unfold numeric_scan, numeric_text. destruct ef.
  - intros (_ & m & x & Ht & Hm & Hall & Hper & _ & Hx).
    exists m, x. repeat split; assumption.
  - intros (Hall & Hper & _). exists text, [].
    rewrite app_nil_r. repeat split; try assumption. left. reflexivity.
Qed.

Section NumericGrammar.
Variable source : bytes.
Hypothesis source_len : len source < 2 ^ 63.
Variable ic : cursor.
Hypothesis ic_range : 0 <= pointer ic <= len source.

Let Inv (st : numeric_state) : Prop :=
  pointer ic <= pointer (n_cur st) <= len source
  /\ numeric_scan (periodFound st) (expMarkerFound st)
       (sub source (pointer ic) (pointer (n_cur st))).

Let Post (r : numeric_state + lexed) : Prop :=
  match r with
  | inl st => Inv st /\ stops_at source (pointer (n_cur st)) numeric_more
  | inr res => res = no_match ic
  end.

Let measure (st : numeric_state) : nat :=
  Z.to_nat (len source - pointer (n_cur st)).

Lemma numeric_grammar_body (st : numeric_state) :
  Inv st ->
  (pointer (n_cur st) <? uint (len source)) = true ->
  exists c, lexNumeric_body source ic st = Val c /\
    match c with
    | Next s' =>
        Inv (numeric_post s') /\ (measure (numeric_post s') < measure st)%nat
    | Break s' => Post (inl s')
    | Return r => Post (inr r)
    end.
Proof.
  intros [Hq Hshape] Hc.
  pose proof (len_nonneg source) as Hlen.
  rewrite uint_small in Hc by lia. apply Z.ltb_lt in Hc.
  destruct (byte_at_exists source (pointer (n_cur st))) as [c Hat]; [lia|].
  assert (Hsnoc : sub source (pointer ic) (pointer (n_cur st) + 1)
                  = sub source (pointer ic) (pointer (n_cur st)) ++ [c]).
  { apply sub_snoc; [lia|exact Hat]. }
  unfold lexNumeric_body. rewrite (index_at _ _ _ Hat). simpl bind.
  (* the state after one byte *)
  assert (Hone : forall cur pf ef,
            pointer cur = pointer (n_cur st) ->
            numeric_scan pf ef
              (sub source (pointer ic) (pointer (n_cur st)) ++ [c]) ->
            Inv (numeric_post {| n_cur := cur; periodFound := pf;
                                 expMarkerFound := ef |})
            /\ (measure (numeric_post {| n_cur := cur; periodFound := pf;
                                         expMarkerFound := ef |})
                < measure st)%nat).
  { intros cur pf ef Hp Hs. unfold Inv, measure, numeric_post. simpl.
    rewrite Hp, uint_small by lia. rewrite Hsnoc.
    split; [split; [lia|exact Hs]|lia]. }
  destruct (pointer (n_cur st) =? pointer ic) eqn:Hfirst.
  { apply Z.eqb_eq in Hfirst.
    assert (Htext : sub source (pointer ic) (pointer (n_cur st)) = []).
    { rewrite Hfirst. apply sub_nil. }
    rewrite Htext in Hshape, Hone.
    pose proof (numeric_scan_empty _ _ Hshape) as He.
    destruct (negb (isDigit c) && negb (byte_eqb c ".")) eqn:Hstart.
    - eexists; split; [reflexivity|]. reflexivity.
    - eexists; split; [reflexivity|]. apply Hone; [reflexivity|].
      rewrite He. apply numeric_scan_first; [exact true|].
      unfold digit_or_period.
      destruct (isDigit c), (byte_eqb c "."); simpl in *; congruence. }
  apply Z.eqb_neq in Hfirst.
  assert (Hne : sub source (pointer ic) (pointer (n_cur st)) <> []).
  { intros E. pose proof (len_sub source (pointer ic) (pointer (n_cur st))
                            ltac:(lia) ltac:(lia)) as Hl.
    rewrite E, len_nil in Hl. lia. }
  destruct (byte_eqb c ".") eqn:Hperiod.
  { destruct (periodFound st) eqn:Hpf.
    - eexists; split; [reflexivity|]. reflexivity.
    - eexists; split; [reflexivity|]. apply Hone; [reflexivity|].
      apply byte_eqb_eq in Hperiod. subst c.
      apply numeric_scan_period. exact Hshape. }
  destruct (byte_eqb c "e") eqn:Hexp.
  { destruct (expMarkerFound st) eqn:Hef.
    { eexists; split; [reflexivity|]. reflexivity. }
    destruct (pointer (n_cur st) =? uint (len source - 1)) eqn:Hlast.
    { eexists; split; [reflexivity|]. reflexivity. }
    rewrite uint_small in Hlast by lia. apply Z.eqb_neq in Hlast.
    rewrite uint_small by lia.
    destruct (byte_at_exists source (pointer (n_cur st) + 1)) as [d Hd];
      [lia|].
    rewrite (index_at _ _ _ Hd). simpl bind.
    apply byte_eqb_eq in Hexp. subst c.
    eexists; split; [reflexivity|].
    destruct (byte_eqb d "-" || byte_eqb d "+") eqn:Hsign.
    - unfold Inv, measure, numeric_post. simpl.
      rewrite (uint_small (pointer (n_cur st) + 1)) by lia.
      rewrite uint_small by lia.
      split; [split; [lia|]|lia].
      rewrite (sub_snoc _ _ _ d) by (assumption || lia).
      rewrite Hsnoc, <- app_assoc. simpl.
      apply (numeric_scan_exponent (periodFound st)); try assumption.
      apply orb_true_iff in Hsign.
      destruct Hsign as [E|E]; apply byte_eqb_eq in E; subst d; auto.
    - apply Hone; [reflexivity|].
      apply (numeric_scan_exponent (periodFound st) _ []); auto. }
  destruct (negb (isDigit c)) eqn:Hdigit.
  - eexists; split; [reflexivity|]. simpl. split.
    + unfold Inv. simpl. split; [lia|exact Hshape].
    + right. exists c. split; [exact Hat|]. unfold numeric_more.
      rewrite Hperiod, Hexp. apply negb_true_iff in Hdigit. rewrite Hdigit.
      reflexivity.
  - eexists; split; [reflexivity|]. apply Hone; [reflexivity|].
    apply numeric_scan_digit; [|exact Hshape].
    apply negb_false_iff. exact Hdigit.
Qed.

Lemma lexNumeric_grammar (token : Token) (cur : cursor) :
  lexNumeric source ic = Val (Some token, cur, true) ->
  Value token = sub source (pointer ic) (pointer cur)
  /\ numeric_text (Value token)
  /\ pointer ic < pointer cur <= len source
  /\ stops_at source (pointer cur) numeric_more.
Proof.
  pose proof (len_nonneg source) as Hlen.
  destruct (for_loop_total
              (fun st => pointer (n_cur st) <? uint (len source))
              numeric_post (lexNumeric_body source ic) Inv measure Post)
    with (fuel := S (length source))
         (s := {| n_cur := ic; periodFound := false;
                  expMarkerFound := false |})
    as (r & Hr & HP).
  - intros s HI Hc. apply numeric_grammar_body; assumption.
  - intros s HI Hc. split; [exact HI|]. left.
    rewrite uint_small in Hc by lia. apply Z.ltb_ge in Hc.
    destruct HI as [Hq _]. lia.
  - unfold Inv. simpl. rewrite sub_nil. split; [lia|].
    apply numeric_scan_start.
  - unfold measure, len in *. simpl. lia.
  - unfold lexNumeric. rewrite Hr. simpl bind. destruct r as [st|res].
    + destruct HP as [[Hq Hshape] Hstop].
      destruct (pointer (n_cur st) =? pointer ic) eqn:E.
      * intros H. discriminate H.
      * apply Z.eqb_neq in E. rewrite slice_sub by lia. simpl bind.
        intros H. injection H as <- <-. simpl.
        split; [reflexivity|]. split; [|split; [lia|exact Hstop]].
        apply (numeric_scan_text (periodFound st) (expMarkerFound st));
          [|exact Hshape].
        intros Hnil.
        pose proof (len_sub source (pointer ic) (pointer (n_cur st))
                      ltac:(lia) ltac:(lia)) as Hl.
        rewrite Hnil, len_nil in Hl. lia.
    + simpl in HP. subst res. intros H. discriminate H.
Qed.
End NumericGrammar.

(** ** Bare identifiers and delimited text, with their columns *)

Lemma uint_succ (a : Z) : uint (uint a + 1) = uint (a + 1).
Proof. unfold uint. apply Z.add_mod_idemp_l. discriminate. Qed.

Lemma uint_succ_succ (a : Z) : uint (uint (uint a + 1) + 1) = uint (a + 2).
Proof.
  replace (uint (uint a + 1)) with (uint (a + 1)) by (symmetry; apply uint_succ).
  rewrite uint_succ. f_equal. lia.
Qed.

Section IdentifierShape.
Variable source : bytes.
Hypothesis source_len : len source < 2 ^ 63.
Variable ic : cursor.
Hypothesis ic_range : 0 <= pointer ic < len source.

Let Inv (st : ident_state) : Prop :=
  pointer ic + 1 <= pointer (i_cur st) <= len source
  /\ loc (i_cur st)
     = {| Line := Line (loc ic);
          Col := uint (Col (loc ic) + (pointer (i_cur st) - pointer ic)) |}
  /\ i_value st = sub source (pointer ic) (pointer (i_cur st))
  /\ Forall (fun c => ident_byte c = true) (i_value st).

Let Post (r : ident_state + Empty_set) : Prop :=
  match r with
  | inl st => Inv st /\ stops_at source (pointer (i_cur st)) ident_byte
  | inr e => False
  end.

Let measure (st : ident_state) : nat :=
  Z.to_nat (len source - pointer (i_cur st)).

Lemma ident_shape_body (st : ident_state) :
  Inv st ->
  (pointer (i_cur st) <? uint (len source)) = true ->
  exists c, lexIdentifier_body source st = Val c /\
    match c with
    | Next s' => Inv (ident_post s') /\ (measure (ident_post s') < measure st)%nat
    | Break s' => Post (inl s')
    | Return r => Post (inr r)
    end.
Proof.
  intros (Hq & Hloc & Hval & Hall) Hc.
  pose proof (len_nonneg source) as Hlen.
  rewrite uint_small in Hc by lia. apply Z.ltb_lt in Hc.
  destruct (byte_at_exists source (pointer (i_cur st))) as [c Hat]; [lia|].
  unfold lexIdentifier_body. rewrite (index_at _ _ _ Hat). simpl bind.
  change (isAlphabetical c || (byte_leb "0" c && byte_leb c "9")
          || byte_eqb c "$" || byte_eqb c "_") with (ident_byte c).
  destruct (ident_byte c) eqn:Hid.
  - eexists; split; [reflexivity|].
    unfold Inv, measure, ident_post. simpl.
    rewrite uint_small by lia. split; [|lia].
    split; [lia|]. split; [|split].
    + rewrite Hloc. simpl. rewrite uint_succ. do 2 f_equal. lia.
    + rewrite (sub_snoc _ _ _ c) by (assumption || lia).
      rewrite Hval. reflexivity.
    + apply Forall_app. split; [assumption|]. repeat constructor. exact Hid.
  - eexists; split; [reflexivity|]. simpl. split.
    + unfold Inv. repeat split; assumption || lia.
    + right. exists c. split; assumption.
Qed.

Lemma lexIdentifier_bare (token : Token) (cur : cursor) :
  lexIdentifier source ic = Val (Some token, cur, true) ->
  Kind token = IdentifierKind ->
  (exists c, byte_at source (pointer ic) c /\ isAlphabetical c = true)
  /\ pointer ic < pointer cur <= len source
  /\ Forall (fun c => ident_byte c = true)
            (sub source (pointer ic) (pointer cur))
  /\ stops_at source (pointer cur) ident_byte
  /\ token = {| Value := ToLower (sub source (pointer ic) (pointer cur));
                Kind := IdentifierKind; Loc := loc ic |}
  /\ loc cur = {| Line := Line (loc ic);
                  Col := uint (Col (loc ic) + (pointer cur - pointer ic)) |}.
Proof.
  pose proof (len_nonneg source) as Hlen.
  unfold lexIdentifier.
  destruct (lexCharacterDelimited_spec source source_len ic dquote)
    as (r & Hr & Hcase); [lia|].
  rewrite Hr. simpl bind.
  destruct Hcase as [-> | (cur' & _ & _ & _ & _ & ->)].
  2:{ intros H. injection H as <- _. discriminate. }
  unfold no_match.
  destruct (byte_at_exists source (pointer ic)) as [c Hat]; [lia|].
  rewrite (index_at _ _ _ Hat). simpl bind.
  destruct (isAlphabetical c) eqn:Halpha; simpl negb; cbv iota.
  2:{ intros H. discriminate H. }
  destruct (for_loop_total
              (fun st => pointer (i_cur st) <? uint (len source))
              ident_post (lexIdentifier_body source) Inv measure Post)
    with (fuel := S (length source))
         (s := {| i_cur := incr_Col (incr_pointer ic); i_value := [c] |})
    as (r' & Hr' & HP).
  - intros s HI Hc. apply ident_shape_body; assumption.
  - intros s HI Hc. split; [exact HI|]. left.
    rewrite uint_small in Hc by lia. apply Z.ltb_ge in Hc.
    destruct HI as [Hq _]. lia.
  - unfold Inv. simpl. rewrite uint_small by lia.
    rewrite (sub_one _ _ c) by assumption.
    split; [lia|]. split; [|split; [reflexivity|]].
    + do 2 f_equal. replace (pointer ic + 1 - pointer ic) with 1 by lia.
      reflexivity.
    + repeat constructor. unfold ident_byte. rewrite Halpha. reflexivity.
  - unfold measure, len in *. simpl. rewrite uint_small by lia. lia.
  - rewrite Hr'. simpl bind. destruct r' as [st|[]].
    destruct HP as [(Hq & Hloc & Hval & Hall) Hstop].
    assert (Hl : len (i_value st) = pointer (i_cur st) - pointer ic).
    { rewrite Hval. apply len_sub; lia. }
    destruct (len (i_value st) =? 0) eqn:E.
    { apply Z.eqb_eq in E. lia. }
    intros H Hkind. injection H as <- <-.
    split; [exists c; split; assumption|]. split; [lia|].
    rewrite <- Hval. repeat split; assumption.
Qed.
End IdentifierShape.

Section DelimitedShape.
Variable source : bytes.
Hypothesis source_len : len source < 2 ^ 63.
Variable ic : cursor.
Variable delimiter : ascii.
Hypothesis ic_range : 0 <= pointer ic <= len source.

(** The byte test of the delimiter. *)
Let is_delimiter (c : ascii) : bool := byte_eqb c delimiter.

Let shape (r : lexed) : Prop :=
  exists cur,
    pointer ic < pointer cur < len source
    /\ byte_at source (pointer ic) delimiter
    /\ byte_at source (pointer cur) delimiter
    /\ stops_at source (pointer cur + 1) is_delimiter
    /\ loc cur = {| Line := Line (loc ic);
                    Col := uint (Col (loc ic) + (pointer cur - pointer ic)) |}
    /\ r = (Some {| Value := sub source (pointer ic + 1) (pointer cur);
                    Kind := StringKind; Loc := loc ic |}, cur, true).

Let Inv (st : delimited_state) : Prop :=
  byte_at source (pointer ic) delimiter
  /\ pointer ic + 1 <= pointer (d_cur st) <= len source
  /\ loc (d_cur st)
     = {| Line := Line (loc ic);
          Col := uint (Col (loc ic) + (pointer (d_cur st) - pointer ic)) |}
  /\ d_value st = sub source (pointer ic + 1) (pointer (d_cur st)).

Let Post (r : delimited_state + lexed) : Prop :=
  match r with
  | inl _ => True
  | inr res => shape res
  end.

Let measure (st : delimited_state) : nat :=
  Z.to_nat (len source - pointer (d_cur st)).

Lemma delimited_shape_body (st : delimited_state) :
  Inv st ->
  (pointer (d_cur st) <? uint (len source)) = true ->
  exists c, lexCharacterDelimited_body source ic delimiter st = Val c /\
    match c with
    | Next s' =>
        Inv (delimited_post s')
        /\ (measure (delimited_post s') < measure st)%nat
    | Break s' => Post (inl s')
    | Return r => Post (inr r)
    end.
Proof.
  intros (Hopen & Hq & Hloc & Hval) Hc.
  pose proof (len_nonneg source) as Hlen.
  rewrite uint_small in Hc by lia. apply Z.ltb_lt in Hc.
  destruct (byte_at_exists source (pointer (d_cur st))) as [c Hat]; [lia|].
  unfold lexCharacterDelimited_body. rewrite (index_at _ _ _ Hat).
  simpl bind.
  assert (Hone : Inv (delimited_post
                        {| d_cur := incr_Col (d_cur st);
                           d_value := d_value st ++ [c] |})
                 /\ (measure (delimited_post
                                {| d_cur := incr_Col (d_cur st);
                                   d_value := d_value st ++ [c] |})
                     < measure st)%nat).
  { unfold Inv, measure, delimited_post. simpl.
    rewrite uint_small by lia. split; [|lia].
    split; [exact Hopen|]. split; [lia|]. split.
    - rewrite Hloc. simpl. rewrite uint_succ. do 2 f_equal. lia.
    - rewrite (sub_snoc _ _ _ c) by (assumption || lia).
      rewrite Hval. reflexivity. }
  assert (Hclose : byte_eqb c delimiter = true ->
            stops_at source (pointer (d_cur st) + 1) is_delimiter ->
            shape (Some {| Value := d_value st; Kind := StringKind;
                           Loc := loc ic |}, d_cur st, true)).
  { intros E Hstop. apply byte_eqb_eq in E. subst c. exists (d_cur st).
    rewrite Hval. repeat split; try (assumption || lia);
      destruct Hopen, Hat; assumption. }
  destruct (byte_eqb c delimiter) eqn:Hdelim; [|eauto].
  rewrite !uint_small by lia. rewrite Z.geb_leb.
  destruct (len source <=? pointer (d_cur st) + 1) eqn:Hend.
  { simpl bind. eexists; split; [reflexivity|]. apply Hclose; [reflexivity|].
    left. apply Z.leb_le in Hend. lia. }
  apply Z.leb_gt in Hend.
  destruct (byte_at_exists source (pointer (d_cur st) + 1)) as [d Hd];
    [lia|].
  rewrite (index_at _ _ _ Hd). simpl bind.
  destruct (byte_eqb d delimiter) eqn:Hnext; simpl negb; cbv iota.
  - eexists; split; [reflexivity|].
    apply byte_eqb_eq in Hdelim, Hnext. subst c d.
    unfold Inv, measure, delimited_post. simpl.
    rewrite (uint_small (pointer (d_cur st) + 1)) by lia.
    rewrite !uint_small by lia. split; [|lia].
    split; [exact Hopen|]. split; [lia|]. split.
    + rewrite Hloc. simpl. rewrite uint_succ_succ. do 2 f_equal. lia.
    + rewrite (sub_snoc _ _ _ delimiter) by (assumption || lia).
      rewrite (sub_snoc _ _ _ delimiter) by (assumption || lia).
      rewrite Hval. reflexivity.
  - eexists; split; [reflexivity|]. apply Hclose; [reflexivity|].
    right. exists d. split; [exact Hd|exact Hnext].
Qed.

Lemma lexCharacterDelimited_shape (token : option Token) (cur : cursor) :
  lexCharacterDelimited source ic delimiter = Val (token, cur, true) ->
  pointer ic < pointer cur < len source
  /\ byte_at source (pointer ic) delimiter
  /\ byte_at source (pointer cur) delimiter
  /\ stops_at source (pointer cur + 1) (fun c => byte_eqb c delimiter)
  /\ loc cur = {| Line := Line (loc ic);
                  Col := uint (Col (loc ic) + (pointer cur - pointer ic)) |}
  /\ token = Some {| Value := sub source (pointer ic + 1) (pointer cur);
                     Kind := StringKind; Loc := loc ic |}.
Proof.
  pose proof (len_nonneg source) as Hlen.
  unfold lexCharacterDelimited. rewrite slice_sub by lia. simpl bind.
  rewrite len_sub by lia.
  destruct (len source - pointer ic =? 0) eqn:Hempty.
  { intros H. discriminate H. }
  apply Z.eqb_neq in Hempty.
  destruct (byte_at_exists source (pointer ic)) as [c Hat]; [lia|].
  rewrite (index_at _ _ _ Hat). simpl bind.
  destruct (byte_eqb c delimiter) eqn:Hdelim; simpl negb; cbv iota.
  2:{ intros H. discriminate H. }
  apply byte_eqb_eq in Hdelim. subst c.
  destruct (for_loop_total
              (fun st => pointer (d_cur st) <? uint (len source))
              delimited_post
              (lexCharacterDelimited_body source ic delimiter)
              Inv measure Post)
    with (fuel := S (length source))
         (s := {| d_cur := incr_pointer (incr_Col ic); d_value := [] |})
    as (r & Hr & HP).
  - intros s HI Hc. apply delimited_shape_body; assumption.
  - intros s _ _. exact I.
  - unfold Inv. simpl. rewrite uint_small by lia. rewrite sub_nil.
    split; [exact Hat|]. split; [lia|]. split; [|reflexivity].
    do 2 f_equal. replace (pointer ic + 1 - pointer ic) with 1 by lia.
    reflexivity.
  - unfold measure, len in *. simpl. rewrite uint_small by lia. lia.
  - rewrite Hr. simpl bind. destruct r as [st|res].
    + intros H. discriminate H.
    + destruct HP as (cur' & Hq & Ho & Hcl & Hstop & Hloc & ->).
      intros H. injection H as <- <-.
      split; [lia|]. split; [exact Ho|]. split; [exact Hcl|].
      split; [exact Hstop|]. split; [exact Hloc|reflexivity].
Qed.
End DelimitedShape.

(** ** The contracts of the scanners *)

(** [equals] holds of two tokens exactly when they have the same value and
    the same kind. *)
Lemma equals_spec (t other : Token) :
  equals t other = true <-> Value t = Value other /\ Kind t = Kind other.
Proof.
  unfold equals. rewrite andb_true_iff, bytes_eqb_eq.
  assert (Hk : TokenKind_eqb (Kind t) (Kind other) = true
               <-> Kind t = Kind other).
  { destruct (Kind t), (Kind other); simpl; split; intros H;
      reflexivity || discriminate H. }
  rewrite Hk. reflexivity.
Qed.

(** X2: the value of a numeric token is the text the cursor has moved over;
    it is a mantissa of digits with at most one period, which is not empty,
    followed or not by an exponent: [e], at most one sign, and digits; and
    the scan has stopped at the end of the source or before a byte that is
    neither a digit, nor a period, nor [e]. *)
Theorem lexNumeric_matches_grammar (source : bytes) (ic : cursor)
    (token : Token) (cur : cursor) :
  len source < 2 ^ 63 ->
  0 <= pointer ic <= len source ->
  lexNumeric source ic = Val (Some token, cur, true) ->
  Value token = sub source (pointer ic) (pointer cur)
  /\ numeric_text (Value token)
  /\ pointer ic < pointer cur <= len source
  /\ stops_at source (pointer cur) numeric_more.
Proof. intros Hlen Hp. apply lexNumeric_grammar; assumption. Qed.

Lemma lexNumeric_matches_grammar_witness :
  len (B "2.5e+7,") < 2 ^ 63
  /\ 0 <= pointer cursor0 <= len (B "2.5e+7,")
  /\ lexNumeric (B "2.5e+7,") cursor0
     = Val (Some (tok "2.5e+7" NumericKind 0 0),
            {| pointer := 6; loc := {| Line := 0; Col := 7 |} |}, true)
  /\ numeric_text (B "2.5e+7")
  /\ stops_at (B "2.5e+7,") 6 numeric_more.
Proof.
  assert (H : lexNumeric (B "2.5e+7,") cursor0
              = Val (Some (tok "2.5e+7" NumericKind 0 0),
                     {| pointer := 6; loc := {| Line := 0; Col := 7 |} |},
                     true)) by (vm_compute; reflexivity).
  split; [reflexivity|]. split; [split; discriminate|]. split; [exact H|].
  destruct (lexNumeric_matches_grammar (B "2.5e+7,") cursor0 _ _ eq_refl
              ltac:(split; discriminate) H)
    as (_ & Hg & _ & Hs).
  split; [exact Hg|exact Hs].
Defined.

(** X3: a bare identifier that [lexIdentifier] matches starts at an ASCII
    letter, is made of letters, digits, [$] and [_], and runs on to the end
    of the source or to the first byte that is none of these; the value of
    the token is that text in lower case, and pointer and column have moved
    forward by its length, on the same line. *)
Theorem lexIdentifier_bare_shape (source : bytes) (ic : cursor)
    (token : Token) (cur : cursor) :
  len source < 2 ^ 63 ->
  0 <= pointer ic < len source ->
  lexIdentifier source ic = Val (Some token, cur, true) ->
  Kind token = IdentifierKind ->
  (exists c, byte_at source (pointer ic) c /\ isAlphabetical c = true)
  /\ pointer ic < pointer cur <= len source
  /\ Forall (fun c => ident_byte c = true)
            (sub source (pointer ic) (pointer cur))
  /\ stops_at source (pointer cur) ident_byte
  /\ token = {| Value := ToLower (sub source (pointer ic) (pointer cur));
                Kind := IdentifierKind; Loc := loc ic |}
  /\ loc cur = {| Line := Line (loc ic);
                  Col := uint (Col (loc ic) + (pointer cur - pointer ic)) |}.
Proof. intros Hlen Hp. apply lexIdentifier_bare; assumption. Qed.

Lemma lexIdentifier_bare_shape_witness :
  len (B "Tab_1 x") < 2 ^ 63
  /\ 0 <= pointer cursor0 < len (B "Tab_1 x")
  /\ lexIdentifier (B "Tab_1 x") cursor0
     = Val (Some (tok "tab_1" IdentifierKind 0 0),
            {| pointer := 5; loc := {| Line := 0; Col := 5 |} |}, true)
  /\ stops_at (B "Tab_1 x") 5 ident_byte.
Proof.
  assert (H : lexIdentifier (B "Tab_1 x") cursor0
              = Val (Some (tok "tab_1" IdentifierKind 0 0),
                     {| pointer := 5; loc := {| Line := 0; Col := 5 |} |},
                     true)) by (vm_compute; reflexivity).
  split; [reflexivity|]. split; [split; [discriminate|reflexivity]|].
  split; [exact H|].
  destruct (lexIdentifier_bare_shape (B "Tab_1 x") cursor0 _ _ eq_refl
              ltac:(split; [discriminate|reflexivity]) H eq_refl)
    as (_ & _ & _ & Hs & _).
  exact Hs.
Defined.

(** X4: a match of [lexCharacterDelimited] starts on the delimiter and ends
    on a later delimiter that is the last byte of the source or is not
    followed by the delimiter; the cursor it returns stands on that closing
    delimiter, on the same line, its column moved as far as its pointer; the
    token has kind [StringKind] and its value is the text strictly between
    the two delimiters. *)
Theorem lexCharacterDelimited_match_shape (source : bytes) (ic : cursor)
    (delimiter : ascii) (token : option Token) (cur : cursor) :
  len source < 2 ^ 63 ->
  0 <= pointer ic <= len source ->
  lexCharacterDelimited source ic delimiter = Val (token, cur, true) ->
  pointer ic < pointer cur < len source
  /\ byte_at source (pointer ic) delimiter
  /\ byte_at source (pointer cur) delimiter
  /\ stops_at source (pointer cur + 1) (fun c => byte_eqb c delimiter)
  /\ loc cur = {| Line := Line (loc ic);
                  Col := uint (Col (loc ic) + (pointer cur - pointer ic)) |}
  /\ token = Some {| Value := sub source (pointer ic + 1) (pointer cur);
                     Kind := StringKind; Loc := loc ic |}.
Proof. intros Hlen Hp. apply lexCharacterDelimited_shape; assumption. Qed.

Lemma lexCharacterDelimited_match_shape_witness :
  len (B "'ab' c") < 2 ^ 63
  /\ 0 <= pointer cursor0 <= len (B "'ab' c")
  /\ lexCharacterDelimited (B "'ab' c") cursor0 squote
     = Val (Some (tok "ab" StringKind 0 0),
            {| pointer := 3; loc := {| Line := 0; Col := 3 |} |}, true)
  /\ byte_at (B "'ab' c") 3 squote
  /\ stops_at (B "'ab' c") (3 + 1) (fun c => byte_eqb c squote).
Proof.
  assert (H : lexCharacterDelimited (B "'ab' c") cursor0 squote
              = Val (Some (tok "ab" StringKind 0 0),
                     {| pointer := 3; loc := {| Line := 0; Col := 3 |} |},
                     true)) by (vm_compute; reflexivity).
  split; [reflexivity|]. split; [split; discriminate|]. split; [exact H|].
  destruct (lexCharacterDelimited_match_shape (B "'ab' c") cursor0 squote
              _ _ eq_refl
              ltac:(split; discriminate) H)
    as (_ & _ & Hc & Hs & _).
  split; [exact Hc|exact Hs].
Defined.

(** X5: [lexCharacterDelimited] reports no match, and gives back the cursor
    it was given, whenever no byte behind the cursor is the delimiter: text
    that opens with a delimiter and never closes is not matched. *)
Theorem lexCharacterDelimited_unterminated (source : bytes) (ic : cursor)
    (delimiter : ascii) :
  len source < 2 ^ 63 ->
  0 <= pointer ic <= len source ->
  (forall q, pointer ic < q -> ~ byte_at source q delimiter) ->
  lexCharacterDelimited source ic delimiter = Val (no_match ic).
Proof.
  intros Hlen Hp Hnone.
  destruct (lexCharacterDelimited_spec source Hlen ic delimiter Hp)
    as (r & Hr & [->|(cur & Hq & _ & Hc & _)]); [exact Hr|].
  exfalso. apply (Hnone (pointer cur)); [lia|exact Hc].
Qed.

Lemma lexCharacterDelimited_unterminated_witness :
  len (B "'abc") < 2 ^ 63
  /\ 0 <= pointer cursor0 <= len (B "'abc")
  /\ (forall q, pointer cursor0 < q -> ~ byte_at (B "'abc") q squote)
  /\ lexCharacterDelimited (B "'abc") cursor0 squote = Val (no_match cursor0).
Proof.
  assert (Hnone : forall q, pointer cursor0 < q ->
                            ~ byte_at (B "'abc") q squote).
  { intros q Hq [_ Hat]. simpl in Hq.
    destruct (Z.to_nat q) as [|[|[|[|n]]]] eqn:E; simpl in Hat;
      try discriminate Hat; try lia.
    destruct n; discriminate Hat. }
  split; [reflexivity|]. split; [split; discriminate|]. split; [exact Hnone|].
  apply lexCharacterDelimited_unterminated.
  - reflexivity.
  - split; discriminate.
  - exact Hnone.
Defined.

(** Either no option is the text at the cursor and [longestMatch] returns
    the empty string, or it returns the longest option that is. *)
Lemma longestMatch_cases (source : bytes) (ic : cursor)
    (options : list bytes) :
  len source < 2 ^ 63 ->
  0 <= pointer ic <= len source ->
  Forall (fun o => o <> []) options ->
  Forall (Forall (fun c => ascii7 c = true)) options ->
  exists m,
    longestMatch source ic options = Val m
    /\ ((m = [] /\ forall o, In o options -> ~ text_at source ic o)
        \/ (In m options /\ text_at source ic m
            /\ forall o, In o options -> text_at source ic o ->
                         len o <= len m)).
Proof.
  intros Hlen Hp Hne Hascii.
  destruct (longestMatch_spec source Hlen ic options Hp Hne)
    as (m & Hm & Hsound & Hlongest).
  exists m. split; [exact Hm|].
  assert (Hlong : forall o, In o options -> text_at source ic o ->
                            len o <= len m).
  { intros o Hin Ht. apply Hlongest; [exact Hin|].
    apply (matches_here_text_at source ic options Hascii o Hin). exact Ht. }
  destruct Hsound as [->|(Hin & k & Hk1 & Hk2 & Hk)].
  - left. split; [reflexivity|]. intros o Hin Ht.
    specialize (Hlong o Hin Ht). rewrite len_nil in Hlong.
    pose proof (proj1 (Forall_forall _ _) Hne _ Hin) as Ho.
    destruct o; [congruence|]. rewrite len_cons in Hlong.
    pose proof (len_nonneg o). lia.
  - right. split; [exact Hin|]. split; [|exact Hlong].
    pose proof (proj1 (Forall_forall _ _) Hascii _ Hin) as Hm7.
    assert (Ht : ToLower (sub source (pointer ic) (pointer ic + k)) = m).
    { apply lower_text_ascii; [exact Hm7|]. symmetry. exact Hk. }
    assert (Hkm : len m = k).
    { rewrite <- Ht, len_ToLower, len_sub by lia. lia. }
    split; [lia|]. rewrite Hkm. exact Ht.
Qed.

Lemma lower_byte_idem (c : ascii) : lower_byte (lower_byte c) = lower_byte c.
Proof.
  assert (Hall : forall c,
             byte_eqb (lower_byte (lower_byte c)) (lower_byte c) = true).
  { apply forall_byte. vm_compute. reflexivity. }
  apply byte_eqb_eq. apply Hall.
Qed.

(** X6: [longestMatch] lowers the source and takes the options as they are
    written.  On options that are ASCII and not empty it returns the empty
    string exactly when no option is equal to the text at the cursor with
    its ASCII capital letters lowered; otherwise it returns an option that
    is equal to that lowered text and that is at least as long as every
    other such option.  An option that holds an ASCII capital letter is
    never equal to the lowered text, whatever the source. *)
Theorem longestMatch_contract (source : bytes) (ic : cursor)
    (options : list bytes) :
  len source < 2 ^ 63 ->
  0 <= pointer ic <= len source ->
  Forall (fun o => o <> []) options ->
  Forall (Forall (fun c => ascii7 c = true)) options ->
  (exists m,
     longestMatch source ic options = Val m
     /\ ((m = [] /\ forall o, In o options -> ~ text_at source ic o)
         \/ (In m options /\ text_at source ic m
             /\ forall o, In o options -> text_at source ic o ->
                          len o <= len m)))
  /\ (forall o, In o options -> ToLower o <> o -> ~ text_at source ic o).
Proof.
  intros Hlen Hp Hne Hascii.
  split; [apply longestMatch_cases; assumption|].
  intros o _ Hcap [_ Ht]. apply Hcap. rewrite <- Ht.
  unfold ToLower. rewrite map_map. apply map_ext. intros c.
  apply lower_byte_idem.
Qed.

Lemma longestMatch_contract_witness :
  len (B "Into x") < 2 ^ 63
  /\ 0 <= pointer cursor0 <= len (B "Into x")
  /\ (exists m,
        longestMatch (B "Into x") cursor0 keywords = Val m
        /\ ((m = []
             /\ forall o, In o keywords -> ~ text_at (B "Into x") cursor0 o)
            \/ (In m keywords /\ text_at (B "Into x") cursor0 m
                /\ forall o, In o keywords ->
                             text_at (B "Into x") cursor0 o ->
                             len o <= len m)))
  /\ (forall o, In o keywords -> ToLower o <> o ->
                ~ text_at (B "Into x") cursor0 o).
Proof.
  split; [reflexivity|]. split; [split; discriminate|].
  apply longestMatch_contract.
  - reflexivity.
  - split; discriminate.
  - repeat constructor; discriminate.
  - repeat constructor.
Defined.

(** X7: the answer of [longestMatch] does not depend on the order of the
    options, as long as they are ASCII and not empty. *)
Theorem longestMatch_order_independent (source : bytes) (ic : cursor)
    (options options' : list bytes) :
  len source < 2 ^ 63 ->
  0 <= pointer ic <= len source ->
  Forall (fun o => o <> []) options ->
  Forall (Forall (fun c => ascii7 c = true)) options ->
  Permutation options options' ->
  longestMatch source ic options = longestMatch source ic options'.
Proof.
  intros Hlen Hp Hne Hascii Hperm.
  assert (Hne' : Forall (fun o => o <> []) options')
    by (eapply Permutation_Forall; eassumption).
  assert (Hascii' : Forall (Forall (fun c => ascii7 c = true)) options')
    by (eapply Permutation_Forall; eassumption).
  destruct (longestMatch_cases source ic options Hlen Hp Hne Hascii)
    as (m & -> & Hm).
  destruct (longestMatch_cases source ic options' Hlen Hp Hne' Hascii')
    as (m' & -> & Hm').
  f_equal.
  destruct Hm as [[-> Hnone]|(Hin & Ht & Hlong)];
    destruct Hm' as [[-> Hnone']|(Hin' & Ht' & Hlong')].
  - reflexivity.
  - exfalso. apply (Hnone m'); [|exact Ht'].
    eapply Permutation_in; [apply Permutation_sym; exact Hperm|exact Hin'].
  - exfalso. apply (Hnone' m); [|exact Ht].
    eapply Permutation_in; [exact Hperm|exact Hin].
  - assert (Hlen_eq : len m = len m').
    { assert (len m' <= len m).
      { apply Hlong; [|exact Ht'].
        eapply Permutation_in; [apply Permutation_sym; exact Hperm|exact Hin']. }
      assert (len m <= len m').
      { apply Hlong'; [|exact Ht].
        eapply Permutation_in; [exact Hperm|exact Hin]. }
      lia. }
    destruct Ht as [_ Ht], Ht' as [_ Ht'].
    rewrite <- Ht, <- Ht', Hlen_eq. reflexivity.
Qed.

Lemma longestMatch_order_independent_witness :
  len (B "into") < 2 ^ 63
  /\ 0 <= pointer cursor0 <= len (B "into")
  /\ Permutation [IntKeyword; IntoKeyword] [IntoKeyword; IntKeyword]
  /\ longestMatch (B "into") cursor0 [IntKeyword; IntoKeyword]
     = longestMatch (B "into") cursor0 [IntoKeyword; IntKeyword].
Proof.
  split; [reflexivity|]. split; [split; discriminate|].
  split; [apply perm_swap|].
  apply longestMatch_order_independent.
  - reflexivity.
  - split; discriminate.
  - repeat constructor; discriminate.
  - repeat constructor.
  - apply perm_swap.
Defined.

(** The two outcomes of [lexKeyword] at a cursor inside the source. *)
Lemma lexKeyword_cases (source : bytes) (ic : cursor) :
  len source < 2 ^ 63 ->
  0 <= pointer ic < len source ->
  (lexKeyword source ic = Val (no_match ic)
   /\ forall k, In k keywords -> ~ text_at source ic k)
  \/ exists k,
       In k keywords /\ text_at source ic k
       /\ (forall o, In o keywords -> text_at source ic o -> len o <= len k)
       /\ lexKeyword source ic
          = Val (Some {| Value := k; Kind := KeywordKind; Loc := loc ic |},
                 {| pointer := pointer ic + len k;
                    loc := {| Line := Line (loc ic);
                              Col := uint (Col (loc ic) + len k) |} |},
                 true).
Proof.
  intros Hlen Hp.
  destruct (lexKeyword_spec source Hlen ic Hp)
    as (r & Hr & [[-> Hnone]|(k & Hin & _ & Ht & Hlong & ->)]).
  - left. split; assumption.
  - right. exists k. repeat split; try assumption; apply Ht.
Qed.

(** X8: at a cursor inside the source [lexKeyword] reports no match, and
    gives back the cursor, exactly when no keyword is, case apart, the text
    at the cursor; otherwise its token is the longest keyword that is, in
    the spelling of the keyword list, and pointer and column have moved
    forward by the length of that keyword, on the same line. *)
Theorem lexKeyword_contract (source : bytes) (ic : cursor) :
  len source < 2 ^ 63 ->
  0 <= pointer ic < len source ->
  (lexKeyword source ic = Val (no_match ic)
   /\ forall k, In k keywords -> ~ text_at source ic k)
  \/ exists k,
       In k keywords /\ text_at source ic k
       /\ (forall o, In o keywords -> text_at source ic o -> len o <= len k)
       /\ lexKeyword source ic
          = Val (Some {| Value := k; Kind := KeywordKind; Loc := loc ic |},
                 {| pointer := pointer ic + len k;
                    loc := {| Line := Line (loc ic);
                              Col := uint (Col (loc ic) + len k) |} |},
                 true).
Proof. exact (lexKeyword_cases source ic). Qed.

Lemma lexKeyword_contract_witness :
  len (B "SeLeCt 1") < 2 ^ 63
  /\ 0 <= pointer cursor0 < len (B "SeLeCt 1")
  /\ ((lexKeyword (B "SeLeCt 1") cursor0 = Val (no_match cursor0)
       /\ forall k, In k keywords -> ~ text_at (B "SeLeCt 1") cursor0 k)
      \/ exists k,
           In k keywords /\ text_at (B "SeLeCt 1") cursor0 k
           /\ (forall o, In o keywords -> text_at (B "SeLeCt 1") cursor0 o ->
                         len o <= len k)
           /\ lexKeyword (B "SeLeCt 1") cursor0
              = Val (Some {| Value := k; Kind := KeywordKind;
                             Loc := loc cursor0 |},
                     {| pointer := pointer cursor0 + len k;
                        loc := {| Line := Line (loc cursor0);
                                  Col := uint (Col (loc cursor0) + len k) |} |},
                     true)).
Proof.
  split; [reflexivity|]. split; [split; [discriminate|reflexivity]|].
  apply lexKeyword_contract.
  - reflexivity.
  - split; [discriminate|reflexivity].
Defined.

Lemma symbol_bytes (c : ascii) :
  In [lower_byte c] symbols -> lower_byte c = c /\ is_space c = false.
Proof.
  assert (Hall : forall c,
             implb (existsb (bytes_eqb [lower_byte c]) symbols)
                   (byte_eqb (lower_byte c) c && negb (is_space c)) = true).
  { apply forall_byte. vm_compute. reflexivity. }
  intros Hin. specialize (Hall c).
  assert (He : existsb (bytes_eqb [lower_byte c]) symbols = true).
  { apply existsb_exists. exists [lower_byte c]. split; [exact Hin|].
    apply bytes_eqb_eq. reflexivity. }
  rewrite He in Hall. simpl in Hall. apply andb_true_iff in Hall.
  destruct Hall as [H1 H2]. split; [apply byte_eqb_eq; exact H1|].
  apply negb_true_iff. exact H2.
Qed.

Lemma symbols_one_byte (m : bytes) : In m symbols -> len m = 1.
Proof.
  intros Hin. simpl in Hin.
  repeat (destruct Hin as [<-|Hin]; [reflexivity|]). destruct Hin.
Qed.

(** The three outcomes of [lexSymbol] at a byte inside the source. *)
Lemma lexSymbol_cases (source : bytes) (ic : cursor) (c : ascii) :
  len source < 2 ^ 63 ->
  byte_at source (pointer ic) c ->
  lexSymbol source ic
  = Val (if is_space c then
           (None,
            {| pointer := pointer ic + 1;
               loc := if is_newline c
                      then {| Line := uint (Line (loc ic) + 1); Col := 0 |}
                      else {| Line := Line (loc ic);
                              Col := uint (Col (loc ic) + 1) |} |},
            true)
         else if existsb (bytes_eqb [c]) symbols then
           (Some {| Value := [c]; Kind := SymbolKind; Loc := loc ic |},
            {| pointer := pointer ic + 1;
               loc := {| Line := Line (loc ic);
                         Col := uint (Col (loc ic) + 1) |} |},
            true)
         else no_match ic).
Proof.
  intros Hlen Hat. pose proof (byte_at_lt _ _ _ Hat) as Hlt.
  assert (Hp : 0 <= pointer ic < len source) by (destruct Hat; lia).
  destruct (lexSymbol_spec source Hlen ic Hp) as (r & Hr & Hcase).
  rewrite Hr. f_equal.
  assert (Hone : forall m, In m symbols -> text_at source ic m ->
                           m = [c] /\ is_space c = false).
  { intros m Hin Ht. pose proof (symbols_one_byte m Hin) as Hm.
    destruct (text_at_first source ic m c (proj1 Hp) ltac:(lia) Ht Hat)
      as [rest ->].
    rewrite len_cons in Hm. assert (Hr0 : rest = []) by (apply len_zero_nil; lia).
    subst rest. destruct (symbol_bytes c Hin) as [E Hs]. rewrite E. auto. }
  destruct Hcase as [(d & Hd & Hs & ->)|[[-> Hnone]|(m & Hin & _ & Ht & _ & ->)]].
  - rewrite (byte_at_fun _ _ _ _ Hd Hat) in *. rewrite Hs. reflexivity.
  - destruct (is_space c) eqn:Hs.
    + exfalso. revert Hr. unfold lexSymbol. rewrite (index_at _ _ _ Hat). simpl bind.
      unfold is_space in Hs.
      destruct (byte_eqb c "010"); [discriminate|].
      destruct (byte_eqb c "009"); [discriminate|].
      destruct (byte_eqb c " "); [discriminate|]. discriminate Hs.
    + destruct (existsb (bytes_eqb [c]) symbols) eqn:He; [|reflexivity].
      exfalso. apply existsb_exists in He. destruct He as (m & Hin & E).
      apply bytes_eqb_eq in E. subst m. apply (Hnone [c] Hin).
      split.
      * unfold len at 1. simpl. lia.
      * unfold len at 1. simpl. rewrite (sub_one _ _ c Hat). simpl.
        assert (Hl : lower_byte c = c).
        { assert (Hall : forall c,
                     implb (existsb (bytes_eqb [c]) symbols)
                           (byte_eqb (lower_byte c) c) = true).
          { apply forall_byte. vm_compute. reflexivity. }
          specialize (Hall c).
          assert (He : existsb (bytes_eqb [c]) symbols = true).
          { apply existsb_exists. exists [c]. split; [exact Hin|].
            apply bytes_eqb_eq. reflexivity. }
          rewrite He in Hall. apply byte_eqb_eq. exact Hall. }
        rewrite Hl. reflexivity.
  - destruct (Hone m Hin Ht) as [-> Hs]. rewrite Hs.
    assert (He : existsb (bytes_eqb [c]) symbols = true).
    { apply existsb_exists. exists [c]. split; [exact Hin|].
      apply bytes_eqb_eq. reflexivity. }
    rewrite He. reflexivity.
Qed.

(** X9: at a byte [c] inside the source [lexSymbol] does one of three
    things.  On a newline, a tab or a space it matches without a token and
    moves the pointer by one; a newline starts a new line at column 0, a tab
    or a space adds one to the column.  On one of the five symbols it
    returns that one byte as a token of kind [SymbolKind] and moves pointer
    and column by one.  On every other byte it reports no match and gives
    back the cursor. *)
Theorem lexSymbol_contract (source : bytes) (ic : cursor) (c : ascii) :
  len source < 2 ^ 63 ->
  byte_at source (pointer ic) c ->
  lexSymbol source ic
  = Val (if is_space c then
           (None,
            {| pointer := pointer ic + 1;
               loc := if is_newline c
                      then {| Line := uint (Line (loc ic) + 1); Col := 0 |}
                      else {| Line := Line (loc ic);
                              Col := uint (Col (loc ic) + 1) |} |},
            true)
         else if existsb (bytes_eqb [c]) symbols then
           (Some {| Value := [c]; Kind := SymbolKind; Loc := loc ic |},
            {| pointer := pointer ic + 1;
               loc := {| Line := Line (loc ic);
                         Col := uint (Col (loc ic) + 1) |} |},
            true)
         else no_match ic).
Proof. exact (lexSymbol_cases source ic c). Qed.

Lemma lexSymbol_contract_witness :
  len (B "(a)") < 2 ^ 63
  /\ byte_at (B "(a)") (pointer cursor0) "("
  /\ lexSymbol (B "(a)") cursor0
     = Val (Some {| Value := ["("%char]; Kind := SymbolKind;
                    Loc := loc cursor0 |},
            {| pointer := pointer cursor0 + 1;
               loc := {| Line := Line (loc cursor0);
                         Col := uint (Col (loc cursor0) + 1) |} |},
            true).
Proof.
  split; [reflexivity|]. split; [split; [discriminate|reflexivity]|].
  apply (lexSymbol_contract (B "(a)") cursor0 "(").
  - reflexivity.
  - split; [discriminate|reflexivity].
Defined.

(** X10: a scanner that reports no match at a cursor inside the source
    returns no token and exactly the cursor it was given. *)
Theorem scanner_miss_keeps_cursor (source : bytes) (l : lexer)
    (cur : cursor) (token : option Token) (newCursor : cursor) :
  len source < 2 ^ 63 ->
  0 <= pointer cur < len source ->
  In l lexers ->
  l source cur = Val (token, newCursor, false) ->
  token = None /\ newCursor = cur.
Proof.
  intros Hlen Hp Hin Hl.
  destruct (lexer_match source l cur _ Hlen Hp Hin Hl) as [E|Hm].
  - injection E as -> ->. split; reflexivity.
  - destruct (scanner_match_ok source cur _ Hm) as (t & c & E).
    discriminate E.
Qed.

Lemma scanner_miss_keeps_cursor_witness :
  len (B "1.2.3") < 2 ^ 63
  /\ 0 <= pointer cursor0 < len (B "1.2.3")
  /\ In lexNumeric lexers
  /\ lexNumeric (B "1.2.3") cursor0 = Val (None, cursor0, false)
  /\ @None Token = None /\ cursor0 = cursor0.
Proof.
  assert (Hin : In lexNumeric lexers) by (simpl; tauto).
  assert (H : lexNumeric (B "1.2.3") cursor0 = Val (None, cursor0, false))
    by (vm_compute; reflexivity).
  split; [reflexivity|]. split; [split; [discriminate|reflexivity]|].
  split; [exact Hin|]. split; [exact H|].
  apply (scanner_miss_keeps_cursor (B "1.2.3") lexNumeric cursor0).
  - reflexivity.
  - split; [discriminate|reflexivity].
  - exact Hin.
  - exact H.
Defined.

(** ** The driver *)

(** The first scanner of the list that matches is the one whose token and
    cursor the driver takes. *)
Lemma range_lexers_cons (l : lexer) (rest : list lexer) (source : bytes)
    (cur : cursor) (token : option Token) (newCursor : cursor) :
  range_lexers (l :: rest) source cur = Val (Some (token, newCursor)) ->
  l source cur = Val (token, newCursor, true)
  \/ ((exists t c, l source cur = Val (t, c, false))
      /\ range_lexers rest source cur = Val (Some (token, newCursor))).
Proof.
  simpl. destruct (l source cur) as [[[t c] ok]| |]; simpl;
    try discriminate.
  destruct ok.
  - intros H. injection H as -> ->. left. reflexivity.
  - intros H. right. split; [eauto|exact H].
Qed.

Lemma lexKeyword_miss (source : bytes) (cur : cursor) (t : option Token)
    (c : cursor) :
  len source < 2 ^ 63 -> 0 <= pointer cur < len source ->
  lexKeyword source cur = Val (t, c, false) ->
  forall k, In k keywords -> ~ text_at source cur k.
Proof.
  intros Hlen Hp H.
  destruct (lexKeyword_cases source cur Hlen Hp)
    as [[_ Hnone]|(k & _ & _ & _ & E)]; [exact Hnone|].
  rewrite H in E. discriminate E.
Qed.

Lemma keyword_first_letter (c : ascii) (rest : bytes) :
  In (c :: rest) keywords -> lower_letter c = true.
Proof.
  intros Hin. simpl in Hin.
  repeat (destruct Hin as [Hin|Hin]; [injection Hin as <- _; reflexivity|]).
  destruct Hin.
Qed.

Lemma space_not_letter (c : ascii) :
  is_space c = true -> lower_letter (lower_byte c) = false.
Proof.
  assert (Hall : forall c,
             implb (is_space c) (negb (lower_letter (lower_byte c))) = true).
  { apply forall_byte. vm_compute. reflexivity. }
  intros H. specialize (Hall c). rewrite H in Hall. apply negb_true_iff.
  exact Hall.
Qed.

(** On white space the driver takes the match of [lexSymbol], which has no
    token. *)
Lemma range_lexers_space (source : bytes) (cur : cursor) (c : ascii) :
  len source < 2 ^ 63 ->
  byte_at source (pointer cur) c -> is_space c = true ->
  range_lexers lexers source cur
  = Val (Some (None,
               {| pointer := pointer cur + 1;
                  loc := if is_newline c
                         then {| Line := uint (Line (loc cur) + 1); Col := 0 |}
                         else {| Line := Line (loc cur);
                                 Col := uint (Col (loc cur) + 1) |} |})).
Proof.
  intros Hlen Hat Hs. pose proof (byte_at_lt _ _ _ Hat) as Hlt.
  assert (Hp : 0 <= pointer cur < len source) by (destruct Hat; lia).
  unfold lexers. simpl range_lexers.
  destruct (lexKeyword_cases source cur Hlen Hp)
    as [[-> _]|(k & Hin & Ht & _)].
  2:{ exfalso.
      assert (Hk : 1 <= len k).
      { pose proof (proj1 (Forall_forall _ _) keywords_nonempty _ Hin) as Hne.
        destruct k; [congruence|]. rewrite len_cons.
        pose proof (len_nonneg k). lia. }
      destruct (text_at_first source cur k c (proj1 Hp) Hk Ht Hat) as [rest ->].
      pose proof (keyword_first_letter _ _ Hin) as Hl.
      rewrite (space_not_letter c Hs) in Hl. discriminate Hl. }
  simpl bind. rewrite (lexSymbol_cases source cur c Hlen Hat), Hs.
  reflexivity.
Qed.

Lemma column_after_app (text : bytes) (c : ascii) :
  column_after (text ++ [c])
  = if is_newline c then 0 else column_after text + 1.
Proof. unfold column_after. rewrite fold_left_app. reflexivity. Qed.

Lemma column_after_range (text : bytes) :
  0 <= column_after text <= len text.
Proof.
  unfold column_after.
  assert (H : forall l a, 0 <= a ->
             0 <= fold_left (fun col c => if is_newline c then 0 else col + 1)
                    l a <= a + len l).
  { induction l as [|c l IH]; intros a Ha; cbn [fold_left].
    - unfold len. simpl. lia.
    - rewrite len_cons. pose proof (len_nonneg l).
      destruct (is_newline c).
      + specialize (IH 0 ltac:(lia)). lia.
      + specialize (IH (a + 1) ltac:(lia)). lia. }
  specialize (H text 0 ltac:(lia)). lia.
Qed.

Lemma newlines_snoc (text : bytes) (c : ascii) :
  newlines (text ++ [c]) = newlines text + if is_newline c then 1 else 0.
Proof.
  rewrite newlines_app. f_equal. unfold newlines, is_newline. simpl.
  destruct (byte_eqb c "010"); reflexivity.
Qed.

(** X11: a source made of newlines, tabs and spaces only gives no token and
    no error, and the driver ends behind the last byte with the line and the
    column of that place: as many lines as the source has newlines, as many
    columns as there are bytes after the last newline. *)
Theorem lex_white_space_only (source : bytes) :
  len source < 2 ^ 63 ->
  Forall (fun c => is_space c = true) source ->
  lex source = Val (Tokens [])
  /\ exists st,
       lex_reaches source st
       /\ l_tokens st = []
       /\ pointer (l_cur st) = len source
       /\ loc (l_cur st)
          = {| Line := newlines source; Col := column_after source |}.
Proof.
  intros Hlen Hall. pose proof (len_nonneg source) as Hnn.
  assert (Hbyte : forall p c, byte_at source p c -> is_space c = true).
  { intros p c [_ Hat]. apply nth_error_In in Hat.
    rewrite Forall_forall in Hall. apply Hall. exact Hat. }
  set (I := fun st : lex_state =>
              lex_reaches source st /\ l_tokens st = []
              /\ loc (l_cur st)
                 = {| Line := newlines (sub source 0 (pointer (l_cur st)));
                      Col := column_after
                               (sub source 0 (pointer (l_cur st))) |}).
  destruct (lex_rule source Hlen I) as (res & Hres & Hcase).
  - unfold I. split; [apply lex_reaches_start|]. split; reflexivity.
  - intros st token newCursor (Hreach & Htok & Hloc) Hp Hrange _.
    destruct (byte_at_exists source (pointer (l_cur st)) Hp) as [c Hat].
    pose proof (Hbyte _ _ Hat) as Hs.
    pose proof (range_lexers_space source (l_cur st) c Hlen Hat Hs) as Hcomp.
    assert (Hstep : lex_reaches source
                      {| l_tokens := push_token token (l_tokens st);
                         l_cur := newCursor |}).
    { apply lex_reaches_step; try assumption.
      rewrite uint_small by lia. apply Z.ltb_lt. lia. }
    rewrite Hcomp in Hrange. injection Hrange as <- <-.
    unfold I. split; [exact Hstep|]. split; [exact Htok|]. simpl.
    rewrite (sub_snoc source 0 _ c) by (assumption || lia).
    rewrite newlines_snoc, column_after_app, Hloc. simpl.
    pose proof (newlines_le_len (sub source 0 (pointer (l_cur st)))) as Hn.
    pose proof (newlines_nonneg (sub source 0 (pointer (l_cur st)))) as Hn0.
    pose proof (column_after_range (sub source 0 (pointer (l_cur st)))) as Hcol.
    rewrite len_sub in Hn, Hcol by lia.
    destruct (is_newline c); rewrite uint_small by lia; f_equal; lia.
  - destruct res as [tokens|e].
    + destruct Hcase as (cur & Hend & Hreach & Htok & Hloc).
      simpl in Htok, Hloc. subst tokens. split; [exact Hres|].
      exists {| l_tokens := []; l_cur := cur |}. simpl.
      rewrite Hend, sub_all in Hloc. repeat split; assumption.
    + exfalso. destruct Hcase as (st & _ & Hp & Hnone & _).
      destruct (byte_at_exists source (pointer (l_cur st)) Hp) as [c Hat].
      pose proof (Hbyte _ _ Hat) as Hs.
      assert (Hin : In lexSymbol lexers) by (simpl; tauto).
      specialize (Hnone lexSymbol Hin).
      rewrite (lexSymbol_cases source (l_cur st) c Hlen Hat), Hs in Hnone.
      discriminate Hnone.
Qed.

(** A source of three lines of white space. *)
Lemma lex_white_space_only_witness :
  len (B " " ++ ["010"%char; "009"%char; "010"%char] ++ B "  ") < 2 ^ 63
  /\ Forall (fun c => is_space c = true)
            (B " " ++ ["010"%char; "009"%char; "010"%char] ++ B "  ")
  /\ lex (B " " ++ ["010"%char; "009"%char; "010"%char] ++ B "  ")
     = Val (Tokens []).
Proof.
  split; [reflexivity|]. split; [repeat constructor|].
  apply lex_white_space_only.
  - reflexivity.
  - repeat constructor.
Defined.

(** From a quote that a delimited scan has left unread the driver only gets
    to another such quote. *)
Lemma doomed_step (source : bytes) (st : lex_state) (token : option Token)
    (newCursor : cursor) :
  doomed source st ->
  0 <= pointer (l_cur st) < len source ->
  scanner_match source (l_cur st) (token, newCursor, true) ->
  doomed source {| l_tokens := push_token token (l_tokens st);
                   l_cur := newCursor |}.
Proof.
  intros (d & Hd & Hat) Hp Hm. unfold doomed. simpl.
  destruct (quote_bytes d Hd) as (Hsp & Hnum & Hid & Hlow).
  assert (Hquote : forall d',
             is_quote d' = true ->
             delimited_match source (l_cur st) d' (token, newCursor, true) ->
             exists d'', is_quote d'' = true
                         /\ byte_at source (pointer newCursor) d'').
  { intros d' Hd' (c & _ & _ & Hc & _ & E). injection E as _ ->.
    exists d'. split; assumption. }
  assert (Hliteral : forall options kind,
             literal_match source (l_cur st) options kind
               (token, newCursor, true) ->
             exists rest, In (d :: rest) options).
  { intros options kind (m & Hin & Hlen & Ht & _).
    destruct (text_at_first _ _ _ d (proj1 Hp) Hlen Ht Hat) as [rest ->].
    rewrite Hlow in Hin. eauto. }
  destruct Hm as [H|[H|[H|[H|[H|[H|H]]]]]].
  - exfalso. destruct (Hliteral _ _ H) as [rest Hin].
    apply (proj1 (quote_starts_no_literal d rest Hd)). exact Hin.
  - exfalso. destruct H as (c & Hc & Hs & _).
    rewrite (byte_at_fun _ _ _ _ Hc Hat) in Hs. congruence.
  - exfalso. destruct (Hliteral _ _ H) as [rest Hin].
    apply (proj2 (quote_starts_no_literal d rest Hd)). exact Hin.
  - apply (Hquote squote); [reflexivity|exact H].
  - exfalso. destruct H as (c & Hc & _ & Hall & _).
    rewrite (sub_head _ _ _ d) in Hall by (assumption || lia).
    inversion Hall; subst. congruence.
  - apply (Hquote dquote); [reflexivity|exact H].
  - exfalso. destruct H as (c & Hc & _ & Hall & _).
    rewrite (sub_head _ _ _ d) in Hall by (assumption || lia).
    inversion Hall; subst. congruence.
Qed.

Lemma ident_lower_bytes (l : bytes) :
  Forall (fun c => ident_byte c = true) l ->
  Forall (fun c => lower_ident_byte c = true) (ToLower l).
Proof.
  assert (Hall : forall c,
             implb (ident_byte c) (lower_ident_byte (lower_byte c)) = true).
  { apply forall_byte. vm_compute. reflexivity. }
  induction 1 as [|c l Hc _ IH]; simpl; constructor; [|exact IH].
  specialize (Hall c). rewrite Hc in Hall. exact Hall.
Qed.

Lemma letter_lower (c : ascii) :
  isAlphabetical c = true -> lower_letter (lower_byte c) = true.
Proof.
  assert (Hall : forall c,
             implb (isAlphabetical c) (lower_letter (lower_byte c)) = true).
  { apply forall_byte. vm_compute. reflexivity. }
  intros H. specialize (Hall c). rewrite H in Hall. exact Hall.
Qed.

(** A keyword at the head of the lowered text between two cursors is the
    text at the first cursor. *)
Lemma prefix_text_at (source : bytes) (ic : cursor) (q : Z) (k : bytes) :
  0 <= pointer ic <= q -> q <= len source ->
  firstn (length k) (ToLower (sub source (pointer ic) q)) = k ->
  text_at source ic k.
Proof.
  intros Hp Hq Hk.
  assert (Hlen : len k <= q - pointer ic).
  { pose proof (f_equal (@length ascii) Hk) as Hl.
    rewrite length_firstn in Hl.
    pose proof (len_ToLower (sub source (pointer ic) q)) as Hv.
    rewrite len_sub in Hv by lia. unfold len in *. lia. }
  pose proof (len_nonneg k) as Hk0.
  split; [lia|].
  rewrite (sub_app source (pointer ic) (pointer ic + len k) q) in Hk by lia.
  rewrite ToLower_app, firstn_app in Hk.
  assert (Hl : length (ToLower (sub source (pointer ic) (pointer ic + len k)))
               = length k).
  { pose proof (len_ToLower (sub source (pointer ic) (pointer ic + len k)))
      as Hv.
    rewrite len_sub in Hv by lia. unfold len in *. lia. }
  rewrite Hl, Nat.sub_diag in Hk. simpl in Hk. rewrite app_nil_r in Hk.
  rewrite <- Hl, firstn_all in Hk. exact Hk.
Qed.

(** What the driver takes from the scanners at a cursor inside the source:
    a token of one of the shapes, or no token, unless it was a delimited
    scan that matched, which leaves the cursor on a quote. *)
Lemma range_lexers_shape (source : bytes) (cur : cursor)
    (token : option Token) (newCursor : cursor) :
  len source < 2 ^ 63 -> 0 <= pointer cur < len source ->
  range_lexers lexers source cur = Val (Some (token, newCursor)) ->
  (exists d, is_quote d = true /\ byte_at source (pointer newCursor) d)
  \/ match token with
     | Some t => token_shape t
     | None => True
     end.
Proof.
  intros Hlen Hp Hrange.
  assert (Hle : 0 <= pointer cur <= len source) by lia.
  unfold lexers in Hrange.
  apply range_lexers_cons in Hrange.
  destruct Hrange as [Hk|[(t0 & c0 & Hk) Hrange]].
  { right. destruct (lexKeyword_cases source cur Hlen Hp)
      as [[E _]|(k & Hin & _ & _ & E)]; rewrite E in Hk;
      [discriminate Hk|].
    injection Hk as <- _. exact Hin. }
  pose proof (lexKeyword_miss source cur t0 c0 Hlen Hp Hk) as Hmiss.
  apply range_lexers_cons in Hrange.
  destruct Hrange as [Hs|[_ Hrange]].
  { right. destruct (byte_at_exists source (pointer cur) Hp) as [c Hat].
    rewrite (lexSymbol_cases source cur c Hlen Hat) in Hs.
    destruct (is_space c).
    - injection Hs as <- _. exact I.
    - destruct (existsb (bytes_eqb [c]) symbols) eqn:He;
        [|discriminate Hs].
      injection Hs as <- _. unfold token_shape. simpl.
      apply existsb_exists in He. destruct He as (m & Hin & E).
      apply bytes_eqb_eq in E. subst m. exact Hin. }
  apply range_lexers_cons in Hrange.
  destruct Hrange as [Hq|[_ Hrange]].
  { left. unfold lexString in Hq.
    destruct (lexCharacterDelimited_shape source Hlen cur squote Hle _ _
                Hq) as (_ & _ & Hc & _).
    exists squote. split; [reflexivity|exact Hc]. }
  apply range_lexers_cons in Hrange.
  destruct Hrange as [Hn|[_ Hrange]].
  { right. destruct (lexNumeric_spec source Hlen cur Hle) as (r & Hr & Hcase).
    rewrite Hn in Hr. injection Hr as <-.
    destruct Hcase as [E|(cur' & _ & _ & _ & _ & E)]; [discriminate E|].
    injection E as -> ->. unfold token_shape. simpl.
    apply (lexNumeric_grammar source Hlen cur Hle _ cur' Hn). }
  apply range_lexers_cons in Hrange.
  destruct Hrange as [Hi|[_ Hrange]]; [|discriminate Hrange].
  destruct (lexIdentifier_spec source Hlen cur Hp) as (r & Hr & Hcase).
  rewrite Hi in Hr. injection Hr as <-.
  destruct Hcase as [E|[(cur' & _ & _ & Hc & _ & E)|(cur' & _ & _ & _ & E)]].
  - discriminate E.
  - left. injection E as _ ->. exists dquote. split; [reflexivity|exact Hc].
  - right. injection E as -> ->.
    destruct (lexIdentifier_bare source Hlen cur Hp _ cur' Hi eq_refl)
      as ((c & Hat & Halpha) & Hq & Hall & _).
    unfold token_shape. simpl. split; [|split].
    + rewrite (sub_head _ _ _ c) by (assumption || lia). simpl.
      eexists _, _. split; [reflexivity|]. apply letter_lower. exact Halpha.
    + apply ident_lower_bytes. exact Hall.
    + intros k Hin Hpre. apply (Hmiss k Hin).
      apply (prefix_text_at source cur (pointer cur')); try lia. exact Hpre.
Qed.

(** X12: every token that [lex] returns has one of four shapes: a keyword
    of the keyword list; one of the five symbols; an identifier that starts
    with a small letter, goes on with small letters, digits, [$] and [_],
    and does not start with a keyword; or a numeric literal, a mantissa with
    at most one period and possibly an exponent.  [lex] never returns a
    token of kind [StringKind] or [BoolKind]. *)
Theorem lex_token_shapes (source : bytes) (tokens : list Token) :
  len source < 2 ^ 63 ->
  lex source = Val (Tokens tokens) ->
  Forall token_shape tokens.
Proof.
  intros Hlen Hlex.
  destruct (lex_rule source Hlen
              (fun st => doomed source st \/ Forall token_shape (l_tokens st)))
    as (res & Hres & Hcase).
  - right. constructor.
  - intros st token newCursor [Hd|Hall] Hp Hrange Hm.
    + left. apply doomed_step; assumption.
    + destruct (range_lexers_shape source (l_cur st) token newCursor
                  Hlen Hp Hrange) as [Hq|Hshape].
      * left. exact Hq.
      * right. simpl. destruct token as [t|]; simpl; [|exact Hall].
        apply Forall_app. split; [exact Hall|]. repeat constructor.
        exact Hshape.
  - rewrite Hlex in Hres. injection Hres as <-.
    destruct Hcase as (cur & Hend & [(d & _ & Hat)|Hall]).
    + simpl in Hat. apply byte_at_lt in Hat. lia.
    + exact Hall.
Qed.

Lemma lex_token_shapes_witness :
  len (B "insert INTO t1 values (1.5e3);") < 2 ^ 63
  /\ lex (B "insert INTO t1 values (1.5e3);")
     = Val (Tokens [tok "insert" KeywordKind 0 0; tok "into" KeywordKind 0 7;
                    tok "t1" IdentifierKind 0 12;
                    tok "values" KeywordKind 0 15; tok "(" SymbolKind 0 22;
                    tok "1.5e3" NumericKind 0 23; tok ")" SymbolKind 0 29;
                    tok ";" SymbolKind 0 30])
  /\ Forall token_shape
       [tok "insert" KeywordKind 0 0; tok "into" KeywordKind 0 7;
        tok "t1" IdentifierKind 0 12;
        tok "values" KeywordKind 0 15; tok "(" SymbolKind 0 22;
        tok "1.5e3" NumericKind 0 23; tok ")" SymbolKind 0 29;
        tok ";" SymbolKind 0 30].
Proof.
  split; [reflexivity|]. split; [vm_compute; reflexivity|].
  apply (lex_token_shapes (B "insert INTO t1 values (1.5e3);")).
  - reflexivity.
  - vm_compute. reflexivity.
Defined.

Lemma scanned_bytes_no_quote (c : ascii) :
  is_space c || numeric_byte c || ident_byte c = true -> is_quote c = false.
Proof.
  assert (Hall : forall c,
             implb (is_space c || numeric_byte c || ident_byte c)
                   (negb (is_quote c)) = true).
  { apply forall_byte. vm_compute. reflexivity. }
  intros H. specialize (Hall c). rewrite H in Hall. apply negb_true_iff.
  exact Hall.
Qed.

Lemma lowered_no_quote (l : bytes) :
  Forall (fun c => is_quote c = false) (ToLower l) ->
  Forall (fun c => is_quote c = false) l.
Proof.
  assert (Hall : forall c,
             Bool.eqb (is_quote (lower_byte c)) (is_quote c) = true).
  { apply forall_byte. vm_compute. reflexivity. }
  induction l as [|c l IH]; simpl; intros H; [constructor|].
  inversion H as [|? ? Hc Hl]; subst. constructor; [|apply IH; exact Hl].
  specialize (Hall c). apply eqb_prop in Hall. congruence.
Qed.

Lemma literals_no_quote (m : bytes) :
  In m keywords \/ In m symbols -> Forall (fun c => is_quote c = false) m.
Proof.
  intros [Hin|Hin]; simpl in Hin;
    repeat (destruct Hin as [<-|Hin]; [repeat constructor|]);
    destruct Hin.
Qed.

(** X13: [lex] accepts no source that has a single or a double quote in it:
    a delimited scan leaves the cursor on the closing quote, where no
    scanner gets the driver to the end of the source. *)
Theorem lex_accepts_no_quote (source : bytes) (tokens : list Token) :
  len source < 2 ^ 63 ->
  lex source = Val (Tokens tokens) ->
  Forall (fun c => is_quote c = false) source.
Proof.
  intros Hlen Hlex.
  destruct (lex_rule source Hlen
              (fun st => doomed source st
                         \/ Forall (fun c => is_quote c = false)
                                   (sub source 0 (pointer (l_cur st)))))
    as (res & Hres & Hcase).
  - right. constructor.
  - intros st token newCursor [Hd|Hall] Hp _ Hm.
    { left. apply doomed_step; assumption. }
    simpl.
    assert (Hmore : forall q,
               pointer (l_cur st) <= q ->
               Forall (fun c => is_quote c = false)
                      (sub source (pointer (l_cur st)) q) ->
               Forall (fun c => is_quote c = false) (sub source 0 q)).
    { intros q Hq Hnew. rewrite (sub_app source 0 (pointer (l_cur st)) q) by lia.
      apply Forall_app. split; assumption. }
    assert (Hliteral : forall options kind,
               (forall m, In m options -> In m keywords \/ In m symbols) ->
               literal_match source (l_cur st) options kind
                 (token, newCursor, true) ->
               Forall (fun c => is_quote c = false)
                      (sub source 0 (pointer newCursor))).
    { intros options kind Hopt (m & Hin & Hm1 & [_ Ht] & _ & E).
      injection E as _ ->. simpl. apply Hmore; [lia|].
      apply lowered_no_quote. rewrite Ht. apply literals_no_quote.
      apply Hopt. exact Hin. }
    assert (Hdelim : forall d, is_quote d = true ->
               delimited_match source (l_cur st) d (token, newCursor, true) ->
               doomed source {| l_tokens := push_token token (l_tokens st);
                                l_cur := newCursor |}).
    { intros d Hd (c & _ & _ & Hc & _ & E). injection E as _ ->.
      exists d. split; assumption. }
    destruct Hm as [H|[H|[H|[H|[H|[H|H]]]]]].
    + right. apply (Hliteral keywords KeywordKind); [tauto|exact H].
    + right. destruct H as (c & Hc & Hs & E). injection E as _ ->. simpl.
      apply Hmore; [lia|]. rewrite (sub_one _ _ c Hc). repeat constructor.
      apply scanned_bytes_no_quote. rewrite Hs. reflexivity.
    + right. apply (Hliteral symbols SymbolKind); [tauto|exact H].
    + left. apply (Hdelim squote); [reflexivity|exact H].
    + right. destruct H as (cur' & Hq & _ & Hnum & _ & E).
      injection E as _ ->. apply Hmore; [lia|].
      eapply Forall_impl; [|exact Hnum]. intros c Hc. simpl in Hc.
      apply scanned_bytes_no_quote. rewrite Hc.
      destruct (is_space c); reflexivity.
    + left. apply (Hdelim dquote); [reflexivity|exact H].
    + right. destruct H as (cur' & Hq & _ & Hid & E).
      injection E as _ ->. apply Hmore; [lia|].
      eapply Forall_impl; [|exact Hid]. intros c Hc. simpl in Hc.
      apply scanned_bytes_no_quote. rewrite Hc. apply orb_true_r.
  - rewrite Hlex in Hres. injection Hres as <-.
    destruct Hcase as (cur & Hend & [(d & _ & Hat)|Hall]).
    + simpl in Hat. apply byte_at_lt in Hat. lia.
    + simpl in Hall. rewrite Hend, sub_all in Hall. exact Hall.
Qed.

Lemma lex_accepts_no_quote_witness :
  len (B "select a from t;") < 2 ^ 63
  /\ lex (B "select a from t;")
     = Val (Tokens [tok "select" KeywordKind 0 0; tok "a" IdentifierKind 0 7;
                    tok "from" KeywordKind 0 9; tok "t" IdentifierKind 0 14;
                    tok ";" SymbolKind 0 15])
  /\ Forall (fun c => is_quote c = false) (B "select a from t;").
Proof.
  split; [reflexivity|]. split; [vm_compute; reflexivity|].
  eapply (lex_accepts_no_quote (B "select a from t;")).
  - reflexivity.
  - vm_compute. reflexivity.
Defined.

(** X14: [lex] returns at most as many tokens as the source has bytes:
    every token takes at least one byte of its own. *)
Theorem lex_token_count (source : bytes) (tokens : list Token) :
  len source < 2 ^ 63 ->
  lex source = Val (Tokens tokens) ->
  len tokens <= len source.
Proof.
  intros Hlen Hlex.
  destruct (lex_rule source Hlen
              (fun st => len (l_tokens st) <= pointer (l_cur st)))
    as (res & Hres & Hcase).
  - simpl. unfold len. simpl. lia.
  - intros st token newCursor HI Hp _ Hm. simpl.
    pose proof (scanner_match_advances source (l_cur st) Hp _ _ Hm) as Hadv.
    destruct token as [t|]; simpl; [rewrite len_app, len_cons, len_nil|]; lia.
  - rewrite Hlex in Hres. injection Hres as <-.
    destruct Hcase as (cur & Hend & HI). simpl in HI. lia.
Qed.

Lemma lex_token_count_witness :
  len (B "a,b") < 2 ^ 63
  /\ lex (B "a,b")
     = Val (Tokens [tok "a" IdentifierKind 0 0; tok "," SymbolKind 0 1;
                    tok "b" IdentifierKind 0 2])
  /\ len [tok "a" IdentifierKind 0 0; tok "," SymbolKind 0 1;
          tok "b" IdentifierKind 0 2] <= len (B "a,b").
Proof.
  split; [reflexivity|]. split; [vm_compute; reflexivity|].
  apply (lex_token_count (B "a,b")).
  - reflexivity.
  - vm_compute. reflexivity.
Defined.

(** ** The result of [lex], from the states of its driver *)

Lemma for_loop_S {St R : Type} (cond : St -> bool) (post : St -> St)
    (body : St -> outcome (ctl St R)) (fuel : nat) (s : St) :
  for_loop cond post body (S fuel) s
  = if cond s then
      c <- body s ;;
      match c with
      | Next s' => for_loop cond post body fuel (post s')
      | Break s' => Val (inl s')
      | Return r => Val (inr r)
      end
    else Val (inl s).
Proof. reflexivity. Qed.

(** What the driver loop returns from a state it reaches, it returns from
    the start. *)
Lemma lex_reaches_run (source : bytes) (st : lex_state) :
  lex_reaches source st ->
  forall fuel r,
    for_loop (fun st => pointer (l_cur st) <? uint (len source))
      (fun st => st) (lex_body source) fuel st = Val r ->
    exists fuel',
      for_loop (fun st => pointer (l_cur st) <? uint (len source))
        (fun st => st) (lex_body source) fuel'
        {| l_tokens := []; l_cur := cursor0 |} = Val r.
Proof.
  induction 1 as [|st token newCursor _ IH Hc Hr]; intros fuel r Hrun.
  - exists fuel. exact Hrun.
  - apply (IH (S fuel)). rewrite for_loop_S, Hc. unfold lex_body.
    rewrite Hr. simpl bind. exact Hrun.
Qed.

Lemma lex_from_run (source : bytes) (fuel : nat) (r : lex_state + lex_result) :
  len source < 2 ^ 63 ->
  for_loop (fun st => pointer (l_cur st) <? uint (len source))
    (fun st => st) (lex_body source) fuel
    {| l_tokens := []; l_cur := cursor0 |} = Val r ->
  lex source = Val match r with
                   | inl st => Tokens (l_tokens st)
                   | inr res => res
                   end.
Proof.
  intros Hlen Hrun.
  destruct (lex_rule source Hlen (fun _ => True) I (fun _ _ _ _ _ _ _ => I))
    as (res & Hres & _).
  unfold lex, lex_fuel in *.
  destruct (for_loop (fun st => pointer (l_cur st) <? uint (len source))
              (fun st => st) (lex_body source) (S (length source))
              {| l_tokens := []; l_cur := cursor0 |}) as [r0| |] eqn:Hloop;
    try discriminate Hres.
  pose proof (for_loop_more_fuel _ _ _ _ (Nat.max fuel (S (length source)))
                _ _ (Nat.le_max_l _ _) Hrun) as H1.
  pose proof (for_loop_more_fuel _ _ _ _ (Nat.max fuel (S (length source)))
                _ _ (Nat.le_max_r _ _) Hloop) as H2.
  rewrite H1 in H2. injection H2 as <-. simpl bind. destruct r; reflexivity.
Qed.

Lemma range_lexers_none (source : bytes) (cur : cursor) :
  (forall l, In l lexers -> l source cur = Val (no_match cur)) ->
  range_lexers lexers source cur = Val None.
Proof.
  intros H. unfold lexers. simpl range_lexers.
  rewrite (H lexKeyword) by (simpl; tauto). simpl bind.
  rewrite (H lexSymbol) by (simpl; tauto). simpl bind.
  rewrite (H lexString) by (simpl; tauto). simpl bind.
  rewrite (H lexNumeric) by (simpl; tauto). simpl bind.
  rewrite (H lexIdentifier) by (simpl; tauto). reflexivity.
Qed.

(** A state of the driver at which every scanner reports no match makes
    [lex] return the error of that state. *)
Lemma lex_stuck_fails (source : bytes) (st : lex_state) (e : LexError) :
  len source < 2 ^ 63 ->
  lex_reaches source st ->
  lex_stuck source st e ->
  lex source = Val (Failed e).
Proof.
  intros Hlen Hreach (Hp & Hnone & ->).
  destruct (lex_reaches_run source st Hreach 1
              (inr (Failed {| err_hint := lex_hint (l_tokens st);
                              err_line := Line (loc (l_cur st));
                              err_col := Col (loc (l_cur st)) |})))
    as [fuel Hrun].
  { rewrite for_loop_S, uint_small by lia.
    replace (pointer (l_cur st) <? len source) with true
      by (symmetry; apply Z.ltb_lt; lia).
    unfold lex_body. rewrite (range_lexers_none source (l_cur st) Hnone).
    reflexivity. }
  apply (lex_from_run source fuel _ Hlen Hrun).
Qed.

(** X15: the states of the driver decide what [lex] returns.  When the
    driver reaches the end of the source, [lex] returns the tokens of that
    state; when it reaches a cursor inside the source at which every scanner
    reports no match, [lex] returns the error of that state, with the line
    and the column of that cursor, and gives up the rest of the source. *)
Theorem lex_decided_by_reached_state (source : bytes) (st : lex_state) :
  len source < 2 ^ 63 ->
  lex_reaches source st ->
  (pointer (l_cur st) = len source ->
   lex source = Val (Tokens (l_tokens st)))
  /\ (forall e, lex_stuck source st e -> lex source = Val (Failed e)).
Proof.
  intros Hlen Hreach. pose proof (len_nonneg source) as Hnn. split.
  - intros Hend.
    destruct (lex_reaches_run source st Hreach 1 (inl st)) as [fuel Hrun].
    { rewrite for_loop_S, uint_small by lia.
      replace (pointer (l_cur st) <? len source) with false
        by (symmetry; apply Z.ltb_ge; lia).
      reflexivity. }
    apply (lex_from_run source fuel (inl st) Hlen Hrun).
  - intros e Hstuck. apply (lex_stuck_fails source st e Hlen Hreach Hstuck).
Qed.

Lemma lex_decided_by_reached_state_witness :
  len (B "?") < 2 ^ 63
  /\ lex_reaches (B "?") {| l_tokens := []; l_cur := cursor0 |}
  /\ lex_stuck (B "?") {| l_tokens := []; l_cur := cursor0 |}
       {| err_hint := []; err_line := 0; err_col := 0 |}
  /\ lex (B "?")
     = Val (Failed {| err_hint := []; err_line := 0; err_col := 0 |}).
Proof.
  assert (Hstuck : lex_stuck (B "?") {| l_tokens := []; l_cur := cursor0 |}
                     {| err_hint := []; err_line := 0; err_col := 0 |}).
  { split; [split; [discriminate|reflexivity]|]. split; [|reflexivity].
    intros l [<-|[<-|[<-|[<-|[<-|[]]]]]]; vm_compute; reflexivity. }
  split; [reflexivity|]. split; [apply lex_reaches_start|].
  split; [exact Hstuck|].
  apply (proj2 (lex_decided_by_reached_state (B "?")
                  {| l_tokens := []; l_cur := cursor0 |} eq_refl
                  (lex_reaches_start (B "?")))).
  exact Hstuck.
Defined.

Lemma squote_bytes :
  is_space squote = false /\ numeric_byte squote = false
  /\ ident_byte squote = false /\ lower_byte squote = squote
  /\ existsb (bytes_eqb [squote]) symbols = false.
Proof. repeat split. Qed.

(** X16: a single quote that nothing closes stops [lex].  When the driver
    reaches a cursor that stands on a single quote and no later byte of the
    source is a single quote, every scanner reports no match there and
    [lex] returns the error of that state: the line and the column that the
    cursor holds, whether or not they are those of the quote in the source,
    and the hint of the tokens before it. *)
Theorem lex_unterminated_string_fails (source : bytes) (st : lex_state) :
  len source < 2 ^ 63 ->
  lex_reaches source st ->
  byte_at source (pointer (l_cur st)) squote ->
  (forall q, pointer (l_cur st) < q -> ~ byte_at source q squote) ->
  (forall l, In l lexers -> l source (l_cur st) = Val (no_match (l_cur st)))
  /\ lex source = Val (Failed {| err_hint := lex_hint (l_tokens st);
                                 err_line := Line (loc (l_cur st));
                                 err_col := Col (loc (l_cur st)) |}).
Proof.
  intros Hlen Hreach Hat Hnone.
  pose proof (byte_at_lt _ _ _ Hat) as Hlt.
  assert (Hp : 0 <= pointer (l_cur st) < len source) by (destruct Hat; lia).
  assert (Hle : 0 <= pointer (l_cur st) <= len source) by lia.
  destruct squote_bytes as (Hsp & Hnum & Hid & Hlow & Hsym).
  assert (Hmiss : forall l, In l lexers ->
                            l source (l_cur st) = Val (no_match (l_cur st)));
    [|split; [exact Hmiss|];
      apply (lex_stuck_fails source st _ Hlen Hreach);
      split; [exact Hp|]; split; [exact Hmiss|reflexivity]].
  intros l [<-|[<-|[<-|[<-|[<-|[]]]]]].
  - destruct (lexKeyword_cases source (l_cur st) Hlen Hp)
      as [[E _]|(k & Hin & Ht & _)]; [exact E|].
    exfalso.
    assert (Hk : 1 <= len k).
    { pose proof (proj1 (Forall_forall _ _) keywords_nonempty _ Hin) as Hne.
      destruct k; [congruence|]. rewrite len_cons.
      pose proof (len_nonneg k). lia. }
    destruct (text_at_first source (l_cur st) k squote (proj1 Hp) Hk Ht Hat)
      as [rest ->].
    rewrite Hlow in Hin.
    apply (proj1 (quote_starts_no_literal squote rest eq_refl)). exact Hin.
  - rewrite (lexSymbol_cases source (l_cur st) squote Hlen Hat).
    rewrite Hsp, Hsym. reflexivity.
  - unfold lexString.
    destruct (lexCharacterDelimited_spec source Hlen (l_cur st) squote Hle)
      as (r & Hr & [->|(cur & Hq & _ & Hc & _)]); [exact Hr|].
    exfalso. apply (Hnone (pointer cur)); [lia|exact Hc].
  - destruct (lexNumeric_spec source Hlen (l_cur st) Hle)
      as (r & Hr & [->|(cur' & Hq & _ & Hall & _)]); [exact Hr|].
    exfalso. rewrite (sub_head _ _ _ squote) in Hall by (assumption || lia).
    inversion Hall; subst. congruence.
  - destruct (lexIdentifier_spec source Hlen (l_cur st) Hp)
      as (r & Hr & [->|[(cur' & _ & Ho & _)|(cur' & Hq & _ & Hall & _)]]);
      [exact Hr| |]; exfalso.
    + pose proof (byte_at_fun _ _ _ _ Ho Hat) as E. discriminate E.
    + rewrite (sub_head _ _ _ squote) in Hall by (assumption || lia).
      inversion Hall; subst. congruence.
Qed.

Lemma lex_unterminated_string_fails_witness :
  len (B "'abc") < 2 ^ 63
  /\ lex_reaches (B "'abc") {| l_tokens := []; l_cur := cursor0 |}
  /\ byte_at (B "'abc") (pointer cursor0) squote
  /\ (forall q, pointer cursor0 < q -> ~ byte_at (B "'abc") q squote)
  /\ (forall l, In l lexers -> l (B "'abc") cursor0 = Val (no_match cursor0))
  /\ lex (B "'abc")
     = Val (Failed {| err_hint := []; err_line := 0; err_col := 0 |}).
Proof.
  assert (Hnone : forall q, pointer cursor0 < q ->
                            ~ byte_at (B "'abc") q squote).
  { intros q Hq [_ Hat]. simpl in Hq.
    destruct (Z.to_nat q) as [|[|[|[|n]]]] eqn:E; simpl in Hat;
      try discriminate Hat; try lia.
    destruct n; discriminate Hat. }
  split; [reflexivity|]. split; [apply lex_reaches_start|].
  split; [split; [discriminate|reflexivity]|]. split; [exact Hnone|].
  apply (lex_unterminated_string_fails (B "'abc")
           {| l_tokens := []; l_cur := cursor0 |}).
  - reflexivity.
  - apply lex_reaches_start.
  - split; [discriminate|reflexivity].
  - exact Hnone.
Defined.

(** ** The line and the column in the error *)

Lemma column_after_plain (a b : bytes) :
  newlines b = 0 -> column_after (a ++ b) = column_after a + len b.
Proof.
  induction b as [|c b IH] using rev_ind; intros Hb.
  - rewrite app_nil_r, len_nil. lia.
  - rewrite newlines_snoc in Hb. pose proof (newlines_nonneg b) as Hnn.
    destruct (is_newline c) eqn:Hc; [lia|].
    rewrite app_assoc, column_after_app, Hc, IH by lia.
    rewrite len_app, len_cons, len_nil. lia.
Qed.

(** Moving over text without a newline adds its length to the column. *)
Lemma column_advance (source : bytes) (p q col : Z) :
  len source < 2 ^ 63 ->
  0 <= p <= q -> q <= len source ->
  newlines (sub source p q) = 0 ->
  col = column_after (sub source 0 p) ->
  uint (col + (q - p)) = column_after (sub source 0 q).
Proof.
  intros Hlen Hp Hq Hplain ->.
  pose proof (column_after_range (sub source 0 p)) as Hr.
  rewrite len_sub in Hr by lia.
  rewrite (sub_app source 0 p q) by lia.
  rewrite (column_after_plain _ _ Hplain), len_sub by lia.
  apply uint_small. lia.
Qed.

(** A quoted identifier is what [lexCharacterDelimited] returns on the
    double quote. *)
Lemma lexIdentifier_delimited (source : bytes) (cur : cursor) (t : Token)
    (newCursor : cursor) :
  lexIdentifier source cur = Val (Some t, newCursor, true) ->
  Kind t = StringKind ->
  lexCharacterDelimited source cur dquote = Val (Some t, newCursor, true).
Proof.
  unfold lexIdentifier.
  destruct (lexCharacterDelimited source cur dquote) as [[[t0 c0] [|]]| |];
    simpl bind; try discriminate.
  - intros H _. exact H.
  - destruct (index source (pointer cur)) as [c| |]; simpl bind;
      try discriminate.
    destruct (negb (isAlphabetical c)); [discriminate|].
    destruct (for_loop _ _ _ _ _) as [[st|[]]| |]; simpl bind;
      try discriminate.
    destruct (len (i_value st) =? 0); [discriminate|].
    intros H Hk. injection H as <- _. discriminate Hk.
Qed.

Lemma column_counted_step (source : bytes) (st : lex_state)
    (token : option Token) (newCursor : cursor) :
  len source < 2 ^ 63 ->
  line_counted source st ->
  column_counted source st ->
  0 <= pointer (l_cur st) < len source ->
  range_lexers lexers source (l_cur st) = Val (Some (token, newCursor)) ->
  column_counted source {| l_tokens := push_token token (l_tokens st);
                           l_cur := newCursor |}.
Proof.
  intros Hlen [Hl0 Hl] [Hlines Hcol] Hp Hrange.
  assert (Hle : 0 <= pointer (l_cur st) <= len source) by lia.
  pose proof (newlines_nonneg (flat_map Value (l_tokens st))) as Htok.
  fold (newlines_in (l_tokens st)) in Htok.
  pose proof (newlines_le_len (sub source 0 (pointer (l_cur st)))) as Hnl.
  rewrite len_sub in Hnl by lia.
  (* a token that starts at the cursor and ends on its line *)
  assert (Htoken : forall t cur',
             Loc t = loc (l_cur st) ->
             Line (loc cur') = Line (loc (l_cur st)) ->
             (newlines (Value t) = 0 -> Kind t <> NumericKind ->
              Col (loc (l_cur st))
              = column_after (sub source 0 (pointer (l_cur st))) ->
              Col (loc cur') = column_after (sub source 0 (pointer cur'))) ->
             column_counted source {| l_tokens := l_tokens st ++ [t];
                                      l_cur := cur' |}).
  { intros t cur' Hloc Hline Hstep. unfold column_counted. simpl.
    rewrite Hline. split.
    - apply Forall_app. split; [exact Hlines|].
      constructor; [rewrite Hloc; lia|constructor].
    - intros Hplain Hnum. rewrite newlines_in_push in Hplain.
      pose proof (newlines_nonneg (Value t)) as Hv.
      apply Forall_app in Hnum. destruct Hnum as [Hnum Ht].
      inversion Ht as [|? ? Hk _]; subst.
      apply Hstep; [lia| |apply Hcol; [lia|exact Hnum]].
      intros Hkind. apply (Hk Hkind). rewrite Hloc. reflexivity. }
  unfold lexers in Hrange.
  apply range_lexers_cons in Hrange.
  destruct Hrange as [Hk|[_ Hrange]].
  { destruct (lexKeyword_cases source (l_cur st) Hlen Hp)
      as [[E _]|(k & Hin & [Hfit Ht] & _ & E)];
      rewrite Hk in E; [discriminate E|].
    injection E as -> ->. simpl push_token.
    apply Htoken; [reflexivity|reflexivity|]. simpl.
    intros Hplain _ Hc. pose proof (len_nonneg k) as Hk0.
    replace (len k) with (pointer (l_cur st) + len k - pointer (l_cur st))
      at 1 by lia.
    apply (column_advance source); try lia.
    rewrite <- newlines_ToLower, Ht. exact Hplain. }
  destruct (byte_at_exists source (pointer (l_cur st)) Hp) as [c Hat].
  apply range_lexers_cons in Hrange.
  destruct Hrange as [Hs|[_ Hrange]].
  { rewrite (lexSymbol_cases source (l_cur st) c Hlen Hat) in Hs.
    assert (Hsnoc : sub source 0 (pointer (l_cur st) + 1)
                    = sub source 0 (pointer (l_cur st)) ++ [c]).
    { rewrite (sub_app source 0 (pointer (l_cur st))) by lia.
      rewrite (sub_one _ _ c Hat). reflexivity. }
    destruct (is_space c) eqn:Hsp.
    - injection Hs as <- <-. unfold column_counted. simpl push_token.
      cbn [l_tokens l_cur pointer]. rewrite Hsnoc, column_after_app.
      destruct (is_newline c); cbn [loc Line Col].
      + rewrite uint_small by lia. split.
        * eapply Forall_impl; [|exact Hlines]. intros t Ht. simpl in Ht. lia.
        * intros _ _. reflexivity.
      + split; [exact Hlines|]. intros Hplain Hnum.
        rewrite (Hcol Hplain Hnum).
        pose proof (column_after_range (sub source 0 (pointer (l_cur st))))
          as Hr.
        rewrite len_sub in Hr by lia. apply uint_small. lia.
    - destruct (existsb (bytes_eqb [c]) symbols); [|discriminate Hs].
      injection Hs as <- <-. simpl push_token.
      apply Htoken; [reflexivity|reflexivity|]. simpl.
      intros Hplain _ Hc.
      replace 1 with (pointer (l_cur st) + 1 - pointer (l_cur st)) at 1
        by lia.
      apply (column_advance source); try lia.
      rewrite (sub_one _ _ c Hat). exact Hplain. }
  assert (Hdelim : forall d t cur',
             is_quote d = true ->
             lexCharacterDelimited source (l_cur st) d
             = Val (Some t, cur', true) ->
             column_counted source {| l_tokens := l_tokens st ++ [t];
                                      l_cur := cur' |}).
  { intros d t cur' Hd Hq.
    destruct (lexCharacterDelimited_shape source Hlen (l_cur st) d Hle _ _ Hq)
      as (Hr & Ho & _ & _ & Hloc & E).
    injection E as ->.
    apply Htoken; [reflexivity|rewrite Hloc; reflexivity|].
    rewrite Hloc. simpl. intros Hplain _ Hc.
    apply (column_advance source); try lia.
    rewrite (sub_head _ _ _ d) by (assumption || lia).
    change (d :: sub source (pointer (l_cur st) + 1) (pointer cur'))
      with ([d] ++ sub source (pointer (l_cur st) + 1) (pointer cur')).
    rewrite newlines_app, Hplain.
    unfold is_quote in Hd. apply orb_true_iff in Hd.
    destruct Hd as [Hd|Hd]; apply byte_eqb_eq in Hd; subst d; reflexivity. }
  apply range_lexers_cons in Hrange.
  destruct Hrange as [Hq|[_ Hrange]].
  { unfold lexString in Hq.
    destruct (lexCharacterDelimited_shape source Hlen (l_cur st) squote Hle
                _ _ Hq) as (_ & _ & _ & _ & _ & ->).
    apply (Hdelim squote); [reflexivity|exact Hq]. }
  apply range_lexers_cons in Hrange.
  destruct Hrange as [Hn|[_ Hrange]].
  { destruct (lexNumeric_spec source Hlen (l_cur st) Hle) as (r & Hr & Hcase).
    rewrite Hn in Hr. injection Hr as <-.
    destruct Hcase as [E|(cur' & _ & Hline & _ & _ & E)]; [discriminate E|].
    injection E as -> ->. simpl push_token.
    apply Htoken; [reflexivity|exact Hline|]. simpl.
    intros _ Hk. congruence. }
  apply range_lexers_cons in Hrange.
  destruct Hrange as [Hi|[_ Hrange]]; [|discriminate Hrange].
  destruct (lexIdentifier_spec source Hlen (l_cur st) Hp)
    as (r & Hr & Hcase).
  rewrite Hi in Hr. injection Hr as <-.
  destruct Hcase as [E|[(cur' & _ & _ & _ & _ & E)|(cur' & Hq & _ & _ & E)]].
  - discriminate E.
  - injection E as -> ->. simpl push_token.
    apply (Hdelim dquote); [reflexivity|].
    apply lexIdentifier_delimited; [exact Hi|reflexivity].
  - injection E as -> ->. simpl push_token.
    destruct (lexIdentifier_bare source Hlen (l_cur st) Hp _ cur' Hi eq_refl)
      as (_ & _ & _ & _ & _ & Hloc).
    apply Htoken; [reflexivity|rewrite Hloc; reflexivity|].
    rewrite Hloc. simpl. intros Hplain _ Hc.
    apply (column_advance source); try lia.
    rewrite <- newlines_ToLower. exact Hplain.
Qed.

(** C7, as stated, fails: on the one-byte source [?] the error reports
    line 0, and a line that counted from 1 would be at least 1 at every
    offset. *)
Lemma lex_error_line_from_zero :
  lex (B "?") = Val (Failed {| err_hint := []; err_line := 0; err_col := 0 |})
  /\ forall offset, 0 <> 1 + newlines (sub (B "?") 0 offset).
Proof.
  split; [vm_compute; reflexivity|].
  intros offset. pose proof (newlines_nonneg (sub (B "?") 0 offset)). lia.
Qed.

(** C7, as amended: whenever [lex] fails, the driver has reached a byte of
    the source at which every scanner reports no match, the first byte that
    is not consumed.  The error reports the line of that byte, counted from
    0, as long as no token lexed before it holds a newline, and the column
    of that byte, counted from 0, as long as, besides, no numeric literal
    was lexed on that line.  When at least one token was produced, the hint
    is the word after followed by the value of the last token; otherwise it
    is empty. *)
Theorem lex_error_position (source : bytes) (e : LexError) :
  len source < 2 ^ 63 ->
  lex source = Val (Failed e) ->
  exists st,
    lex_reaches source st
    /\ 0 <= pointer (l_cur st) < len source
    /\ (forall l, In l lexers -> l source (l_cur st) = Val (no_match (l_cur st)))
    /\ (newlines_in (l_tokens st) = 0 ->
        err_line e = newlines (sub source 0 (pointer (l_cur st)))
        /\ (no_numeric_on (err_line e) (l_tokens st) ->
            err_col e = column_after (sub source 0 (pointer (l_cur st)))))
    /\ (l_tokens st = [] -> err_hint e = [])
    /\ (forall tokens t, l_tokens st = tokens ++ [t] ->
                         err_hint e = B " after " ++ Value t).
Proof.
  intros Hlen Hlex.
  destruct (lex_rule source Hlen
              (fun st => lex_reaches source st /\ line_counted source st
                         /\ column_counted source st))
    as (res & Hres & Hcase).
  - split; [apply lex_reaches_start|]. split.
    + split; [simpl; lia|reflexivity].
    + split; [constructor|]. intros _ _. reflexivity.
  - intros st token newCursor (Hreach & Hline & Hcol) Hp Hrange Hm. split.
    + apply lex_reaches_step; try assumption.
      pose proof (len_nonneg source). rewrite uint_small by lia.
      apply Z.ltb_lt. lia.
    + split; [apply line_counted_step; assumption|].
      apply column_counted_step; assumption.
  - rewrite Hlex in Hres. injection Hres as <-.
    destruct Hcase as (st & (Hreach & [_ Hline] & [_ Hcol]) & Hp & Hnone & ->).
    exists st. simpl.
    split; [exact Hreach|]. split; [exact Hp|]. split; [exact Hnone|].
    split.
    + intros Hplain. rewrite Hplain, Z.add_0_r in Hline.
      split; [exact Hline|]. intros Hnum. apply Hcol; assumption.
    + unfold lex_hint. split.
      * intros ->. reflexivity.
      * intros tokens t ->. rewrite last_token_push. reflexivity.
Qed.

Lemma lex_error_position_witness :
  len two_lines < 2 ^ 63
  /\ lex two_lines
     = Val (Failed {| err_hint := B " after a"; err_line := 1; err_col := 0 |})
  /\ exists st,
       lex_reaches two_lines st
       /\ 0 <= pointer (l_cur st) < len two_lines
       /\ (forall l, In l lexers ->
                     l two_lines (l_cur st) = Val (no_match (l_cur st)))
       /\ (newlines_in (l_tokens st) = 0 ->
           1 = newlines (sub two_lines 0 (pointer (l_cur st)))
           /\ (no_numeric_on 1 (l_tokens st) ->
               0 = column_after (sub two_lines 0 (pointer (l_cur st)))))
       /\ (l_tokens st = [] -> B " after a" = [])
       /\ (forall tokens t, l_tokens st = tokens ++ [t] ->
                            B " after a" = B " after " ++ Value t).
Proof.
  split; [reflexivity|]. split; [vm_compute; reflexivity|].
  apply (lex_error_position two_lines
           {| err_hint := B " after a"; err_line := 1; err_col := 0 |}).
  - reflexivity.
  - vm_compute. reflexivity.
Defined.

(** ** Scanners and locations *)

(** Two loops whose conditions, post statements and bodies agree on related
    states leave alike, on the same fuel. *)
Lemma for_loop_same {St R : Type} (RS : St -> St -> Prop)
    (RR : R -> R -> Prop) (cond cond' : St -> bool) (post post' : St -> St)
    (body body' : St -> outcome (ctl St R)) :
  (forall s s', RS s s' -> cond s = cond' s') ->
  (forall s s', RS s s' -> RS (post s) (post' s')) ->
  (forall s s', RS s s' ->
                same_outcome (same_ctl RS RR) (body s) (body' s')) ->
  forall fuel s s',
    RS s s' ->
    same_outcome (same_exit RS RR) (for_loop cond post body fuel s)
      (for_loop cond' post' body' fuel s').
Proof.
  intros Hcond Hpost Hbody. induction fuel as [|fuel IH]; intros s s' Hs.
  - exact I.
  - rewrite !for_loop_S, <- (Hcond s s' Hs). destruct (cond s).
    + specialize (Hbody s s' Hs).
      destruct (body s) as [c| |], (body' s') as [c'| |]; simpl in *;
        try contradiction; try exact I.
      destruct c, c'; simpl in *; try contradiction; try exact Hbody.
      apply IH. apply Hpost. exact Hbody.
    + exact Hs.
Qed.

Lemma equals_refl (value : bytes) (kind : TokenKind) (l l' : Location) :
  equals {| Value := value; Kind := kind; Loc := l |}
         {| Value := value; Kind := kind; Loc := l' |} = true.
Proof. apply equals_spec. split; reflexivity. Qed.

Lemma same_no_match (ic ic' : cursor) :
  pointer ic = pointer ic' -> same_lexed (no_match ic) (no_match ic').
Proof. intros H. split; [exact I|]. split; [exact H|reflexivity]. Qed.

Ltac same_branches :=
  repeat match goal with
         | |- context [if ?b then _ else _] => destruct b
         | |- context [bind (index ?s ?i) _] =>
             destruct (index s i); cbn [bind]
         end.

Lemma lexNumeric_body_same (source : bytes) (ic ic' : cursor)
    (st st' : numeric_state) :
  pointer ic = pointer ic' -> same_numeric st st' ->
  same_outcome (same_ctl same_numeric same_lexed)
    (lexNumeric_body source ic st) (lexNumeric_body source ic' st').
Proof.
  intros Hic (Hp & Hpf & He). unfold lexNumeric_body.
  destruct st as [[p l] pf ef], st' as [[p' l'] pf' ef'].
  cbn [n_cur periodFound expMarkerFound pointer incr_Col set_Col
       incr_pointer set_pointer loc] in *.
  subst p' pf' ef'. rewrite <- Hic.
  destruct (index source p) as [c| |]; cbn [bind]; try exact I.
  same_branches; try exact I; try (apply same_no_match; exact Hic);
    repeat split; reflexivity.
Qed.

Lemma lexNumeric_same (source : bytes) (ic ic' : cursor) :
  pointer ic = pointer ic' ->
  same_outcome same_lexed (lexNumeric source ic) (lexNumeric source ic').
Proof.
  intros Hic. unfold lexNumeric.
  pose proof (for_loop_same same_numeric same_lexed
                (fun st => pointer (n_cur st) <? uint (len source))
                (fun st => pointer (n_cur st) <? uint (len source))
                numeric_post numeric_post
                (lexNumeric_body source ic) (lexNumeric_body source ic'))
    as Hloop.
  specialize (Hloop ltac:(intros s s' (Hp & _); rewrite Hp; reflexivity)).
  specialize (Hloop ltac:(intros [[p l] pf ef] [[p' l'] pf' ef'] (Hp & H);
                          simpl in *; subst p'; split; [reflexivity|exact H])).
  specialize (Hloop (fun s s' => lexNumeric_body_same source ic ic' s s' Hic)
                (S (length source))
                {| n_cur := ic; periodFound := false; expMarkerFound := false |}
                {| n_cur := ic'; periodFound := false;
                   expMarkerFound := false |}).
  specialize (Hloop ltac:(split; [exact Hic|split; reflexivity])).
  destruct (for_loop _ _ (lexNumeric_body source ic) _ _) as [r| |],
           (for_loop _ _ (lexNumeric_body source ic') _ _) as [r'| |];
    simpl in Hloop; try contradiction; cbn [bind]; try exact I.
  destruct r as [st|res], r' as [st'|res']; simpl in Hloop;
    try contradiction; [|exact Hloop].
  destruct Hloop as (Hp & _). rewrite <- Hp, <- Hic.
  destruct (pointer (n_cur st) =? pointer ic);
    [apply same_no_match; exact Hic|].
  destruct (slice source (pointer ic) (pointer (n_cur st))) as [v| |];
    cbn [bind]; try exact I.
  split; [apply equals_refl|]. split; [exact Hp|reflexivity].
Qed.

Lemma lexCharacterDelimited_body_same (source : bytes) (ic ic' : cursor)
    (delimiter : ascii) (st st' : delimited_state) :
  same_delimited st st' ->
  same_outcome (same_ctl same_delimited same_lexed)
    (lexCharacterDelimited_body source ic delimiter st)
    (lexCharacterDelimited_body source ic' delimiter st').
Proof.
  intros (Hp & Hv). unfold lexCharacterDelimited_body.
  destruct st as [[p l] v], st' as [[p' l'] v'].
  cbn [d_cur d_value pointer incr_Col set_Col incr_pointer set_pointer loc]
    in *.
  subst p' v'.
  destruct (index source p) as [c| |]; cbn [bind]; try exact I.
  same_branches; try exact I;
    try (split; [apply equals_refl|split; reflexivity]);
    repeat split; reflexivity.
Qed.

Lemma lexCharacterDelimited_same (source : bytes) (ic ic' : cursor)
    (delimiter : ascii) :
  pointer ic = pointer ic' ->
  same_outcome same_lexed (lexCharacterDelimited source ic delimiter)
    (lexCharacterDelimited source ic' delimiter).
Proof.
  intros Hic. unfold lexCharacterDelimited. rewrite <- Hic.
  destruct (slice source (pointer ic) (len source)) as [rest| |];
    cbn [bind]; try exact I.
  destruct (len rest =? 0); [apply same_no_match; exact Hic|].
  destruct (index source (pointer ic)) as [c| |]; cbn [bind]; try exact I.
  destruct (negb (byte_eqb c delimiter)); [apply same_no_match; exact Hic|].
  pose proof (for_loop_same same_delimited same_lexed
                (fun st => pointer (d_cur st) <? uint (len source))
                (fun st => pointer (d_cur st) <? uint (len source))
                delimited_post delimited_post
                (lexCharacterDelimited_body source ic delimiter)
                (lexCharacterDelimited_body source ic' delimiter))
    as Hloop.
  specialize (Hloop ltac:(intros s s' (Hp & _); rewrite Hp; reflexivity)).
  specialize (Hloop ltac:(intros [[p l] v] [[p' l'] v'] (Hp & H);
                          simpl in *; subst p'; split; [reflexivity|exact H])).
  specialize (Hloop (fun s s' =>
                       lexCharacterDelimited_body_same source ic ic'
                         delimiter s s')
                (S (length source))
                {| d_cur := incr_pointer (incr_Col ic); d_value := [] |}
                {| d_cur := incr_pointer (incr_Col ic'); d_value := [] |}).
  specialize (Hloop ltac:(split; [simpl; rewrite Hic; reflexivity
                                 |reflexivity])).
  destruct (for_loop _ _ (lexCharacterDelimited_body source ic delimiter) _ _)
    as [r| |],
    (for_loop _ _ (lexCharacterDelimited_body source ic' delimiter) _ _)
    as [r'| |];
    simpl in Hloop; try contradiction; cbn [bind]; try exact I.
  destruct r as [st|res], r' as [st'|res']; simpl in Hloop;
    try contradiction; [apply same_no_match; exact Hic|exact Hloop].
Qed.

Lemma longestMatch_same (source : bytes) (ic ic' : cursor)
    (options : list bytes) :
  pointer ic = pointer ic' ->
  longestMatch source ic options = longestMatch source ic' options.
Proof.
  intros Hic. unfold longestMatch.
  pose proof (for_loop_same same_match (fun _ _ : Empty_set => True)
                (fun st => pointer (m_cur st) <? uint (len source))
                (fun st => pointer (m_cur st) <? uint (len source))
                (fun st => st) (fun st => st)
                (longestMatch_body source ic options)
                (longestMatch_body source ic' options))
    as Hloop.
  specialize (Hloop ltac:(intros s s' (_ & _ & _ & Hp); rewrite Hp;
                          reflexivity)).
  specialize (Hloop ltac:(intros s s' H; exact H)).
  assert (Hbody : forall s s', same_match s s' ->
             same_outcome (same_ctl same_match (fun _ _ : Empty_set => True))
               (longestMatch_body source ic options s)
               (longestMatch_body source ic' options s')).
  { intros [v sk m [p l]] [v' sk' m' [p' l']] (Hv & Hsk & Hm & Hp).
    cbn [m_value m_skipList m_match m_cur pointer] in *. subst v' sk' m' p'.
    unfold longestMatch_body.
    cbn [m_value m_skipList m_match m_cur pointer incr_pointer set_pointer].
    rewrite <- Hic.
    destruct (index source p) as [c| |]; cbn [bind]; try exact I.
    destruct (range_options _ _ _ _ _ _) as [r| |]; cbn [bind]; try exact I.
    cbn [m_skipList]. destruct (len (fst r) =? len options);
      repeat split; reflexivity. }
  specialize (Hloop Hbody (S (length source))
                {| m_value := []; m_skipList := []; m_match := [];
                   m_cur := ic |}
                {| m_value := []; m_skipList := []; m_match := [];
                   m_cur := ic' |}).
  specialize (Hloop ltac:(repeat split; exact Hic)).
  destruct (for_loop _ _ (longestMatch_body source ic options) _ _) as [r| |],
    (for_loop _ _ (longestMatch_body source ic' options) _ _) as [r'| |];
    simpl in Hloop; try contradiction; cbn [bind]; try reflexivity.
  destruct r as [st|[]], r' as [st'|[]]. simpl in Hloop.
  destruct Hloop as (_ & _ & Hm & _). rewrite Hm. reflexivity.
Qed.

Lemma matched_same (kind : TokenKind) (ic ic' cur cur' : cursor)
    (mtch : bytes) :
  pointer ic = pointer ic' ->
  same_lexed (matched kind ic cur mtch) (matched kind ic' cur' mtch).
Proof.
  intros Hic. unfold matched. destruct (bytes_eqb mtch []).
  - apply same_no_match. exact Hic.
  - split; [apply equals_refl|]. split; [|reflexivity].
    simpl. rewrite Hic. reflexivity.
Qed.

Lemma lexKeyword_same (source : bytes) (ic ic' : cursor) :
  pointer ic = pointer ic' ->
  same_outcome same_lexed (lexKeyword source ic) (lexKeyword source ic').
Proof.
  intros Hic. unfold lexKeyword.
  rewrite (longestMatch_same source ic ic' keywords Hic).
  destruct (longestMatch source ic' keywords) as [m| |]; cbn [bind];
    try exact I.
  apply matched_same. exact Hic.
Qed.

Lemma lexSymbol_same (source : bytes) (ic ic' : cursor) :
  pointer ic = pointer ic' ->
  same_outcome same_lexed (lexSymbol source ic) (lexSymbol source ic').
Proof.
  intros Hic. unfold lexSymbol. rewrite <- Hic.
  destruct (index source (pointer ic)) as [c| |]; cbn [bind]; try exact I.
  assert (Hcur : same_lexed (None, incr_Col (incr_pointer ic), true)
                            (None, incr_Col (incr_pointer ic'), true)).
  { split; [exact I|]. split; [simpl; rewrite Hic; reflexivity|reflexivity]. }
  destruct (byte_eqb c "010").
  { split; [exact I|]. split; [simpl; rewrite Hic; reflexivity|reflexivity]. }
  destruct (byte_eqb c "009"); [exact Hcur|].
  destruct (byte_eqb c " "); [exact Hcur|].
  rewrite (longestMatch_same source ic ic' symbols Hic).
  destruct (longestMatch source ic' symbols) as [m| |]; cbn [bind];
    try exact I.
  apply matched_same. exact Hic.
Qed.

Lemma lexIdentifier_same (source : bytes) (ic ic' : cursor) :
  pointer ic = pointer ic' ->
  same_outcome same_lexed (lexIdentifier source ic)
    (lexIdentifier source ic').
Proof.
  intros Hic. unfold lexIdentifier.
  pose proof (lexCharacterDelimited_same source ic ic' dquote Hic) as Hq.
  destruct (lexCharacterDelimited source ic dquote) as [[[t c] ok]| |],
    (lexCharacterDelimited source ic' dquote) as [[[t' c'] ok']| |];
    simpl in Hq; try contradiction; cbn [bind]; try exact I.
  destruct Hq as (Ht & Hc & Hok). simpl in Ht, Hc, Hok. subst ok'.
  destruct ok.
  { split; [exact Ht|]. split; [exact Hc|reflexivity]. }
  rewrite <- Hic.
  destruct (index source (pointer ic)) as [b| |]; cbn [bind]; try exact I.
  destruct (negb (isAlphabetical b)); [apply same_no_match; exact Hic|].
  pose proof (for_loop_same same_ident (fun _ _ : Empty_set => True)
                (fun st => pointer (i_cur st) <? uint (len source))
                (fun st => pointer (i_cur st) <? uint (len source))
                ident_post ident_post
                (lexIdentifier_body source) (lexIdentifier_body source))
    as Hloop.
  specialize (Hloop ltac:(intros s s' (Hp & _); rewrite Hp; reflexivity)).
  specialize (Hloop ltac:(intros [[p l] v] [[p' l'] v'] (Hp & H);
                          simpl in *; subst p'; split; [reflexivity|exact H])).
  assert (Hbody : forall s s', same_ident s s' ->
             same_outcome (same_ctl same_ident (fun _ _ : Empty_set => True))
               (lexIdentifier_body source s) (lexIdentifier_body source s')).
  { intros [[p l] v] [[p' l'] v'] (Hp & Hv).
    cbn [i_cur i_value pointer] in *. subst p' v'.
    unfold lexIdentifier_body. cbn [i_cur i_value pointer].
    destruct (index source p) as [x| |]; cbn [bind]; try exact I.
    same_branches; repeat split; reflexivity. }
  specialize (Hloop Hbody (S (length source))
                {| i_cur := incr_Col (incr_pointer ic); i_value := [b] |}
                {| i_cur := incr_Col (incr_pointer ic'); i_value := [b] |}).
  specialize (Hloop ltac:(split; [simpl; rewrite Hic; reflexivity
                                 |reflexivity])).
  destruct (for_loop _ _ _ _ {| i_cur := incr_Col (incr_pointer ic);
                                i_value := [b] |}) as [r| |],
    (for_loop _ _ _ _ {| i_cur := incr_Col (incr_pointer ic');
                         i_value := [b] |}) as [r'| |];
    simpl in Hloop; try contradiction; cbn [bind]; try exact I.
  destruct r as [st|[]], r' as [st'|[]]. simpl in Hloop.
  destruct Hloop as (Hp & Hv). rewrite <- Hv.
  destruct (len (i_value st) =? 0); [apply same_no_match; exact Hic|].
  split; [apply equals_refl|]. split; [exact Hp|reflexivity].
Qed.

(** X1: what a scanner matches does not depend on the line and the column
    of the cursor it is given.  At two cursors with the same pointer each of
    the five scanners gives the same verdict and the same new pointer, and
    tokens that [equals] does not tell apart: they have the same value and
    the same kind, wherever they are said to stand. *)
Theorem scanners_ignore_location (source : bytes) (l : lexer)
    (ic ic' : cursor) :
  In l lexers ->
  pointer ic = pointer ic' ->
  same_outcome same_lexed (l source ic) (l source ic').
Proof.
  intros Hin Hic. destruct Hin as [<-|[<-|[<-|[<-|[<-|[]]]]]].
  - apply lexKeyword_same. exact Hic.
  - apply lexSymbol_same. exact Hic.
  - apply lexCharacterDelimited_same. exact Hic.
  - apply lexNumeric_same. exact Hic.
  - apply lexIdentifier_same. exact Hic.
Qed.

Lemma scanners_ignore_location_witness :
  In lexIdentifier lexers
  /\ pointer {| pointer := 7; loc := {| Line := 0; Col := 7 |} |}
     = pointer {| pointer := 7; loc := {| Line := 3; Col := 1 |} |}
  /\ lexIdentifier (B "select Tab_1")
       {| pointer := 7; loc := {| Line := 0; Col := 7 |} |}
     = Val (Some (tok "tab_1" IdentifierKind 0 7),
            {| pointer := 12; loc := {| Line := 0; Col := 12 |} |}, true)
  /\ lexIdentifier (B "select Tab_1")
       {| pointer := 7; loc := {| Line := 3; Col := 1 |} |}
     = Val (Some (tok "tab_1" IdentifierKind 3 1),
            {| pointer := 12; loc := {| Line := 3; Col := 6 |} |}, true)
  /\ same_outcome same_lexed
       (lexIdentifier (B "select Tab_1")
          {| pointer := 7; loc := {| Line := 0; Col := 7 |} |})
       (lexIdentifier (B "select Tab_1")
          {| pointer := 7; loc := {| Line := 3; Col := 1 |} |}).
Proof.
  split; [simpl; tauto|]. split; [reflexivity|].
  split; [vm_compute; reflexivity|]. split; [vm_compute; reflexivity|].
  apply (scanners_ignore_location (B "select Tab_1") lexIdentifier).
  - simpl. tauto.
  - reflexivity.
Defined.
